(** * A ride-sharing dispatch simulation: model and verified properties

    Shallow embedding of the simulation core (location.py, rider.py,
    driver.py, container.py, dispatcher.py, event.py).

    Python objects that are mutated through several references (drivers
    and riders are held by events and by the dispatcher's pools at the
    same time) live in a store indexed by references; object identity is
    equality of references.  Python exceptions are values of [exn]; a
    call that raises keeps the mutations it made before raising. *)

From Stdlib Require Import ZArith List String Ascii Bool Lia.
From Stdlib Require Import Permutation Sorted.
From Stdlib Require Import DecimalString DecimalPos DecimalZ.
Import ListNotations.
Open Scope Z_scope.

Set Implicit Arguments.
Set Warnings "-notation-for-abbreviation".

(** ** Exceptions and results *)

Inductive exn : Type :=
| AttributeError      (* attribute access on None *)
| ZeroDivisionError   (* [x / 0] *)
| OverflowError       (* [x / y] beyond the range of a float *)
| IndexError          (* [lst[i]] out of range, [[].pop(0)] *)
| ValueError.         (* [int(s)] on a malformed literal *)

Inductive result (A : Type) : Type :=
| Ok (a : A)
| Raise (e : exn).
Arguments Ok {A} a.
Arguments Raise {A} e.

Definition is_ok {A} (r : result A) : bool :=
  match r with Ok _ => true | Raise _ => false end.

(** The name of the class of an exception. *)
Definition class_name (e : exn) : string :=
  match e with
  | AttributeError => "AttributeError"
  | ZeroDivisionError => "ZeroDivisionError"
  | OverflowError => "OverflowError"
  | IndexError => "IndexError"
  | ValueError => "ValueError"
  end.

(** ** location.py *)

Record Location : Type := mkLocation { row : Z; col : Z }.

(** [Location.__eq__] *)
Definition Location_eq (self other : Location) : bool :=
  (row self =? row other) && (col self =? col other).

(** [manhattan_distance(origin, destination)] *)
Definition manhattan_distance (origin destination : Location) : Z :=
  let horizontal_distance := Z.abs (row destination - row origin) in
  let vertical_distance := Z.abs (col destination - col origin) in
  horizontal_distance + vertical_distance.

(** ** Python's [a / b] on integers and [round(x)]

    [a / b] is true division: its value is a float, the IEEE-754 double
    nearest to the exact quotient, with a tie going to the even
    significand; it raises [ZeroDivisionError] for [b = 0] and
    [OverflowError] when that double would be [2 ^ 1024] or more in
    magnitude.  [round(x)] is the integer nearest to the float [x], with
    a tie going to the even integer.

    A finite float is kept as [significand * 2 ^ exponent].  (Division
    of integers gives no infinity or NaN; the sign of a zero quotient is
    dropped, [round] does not see it.) *)

(** The integer nearest to the exact [n / d], for [0 < d]; the even one
    of the two when [n / d] lies half way. *)
Definition nearest_even (n d : Z) : Z :=
  let q := n / d in
  let r := n mod d in
  match 2 * r ?= d with
  | Lt => q
  | Gt => q + 1
  | Eq => if Z.even q then q else q + 1
  end.

Record float : Type := mkFloat { significand : Z; exponent : Z }.

(** [x * 2 ^ s] for [0 <= s], and [x] otherwise: the two sides of a
    fraction [x * 2 ^ s / 1] or [x / 2 ^ (- s)] are [scaled x s] and
    [scaled 1 (- s)]. *)
Definition scaled (x s : Z) : Z := x * 2 ^ Z.max 0 s.

(** The binary exponent [k] of the quotient of two positive integers:
    [2 ^ k <= n / d < 2 ^ (k + 1)]. *)
Definition quotient_exponent (n d : Z) : Z :=
  let k0 := Z.log2 n - Z.log2 d in
  if scaled n (- k0) <? scaled d k0 then k0 - 1 else k0.

(** [a / b]: the quotient is rounded to 53 significant bits, or to a
    multiple of [2 ^ -1074] where it is too small for that. *)
Definition true_divide (a b : Z) : result float :=
  if b =? 0 then Raise ZeroDivisionError
  else if a =? 0 then Ok (mkFloat 0 0)
  else
    let n := Z.abs a in
    let d := Z.abs b in
    let e := Z.max (quotient_exponent n d - 52) (-1074) in
    let m := nearest_even (scaled n (- e)) (scaled d e) in
    if scaled (2 ^ 1024) (- e) <=? scaled m e then Raise OverflowError
    else Ok (mkFloat (Z.sgn a * Z.sgn b * m) e).

(** [round(x)] *)
Definition py_round (x : float) : Z :=
  nearest_even (scaled (significand x) (exponent x)) (scaled 1 (- exponent x)).

(** [round(a / b)] *)
Definition round_div (a b : Z) : result Z :=
  match true_divide a b with
  | Ok quotient => Ok (py_round quotient)
  | Raise e => Raise e
  end.

(** A quotient well within the floats: the divisor is not zero and the
    quotient is below [2 ^ 1023] in magnitude. *)
Definition in_float_range (a b : Z) : Prop := Z.abs a < 2 ^ 1023 * Z.abs b.

(** ** Python's [int(s)], [s.split(",")] and [s.strip()]

    Text is kept as the string of its bytes in UTF-8.  The operations
    below are Python's on text whose characters outside ASCII are neither
    white space nor decimal digits (ASCII text in particular): to them a
    byte outside ASCII is an ordinary character. *)

(** Characters [str.strip()] and [str.split()] treat as white space:
    tab to carriage return, the four separators FS, GS, RS, US, and the
    space. *)
Definition is_space (c : ascii) : bool :=
  let n := nat_of_ascii c in
  (Nat.eqb n 32 || (Nat.leb 9 n && Nat.leb n 13) || (Nat.leb 28 n && Nat.leb n 31))%bool.

(** Characters [int] skips around a literal: tab to carriage return and
    the space, not the four separators. *)
Definition is_int_space (c : ascii) : bool :=
  let n := nat_of_ascii c in
  (Nat.eqb n 32 || (Nat.leb 9 n && Nat.leb n 13))%bool.

Definition digit_of (c : ascii) : option Z :=
  let n := nat_of_ascii c in
  if (Nat.leb 48 n && Nat.leb n 57)%bool then Some (Z.of_nat n - 48) else None.

(** [s.lstrip()] *)
Fixpoint lstrip (s : string) : string :=
  match s with
  | String c s' => if is_space c then lstrip s' else s
  | EmptyString => s
  end.

(** The literal without the white space [int] skips before it, and
    whether a string is nothing but such white space. *)
Fixpoint int_lstrip (s : string) : string :=
  match s with
  | String c s' => if is_int_space c then int_lstrip s' else s
  | EmptyString => s
  end.

Fixpoint all_int_space (s : string) : bool :=
  match s with
  | String c s' => is_int_space c && all_int_space s'
  | EmptyString => true
  end.

(** The digits of a decimal literal after its first digit: more digits,
    single underscores between digits, then only white space. [acc] is
    the value read so far. *)
Fixpoint int_digits (s : string) (acc : Z) : option Z :=
  match s with
  | EmptyString => Some acc
  | String c s' =>
      match digit_of c with
      | Some d => int_digits s' (10 * acc + d)
      | None =>
          if Ascii.eqb c "_"%char then
            match s' with
            | String c' s'' =>
                match digit_of c' with
                | Some d => int_digits s'' (10 * acc + d)
                | None => None
                end
            | EmptyString => None
            end
          else if all_int_space s then Some acc else None
      end
  end.

Definition int_unsigned (s : string) : option Z :=
  match s with
  | String c s' =>
      match digit_of c with
      | Some d => int_digits s' d
      | None => None
      end
  | EmptyString => None
  end.

(** [int(s)] in base ten: optional white space, an optional sign, digits,
    optional white space; [ValueError] otherwise.  (Literals are taken to
    be within the interpreter's limit on the number of digits.) *)
Definition py_int (s : string) : result Z :=
  let body := int_lstrip s in
  let parsed :=
    match body with
    | String "-"%char s' => option_map Z.opp (int_unsigned s')
    | String "+"%char s' => int_unsigned s'
    | _ => int_unsigned body
    end in
  match parsed with
  | Some n => Ok n
  | None => Raise ValueError
  end.

(** [s.split(sep)] for a one-character separator. *)
Fixpoint split (sep : ascii) (s : string) : list string :=
  match s with
  | EmptyString => [EmptyString]
  | String c s' =>
      if Ascii.eqb c sep then EmptyString :: split sep s'
      else match split sep s' with
           | field :: fields => String c field :: fields
           | [] => [String c EmptyString]
           end
  end.

(** [lst[i]] *)
Definition subscript {A} (lst : list A) (i : nat) : result A :=
  match nth_error lst i with
  | Some x => Ok x
  | None => Raise IndexError
  end.

(** [deserialize_location], with the builtin [int] it calls as a
    parameter; the arguments of [Location(...)] are evaluated left to
    right. *)
Definition deserialize_location_with (int : string -> result Z)
           (location_str : string) : result Location :=
  let split_string := split ","%char location_str in
  match subscript split_string 0 with
  | Raise e => Raise e
  | Ok field0 =>
      match int field0 with
      | Raise e => Raise e
      | Ok r =>
          match subscript split_string 1 with
          | Raise e => Raise e
          | Ok field1 =>
              match int field1 with
              | Raise e => Raise e
              | Ok c => Ok (mkLocation r c)
              end
          end
      end
  end.

(** [deserialize_location] *)
Definition deserialize_location (location_str : string) : result Location :=
  deserialize_location_with py_int location_str.

(** ** rider.py *)

Inductive Status : Type := WAITING | CANCELLED | SATISFIED.

Definition Status_eqb (a b : Status) : bool :=
  match a, b with
  | WAITING, WAITING | CANCELLED, CANCELLED | SATISFIED, SATISFIED => true
  | _, _ => false
  end.

Module Rider.

Record t : Type := mk
  { identifier : string;
    patience : Z;
    origin : Location;
    destination : Location;
    status : Status }.

(** [Rider.__init__] *)
Definition init (identifier : string) (patience : Z)
           (origin destination : Location) : t :=
  mk identifier patience origin destination WAITING.

(** [rider.status = s] *)
Definition set_status (self : t) (s : Status) : t :=
  mk (identifier self) (patience self) (origin self) (destination self) s.

End Rider.

(** ** driver.py

    [location] and [destination] hold Python references that may be
    [None]: [destination] is [None] at construction, and [end_drive] /
    [end_ride] move whatever [destination] holds into [location]. *)

Module Driver.

Record t : Type := mk
  { id : string;
    location : option Location;
    speed : Z;
    is_idle : bool;
    destination : option Location }.

(** [Driver.__init__] *)
Definition init (identifier : string) (location : Location) (speed : Z) : t :=
  mk identifier (Some location) speed true None.

(** [self.location == other.location] on references that may be None:
    [None == None] is true, and [Location.__eq__] raises when it reads
    [row] of None. *)
Definition location_ref_eq (a b : option Location) : result bool :=
  match a, b with
  | None, None => Ok true
  | Some x, Some y => Ok (Location_eq x y)
  | _, _ => Raise AttributeError
  end.

(** [Driver.__eq__]; [and] evaluates left to right and stops at the
    first false operand. *)
Definition eq (self other : t) : result bool :=
  if String.eqb (id self) (id other) then
    match location_ref_eq (location self) (location other) with
    | Ok true => Ok (speed self =? speed other)
    | Ok false => Ok false
    | Raise e => Raise e
    end
  else Ok false.

(** [Driver.get_travel_time] *)
Definition get_travel_time (self : t) (dest : Location) : result Z :=
  match location self with
  | None => Raise AttributeError
  | Some here =>
      round_div (manhattan_distance here dest) (speed self)
  end.

(** [Driver.start_drive]: the updated driver and what the call returns. *)
Definition start_drive (self : t) (loc : Location) : t * result Z :=
  let self1 := mk (id self) (location self) (speed self) false (destination self) in
  let self2 := mk (id self1) (location self1) (speed self1) (is_idle self1) (Some loc) in
  (self2, get_travel_time self2 loc).

(** [Driver.end_drive] *)
Definition end_drive (self : t) : t :=
  let self1 := mk (id self) (destination self) (speed self) (is_idle self) None in
  mk (id self1) (location self1) (speed self1) true (destination self1).

(** [Driver.start_ride] *)
Definition start_ride (self : t) (rider : Rider.t) : t * result Z :=
  let self1 := mk (id self) (location self) (speed self) false (destination self) in
  let self2 := mk (id self1) (location self1) (speed self1) (is_idle self1)
                  (Some (Rider.destination rider)) in
  (self2, get_travel_time self2 (Rider.destination rider)).

(** [Driver.end_ride] *)
Definition end_ride (self : t) : t :=
  let self1 := mk (id self) (location self) (speed self) true (destination self) in
  mk (id self1) (destination self1) (speed self1) (is_idle self1) None.

(** The documented representation invariant: a destination is set
    exactly while the driver is busy. *)
Definition invariant (self : t) : Prop :=
  destination self <> None <-> is_idle self = false.

End Driver.

(** ** container.py: the priority queue

    The queue is generic in its items; [lt item x] is Python's
    [item < x] on them. *)

Module Container.
Section PriorityQueue.
Variable A : Type.
Variable lt : A -> A -> bool.

Record PriorityQueue : Type := mkPQ { _items : list A }.

(** [PriorityQueue.__init__] *)
Definition init : PriorityQueue := mkPQ [].

(** [PriorityQueue.remove]: [self._items.pop(0)] *)
Definition remove (self : PriorityQueue) : result (A * PriorityQueue) :=
  match _items self with
  | [] => Raise IndexError
  | x :: rest => Ok (x, mkPQ rest)
  end.

(** [PriorityQueue.is_empty] *)
Definition is_empty (self : PriorityQueue) : bool :=
  Nat.eqb (List.length (_items self)) 0.

(** The [for] loop of [PriorityQueue.add], over the items still to be
    visited, carrying [inserted] and [new_items]. *)
Fixpoint add_loop (item : A) (rest : list A) (inserted : bool)
         (new_items : list A) : bool * list A :=
  match rest with
  | [] => (inserted, new_items)
  | x :: rest' =>
      if negb inserted && lt item x
      then add_loop item rest' true ((new_items ++ [item]) ++ [x])
      else add_loop item rest' inserted (new_items ++ [x])
  end.

(** [PriorityQueue.add] *)
Definition add (self : PriorityQueue) (item : A) : PriorityQueue :=
  let '(inserted, new_items) := add_loop item (_items self) false [] in
  if negb inserted then mkPQ (new_items ++ [item]) else mkPQ new_items.

(** Adding a sequence of items, first to last. *)
Definition add_all (self : PriorityQueue) (items : list A) : PriorityQueue :=
  fold_left add items self.

(** [while not q.is_empty(): out.append(q.remove())], bounded by [fuel]
    iterations: the items removed, in order, and the queue left. *)
Fixpoint remove_all (fuel : nat) (self : PriorityQueue)
  : list A * PriorityQueue :=
  match fuel with
  | O => ([], self)
  | S fuel' =>
      if is_empty self then ([], self)
      else match remove self with
           | Ok (x, self') =>
               let '(out, final) := remove_all fuel' self' in
               (x :: out, final)
           | Raise _ => ([], self)
           end
  end.

(** Items that compare neither less nor greater. *)
Definition tied (a b : A) : bool := negb (lt a b) && negb (lt b a).

(** No later item is strictly less than an earlier one. *)
Definition ascending (l : list A) : Prop :=
  StronglySorted (fun a b => lt b a = false) l.

(** Where [add] puts the item: before the first item strictly greater. *)
Fixpoint insert_before_greater (item : A) (l : list A) : list A :=
  match l with
  | [] => [item]
  | x :: l' => if lt item x then item :: x :: l'
               else x :: insert_before_greater item l'
  end.

End PriorityQueue.
End Container.

(** ** The store of shared objects

    Events and the dispatcher's pools hold references to riders and
    drivers; the objects themselves live in the store. *)

Definition RiderRef : Type := nat.
Definition DriverRef : Type := nat.

Inductive ActorKind : Type := RIDER | DRIVER.
Inductive ActionKind : Type := REQUEST | CANCEL | PICKUP | DROPOFF.

(** Modelled from the spec: monitor.py (the activity monitor) is not
    part of the sources; [notify(timestamp, actor_kind, action_kind,
    actor_id, location)] is fire-and-forget, so it is modelled as
    recording its arguments. *)
Record Activity : Type := mkActivity
  { act_time : Z;
    act_actor : ActorKind;
    act_action : ActionKind;
    act_id : string;
    act_location : option Location }.

Record World : Type := mkWorld
  { riders : RiderRef -> Rider.t;
    drivers : DriverRef -> Driver.t;
    _driver_list : list DriverRef;   (* Dispatcher._driver_list *)
    _rider_list : list RiderRef;     (* Dispatcher._rider_list *)
    monitor : list Activity }.

Definition set_rider (r : RiderRef) (v : Rider.t) (w : World) : World :=
  mkWorld (fun r' => if Nat.eqb r' r then v else riders w r')
          (drivers w) (_driver_list w) (_rider_list w) (monitor w).

Definition set_driver (d : DriverRef) (v : Driver.t) (w : World) : World :=
  mkWorld (riders w) (fun d' => if Nat.eqb d' d then v else drivers w d')
          (_driver_list w) (_rider_list w) (monitor w).

Definition set_driver_list (l : list DriverRef) (w : World) : World :=
  mkWorld (riders w) (drivers w) l (_rider_list w) (monitor w).

Definition set_rider_list (l : list RiderRef) (w : World) : World :=
  mkWorld (riders w) (drivers w) (_driver_list w) l (monitor w).

(** [monitor.notify(...)] *)
Definition notify (a : Activity) (w : World) : World :=
  mkWorld (riders w) (drivers w) (_driver_list w) (_rider_list w)
          (monitor w ++ [a]).

(** Computations on the store that may raise; the store reached when an
    exception is raised is kept. *)
Definition M (A : Type) : Type := World -> World * result A.

Definition ret {A} (a : A) : M A := fun w => (w, Ok a).

Definition bind {A B} (m : M A) (k : A -> M B) : M B :=
  fun w => match m w with
           | (w', Ok a) => k a w'
           | (w', Raise e) => (w', Raise e)
           end.

Definition lift {A} (r : result A) : M A := fun w => (w, r).
Definition modify (f : World -> World) : M unit := fun w => (f w, Ok tt).
Definition read {A} (f : World -> A) : M A := fun w => (w, Ok (f w)).

Declare Scope py_scope.
Delimit Scope py_scope with py.
Notation "x <- m ;; k" := (bind m (fun x => k))
  (at level 61, m at next level, right associativity) : py_scope.
Notation "m ;;; k" := (bind m (fun _ => k))
  (at level 61, right associativity) : py_scope.
Open Scope py_scope.

(** [x in lst] and [lst.remove(x)] for objects compared by identity
    (riders define no [__eq__]). *)
Definition ref_in (x : nat) (lst : list nat) : bool := existsb (Nat.eqb x) lst.

Fixpoint list_remove (x : nat) (lst : list nat) : list nat :=
  match lst with
  | [] => []
  | y :: lst' => if Nat.eqb y x then lst' else y :: list_remove x lst'
  end.

(** Method calls on a stored driver. *)
Definition start_drive (d : DriverRef) (loc : Location) : M Z :=
  fun w => let '(self, r) := Driver.start_drive (drivers w d) loc in
           (set_driver d self w, r).

Definition end_drive (d : DriverRef) : M unit :=
  modify (fun w => set_driver d (Driver.end_drive (drivers w d)) w).

Definition start_ride (d : DriverRef) (r : RiderRef) : M Z :=
  fun w => let '(self, res) := Driver.start_ride (drivers w d) (riders w r) in
           (set_driver d self w, res).

Definition end_ride (d : DriverRef) : M unit :=
  modify (fun w => set_driver d (Driver.end_ride (drivers w d)) w).

Definition set_status (r : RiderRef) (s : Status) : M unit :=
  modify (fun w => set_rider r (Rider.set_status (riders w r) s) w).

(** ** dispatcher.py *)

Module Dispatcher.

(** The initial value of [curr_min] in [request_driver]. *)
Definition initial_min : Z := 10000000000.

(** The [for driver in self._driver_list] loop of [request_driver], over
    the drivers still to be visited; it reads the store only. *)
Fixpoint scan (w : World) (origin : Location) (pool : list DriverRef)
         (curr_min : Z) (curr_driver : option DriverRef)
  : result (Z * option DriverRef) :=
  match pool with
  | [] => Ok (curr_min, curr_driver)
  | driver :: pool' =>
      if Driver.is_idle (drivers w driver) then
        match Driver.get_travel_time (drivers w driver) origin with
        | Raise e => Raise e
        | Ok driver_time =>
            if curr_min >? driver_time
            then scan w origin pool' driver_time (Some driver)
            else scan w origin pool' curr_min curr_driver
        end
      else scan w origin pool' curr_min curr_driver
  end.

(** [Dispatcher.request_driver] *)
Definition request_driver (rider : RiderRef) : M (option DriverRef) :=
  found <- (fun w => (w, scan w (Rider.origin (riders w rider))
                              (_driver_list w) initial_min None)) ;;
  match snd found with
  | Some curr_driver =>
      in_list <- read (fun w => ref_in rider (_rider_list w)) ;;
      (if in_list : bool
       then modify (fun w => set_rider_list (list_remove rider (_rider_list w)) w)
       else ret tt) ;;;
      ret (Some curr_driver)
  | None =>
      modify (fun w => set_rider_list (_rider_list w ++ [rider]) w) ;;;
      ret None
  end.

(** [driver in self._driver_list]: each element is compared by identity
    first, then with [Driver.__eq__]. *)
Fixpoint driver_in (w : World) (driver : DriverRef) (lst : list DriverRef)
  : result bool :=
  match lst with
  | [] => Ok false
  | e :: lst' =>
      if Nat.eqb e driver then Ok true
      else match Driver.eq (drivers w e) (drivers w driver) with
           | Raise ex => Raise ex
           | Ok true => Ok true
           | Ok false => driver_in w driver lst'
           end
  end.

(** [Dispatcher.request_rider] *)
Definition request_rider (driver : DriverRef) : M (option RiderRef) :=
  registered <- (fun w => (w, driver_in w driver (_driver_list w))) ;;
  (if registered : bool then ret tt
   else modify (fun w => set_driver_list (_driver_list w ++ [driver]) w)) ;;;
  waiting <- read _rider_list ;;
  match waiting with
  | [] => ret None
  | rider :: waiting' =>
      modify (set_rider_list waiting') ;;;
      origin <- read (fun w => Rider.origin (riders w rider)) ;;
      start_drive driver origin ;;;
      ret (Some rider)
  end.

(** [Dispatcher.cancel_ride] *)
Definition cancel_ride (rider : RiderRef) : M unit :=
  in_list <- read (fun w => ref_in rider (_rider_list w)) ;;
  (if in_list : bool
   then modify (fun w => set_rider_list (list_remove rider (_rider_list w)) w)
   else ret tt) ;;;
  set_status rider CANCELLED.

End Dispatcher.

(** ** event.py *)

Inductive Event : Type :=
| RiderRequest (timestamp : Z) (rider : RiderRef)
| DriverRequest (timestamp : Z) (driver : DriverRef)
| Cancellation (timestamp : Z) (rider : RiderRef)
| Pickup (timestamp : Z) (driver : DriverRef) (rider : RiderRef)
| Dropoff (timestamp : Z) (driver : DriverRef) (rider : RiderRef).

Definition timestamp (e : Event) : Z :=
  match e with
  | RiderRequest t _ | DriverRequest t _ | Cancellation t _
  | Pickup t _ _ | Dropoff t _ _ => t
  end.

(** [Event.__lt__] *)
Definition Event_lt (self other : Event) : bool :=
  timestamp self <? timestamp other.

(** [RiderRequest.do] *)
Definition RiderRequest_do (t : Z) (rider : RiderRef) : M (list Event) :=
  modify (fun w => notify (mkActivity t RIDER REQUEST
                             (Rider.identifier (riders w rider))
                             (Some (Rider.origin (riders w rider)))) w) ;;;
  driver <- Dispatcher.request_driver rider ;;
  events <- match driver with
            | Some driver =>
                origin <- read (fun w => Rider.origin (riders w rider)) ;;
                travel_time <- start_drive driver origin ;;
                ret [Pickup (t + travel_time) driver rider]
            | None => ret []
            end ;;
  patience <- read (fun w => Rider.patience (riders w rider)) ;;
  ret (events ++ [Cancellation (t + patience) rider]).

(** [DriverRequest.do] *)
Definition DriverRequest_do (t : Z) (driver : DriverRef) : M (list Event) :=
  modify (fun w => notify (mkActivity t DRIVER REQUEST
                             (Driver.id (drivers w driver))
                             (Driver.location (drivers w driver))) w) ;;;
  rider <- Dispatcher.request_rider driver ;;
  match rider with
  | Some rider =>
      origin <- read (fun w => Rider.origin (riders w rider)) ;;
      travel_time <- start_drive driver origin ;;
      ret [Pickup (t + travel_time) driver rider]
  | None => ret []
  end.

(** [Cancellation.do] *)
Definition Cancellation_do (t : Z) (rider : RiderRef) : M (list Event) :=
  status <- read (fun w => Rider.status (riders w rider)) ;;
  (if negb (Status_eqb status SATISFIED) then
     modify (fun w => notify (mkActivity t RIDER CANCEL
                                (Rider.identifier (riders w rider))
                                (Some (Rider.origin (riders w rider)))) w) ;;;
     set_status rider CANCELLED ;;;
     Dispatcher.cancel_ride rider
   else ret tt) ;;;
  ret [].

(** [Pickup.do] *)
Definition Pickup_do (t : Z) (driver : DriverRef) (rider : RiderRef)
  : M (list Event) :=
  end_drive driver ;;;
  modify (fun w => notify (mkActivity t DRIVER PICKUP
                             (Driver.id (drivers w driver))
                             (Driver.location (drivers w driver))) w) ;;;
  status <- read (fun w => Rider.status (riders w rider)) ;;
  if Status_eqb status WAITING then
    travel_time <- start_ride driver rider ;;
    modify (fun w => notify (mkActivity t RIDER PICKUP
                               (Rider.identifier (riders w rider))
                               (Some (Rider.origin (riders w rider)))) w) ;;;
    set_status rider SATISFIED ;;;
    ret [Dropoff (t + travel_time) driver rider]
  else if Status_eqb status CANCELLED then
    ret [DriverRequest t driver]
  else ret [].

(** [Dropoff.do] *)
Definition Dropoff_do (t : Z) (driver : DriverRef) (rider : RiderRef)
  : M (list Event) :=
  end_ride driver ;;;
  modify (fun w => notify (mkActivity t DRIVER DROPOFF
                             (Driver.id (drivers w driver))
                             (Driver.location (drivers w driver))) w) ;;;
  modify (fun w => notify (mkActivity t RIDER DROPOFF
                             (Rider.identifier (riders w rider))
                             (Some (Rider.destination (riders w rider)))) w) ;;;
  ret [DriverRequest t driver].

(** [event.do(dispatcher, monitor)], dispatched on the event's class. *)
Definition do (e : Event) : M (list Event) :=
  match e with
  | RiderRequest t rider => RiderRequest_do t rider
  | DriverRequest t driver => DriverRequest_do t driver
  | Cancellation t rider => Cancellation_do t rider
  | Pickup t driver rider => Pickup_do t driver rider
  | Dropoff t driver rider => Dropoff_do t driver rider
  end.

(** The event step relation: executing one event against the store. *)
Definition step (w : World) (e : Event) (w' : World) : Prop :=
  fst (do e w) = w'.

(** Any number of steps, each executing some event. *)
Inductive steps : World -> World -> Prop :=
| steps_refl w : steps w w
| steps_cons w e w' w'' : step w e w' -> steps w' w'' -> steps w w''.

(** ** Predicates on the store *)

(** The rider behind [r] has been picked up. *)
Definition satisfied (r : RiderRef) (w : World) : Prop :=
  Rider.status (riders w r) = SATISFIED.

(** A computation that never takes a rider out of SATISFIED. *)
Definition keeps_satisfied {A} (r : RiderRef) (m : M A) : Prop :=
  forall w, satisfied r w -> satisfied r (fst (m w)).

(** A computation that writes to no rider. *)
Definition rider_frame {A} (m : M A) : Prop :=
  forall w, riders (fst (m w)) = riders w.

(** ** Sample data *)

(** Items carrying a priority and a label; [<] compares priorities only. *)
Definition by_priority (a b : Z * string) : bool := fst a <? fst b.

(** Priorities [2,1,1,3,2], labelled in the order they are added. *)
Definition sample_items : list (Z * string) :=
  [(2, "a"%string); (1, "b"%string); (1, "c"%string); (3, "d"%string);
   (2, "e"%string)].

(** Python floats as queue items: numbers and NaN; [a < b] is false
    whenever one side is NaN. *)
Inductive number : Type := Num (z : Z) | NaN.

Definition number_lt (a b : number) : bool :=
  match a, b with
  | Num x, Num y => x <? y
  | _, _ => false
  end.

(** Three requests: two at time 1, then one at time 0. *)
Definition sample_events : list Event :=
  [RiderRequest 1 0%nat; DriverRequest 1 1%nat; DriverRequest 0 2%nat].

(** A store in which every reference holds a default rider or driver,
    with an empty dispatcher and an empty monitor log. *)
Definition sample_rider : Rider.t :=
  Rider.init "R1" 100 (mkLocation 1 1) (mkLocation 4 4).

Definition sample_driver : Driver.t :=
  Driver.init "D1" (mkLocation 1 1) 1.

Definition sample_world : World :=
  mkWorld (fun _ => sample_rider) (fun _ => sample_driver) [] [] [].

(** Rider 0 is already waiting and no driver is registered. *)
Definition waiting_world : World := set_rider_list [0%nat] sample_world.

(** One registered driver, idle at (0,0) with speed 1; rider 0 asks to be
    picked up ten thousand million blocks away. *)
Definition far_world : World :=
  set_driver_list [0%nat]
    (set_driver 0%nat (Driver.init "D1" (mkLocation 0 0) 1)
       (set_rider 0%nat (Rider.init "R1" 100 (mkLocation 0 10000000000)
                                (mkLocation 4 4))
          sample_world)).

(** ** Further model: printing and comparing *)

(** [str(n)] for an integer: decimal digits, a leading [-] when negative. *)
Definition py_str (n : Z) : string := NilZero.string_of_int (Z.to_int n).

(** [Location.__str__] *)
Definition Location_str (self : Location) : string :=
  (py_str (row self) ++ "," ++ py_str (col self))%string.

(** Whether the character occurs in the string. *)
Fixpoint has_char (c : ascii) (s : string) : bool :=
  match s with
  | EmptyString => false
  | String c' s' => Ascii.eqb c' c || has_char c s'
  end.

(** [Event.__eq__], [__ne__], [__le__], [__gt__] and [__ge__]
    ([Event.__lt__] is [Event_lt]). *)
Definition Event_eq (self other : Event) : bool :=
  timestamp self =? timestamp other.

Definition Event_ne (self other : Event) : bool := negb (Event_eq self other).

Definition Event_le (self other : Event) : bool :=
  timestamp self <=? timestamp other.

Definition Event_gt (self other : Event) : bool := negb (Event_le self other).

Definition Event_ge (self other : Event) : bool := negb (Event_lt self other).

(** ** Further predicates on the store *)

(** A computation that keeps a property of the store, whether it returns
    or raises. *)
Definition preserves {A} (P : World -> Prop) (m : M A) : Prop :=
  forall w, P w -> P (fst (m w)).

(** Every driver of the list has a location. *)
Definition located (w : World) (lst : list DriverRef) : Prop :=
  forall e, In e lst -> Driver.location (drivers w e) <> None.

(** The two drivers agree on what [Driver.__eq__] compares. *)
Definition same_driver (a b : Driver.t) : Prop :=
  Driver.id a = Driver.id b
  /\ Driver.location a = Driver.location b
  /\ Driver.speed a = Driver.speed b.

(** The list holds the driver itself or a driver equal to it. *)
Definition registered (w : World) (driver : DriverRef) (lst : list DriverRef)
  : Prop :=
  exists e, In e lst
            /\ (e = driver \/ same_driver (drivers w e) (drivers w driver)).

(** Every stored driver has a destination exactly while it is busy. *)
Definition drivers_consistent (w : World) : Prop :=
  forall d, Driver.invariant (drivers w d).

(** What no operation may change: the id and speed of a driver, and
    everything about a rider but the status. *)
Definition same_identities (w0 w : World) : Prop :=
  (forall d, Driver.id (drivers w d) = Driver.id (drivers w0 d)
             /\ Driver.speed (drivers w d) = Driver.speed (drivers w0 d))
  /\ (forall r, Rider.identifier (riders w r) = Rider.identifier (riders w0 r)
                /\ Rider.patience (riders w r) = Rider.patience (riders w0 r)
                /\ Rider.origin (riders w r) = Rider.origin (riders w0 r)
                /\ Rider.destination (riders w r) = Rider.destination (riders w0 r)).

(** The data model's ranges: no rider has negative patience, every driver
    has positive speed. *)
Definition positive_parameters (w : World) : Prop :=
  (forall r, 0 <= Rider.patience (riders w r))
  /\ (forall d, 0 < Driver.speed (drivers w d)).

(** ** Further model: reading the event file (event.py, [create_event_list])

    The file is given as its lines.  The objects created while reading
    are kept with the id caches [drivers] and [riders], in the order of
    creation; a reference to an object is its position there. *)

(** [s.rstrip()] and [s.strip()] *)
Fixpoint rstrip (s : string) : string :=
  match s with
  | EmptyString => EmptyString
  | String c s' =>
      match rstrip s' with
      | EmptyString => if is_space c then EmptyString else String c EmptyString
      | rest => String c rest
      end
  end.

Definition strip (s : string) : string := rstrip (lstrip s).

(** [s.split()]: the maximal runs of characters that are not white space. *)
Fixpoint words (s : string) : list string :=
  match s with
  | EmptyString => []
  | String c s' =>
      if is_space c then words s'
      else match s' with
           | EmptyString => [String c EmptyString]
           | String c' _ =>
               if is_space c' then String c EmptyString :: words s'
               else match words s' with
                    | w :: ws => String c w :: ws
                    | [] => [String c EmptyString]
                    end
           end
  end.

(** [line.startswith("#")] *)
Definition starts_with_hash (line : string) : bool :=
  match line with
  | String c _ => Ascii.eqb c "#"%char
  | EmptyString => false
  end.

(** [not line or line.startswith("#")], on the stripped line. *)
Definition skipped (line : string) : bool :=
  String.eqb (strip line) "" || starts_with_hash (strip line).

(** [key in d] and [d[key]] for a dict kept in insertion order: the
    position of the key, if any. *)
Fixpoint dict_index {V} (key : string) (d : list (string * V)) : option nat :=
  match d with
  | [] => None
  | (k, _) :: d' =>
      if String.eqb k key then Some O else option_map S (dict_index key d')
  end.

Definition rbind {A B} (r : result A) (k : A -> result B) : result B :=
  match r with
  | Ok a => k a
  | Raise e => Raise e
  end.

Declare Scope result_scope.
Delimit Scope result_scope with result.
Notation "x <- m ;; k" := (rbind m (fun x => k))
  (at level 61, m at next level, right associativity) : result_scope.

(** The local variables [events], [drivers] and [riders]. *)
Record EventFile : Type := mkEventFile
  { ef_events : list (option Event);
    ef_drivers : list (string * Driver.t);
    ef_riders : list (string * Rider.t) }.

(** [events.append(event)] *)
Definition append_event (st : EventFile) (event : option Event) : EventFile :=
  mkEventFile (ef_events st ++ [event]) (ef_drivers st) (ef_riders st).

(** The body of the [for line in file] loop. *)
Definition parse_line (st : EventFile) (line : string) : result EventFile :=
  let line := strip line in
  if String.eqb line "" || starts_with_hash line then Ok st
  else
    let tokens := words line in
    (token0 <- subscript tokens 0 ;;
     timestamp <- py_int token0 ;;
     event_type <- subscript tokens 1 ;;
     if String.eqb event_type "DriverRequest" then
       id <- subscript tokens 2 ;;
       match dict_index id (ef_drivers st) with
       | Some driver => Ok (append_event st (Some (DriverRequest timestamp driver)))
       | None =>
           token3 <- subscript tokens 3 ;;
           location <- deserialize_location token3 ;;
           token4 <- subscript tokens 4 ;;
           speed <- py_int token4 ;;
           Ok (mkEventFile
                 (ef_events st
                  ++ [Some (DriverRequest timestamp (List.length (ef_drivers st)))])
                 (ef_drivers st ++ [(id, Driver.init id location speed)])
                 (ef_riders st))
       end
     else if String.eqb event_type "RiderRequest" then
       id <- subscript tokens 2 ;;
       match dict_index id (ef_riders st) with
       | Some rider => Ok (append_event st (Some (RiderRequest timestamp rider)))
       | None =>
           token5 <- subscript tokens 5 ;;
           patience <- py_int token5 ;;
           token3 <- subscript tokens 3 ;;
           origin <- deserialize_location token3 ;;
           token4 <- subscript tokens 4 ;;
           destination <- deserialize_location token4 ;;
           Ok (mkEventFile
                 (ef_events st
                  ++ [Some (RiderRequest timestamp (List.length (ef_riders st)))])
                 (ef_drivers st)
                 (ef_riders st ++ [(id, Rider.init id patience origin destination)]))
       end
     else Ok (append_event st None))%result
  .

Fixpoint parse_lines (st : EventFile) (lines : list string) : result EventFile :=
  match lines with
  | [] => Ok st
  | line :: lines' => (st' <- parse_line st line ;; parse_lines st' lines')%result
  end.

(** [create_event_list], on the lines of the file: the events (None for
    a record of unknown kind) and the objects created for them. *)
Definition create_event_list (lines : list string) : result EventFile :=
  parse_lines (mkEventFile [] [] []) lines.

(** A small event file. *)
Definition sample_file : list string :=
  ["# a comment
"; "
"; "0 DriverRequest Bob 1,1 1
"; "  10 RiderRequest Cerise 4,2 1,5 15
"; "12 DriverRequest Bob
"]%string.

(** The event a record stands for: its kind is the second field, its
    timestamp the first. *)
Definition event_of_record (line : string) (event : option Event) : Prop :=
  exists token0 kind rest t,
    words (strip line) = token0 :: kind :: rest
    /\ py_int token0 = Ok t
    /\ match event with
       | Some (DriverRequest t' _) => kind = "DriverRequest"%string /\ t' = t
       | Some (RiderRequest t' _) => kind = "RiderRequest"%string /\ t' = t
       | Some _ => False
       | None => kind <> "DriverRequest"%string /\ kind <> "RiderRequest"%string
       end.

(** The lines that are records: neither blank nor comments. *)
Definition records (lines : list string) : list string :=
  filter (fun line => negb (skipped line)) lines.

(** The object an event of the list refers to: the entry of the id cache
    at the event's reference.  It is keyed by the record's third field
    and carries that field as its id. *)
Definition refers_to (st : EventFile) (line : string) (event : option Event) : Prop :=
  match event with
  | Some (DriverRequest _ i) =>
      exists id d,
        subscript (words (strip line)) 2 = Ok id
        /\ nth_error (ef_drivers st) i = Some (id, d)
        /\ Driver.id d = id
  | Some (RiderRequest _ i) =>
      exists id r,
        subscript (words (strip line)) 2 = Ok id
        /\ nth_error (ef_riders st) i = Some (id, r)
        /\ Rider.identifier r = id
  | _ => True
  end.

(** The caches only grow, at the end. *)
Definition cache_extends (st0 st : EventFile) : Prop :=
  (exists ds, ef_drivers st = ef_drivers st0 ++ ds)
  /\ (exists rs, ef_riders st = ef_riders st0 ++ rs).

(** No id is cached twice. *)
Definition unique_ids (st : EventFile) : Prop :=
  NoDup (map fst (ef_drivers st)) /\ NoDup (map fst (ef_riders st)).

(** Every cached object carries its key as its id. *)
Definition keyed_by_id (st : EventFile) : Prop :=
  Forall (fun kd => Driver.id (snd kd) = fst kd) (ef_drivers st)
  /\ Forall (fun kr => Rider.identifier (snd kr) = fst kr) (ef_riders st).

(** * Verified properties *)

(** ** True division and rounding *)

Lemma nearest_even_spec n d :
  0 < d ->
  2 * Z.abs (n - d * nearest_even n d) <= d
  /\ (2 * Z.abs (n - d * nearest_even n d) = d -> Z.even (nearest_even n d) = true).
Proof.
  intros Hd. unfold nearest_even.
  pose proof (Z.div_mod n d ltac:(lia)) as E.
  pose proof (Z.mod_pos_bound n d Hd) as B.
  destruct (2 * (n mod d) ?= d) eqn:C.
  - apply Z.compare_eq in C.
    destruct (Z.even (n / d)) eqn:Ev.
    + split; [lia | intros _; exact Ev].
    + split; [lia|]. intros _.
      rewrite Z.add_1_r, Z.even_succ, <- Z.negb_even, Ev. reflexivity.
  - rewrite Z.compare_lt_iff in C. split; lia.
  - rewrite Z.compare_gt_iff in C. split; lia.
Qed.

Lemma nearest_even_le n d c : 0 < d -> n <= d * c -> nearest_even n d <= c.
Proof.
  intros Hd H. destruct (nearest_even_spec n Hd) as [S _].
  assert (d * nearest_even n d < d * (c + 1)) by lia.
  assert (nearest_even n d < c + 1) by (apply (Z.mul_lt_mono_pos_l d); lia).
  lia.
Qed.

Lemma nearest_even_ge n d c : 0 < d -> d * c <= n -> c <= nearest_even n d.
Proof.
  intros Hd H. destruct (nearest_even_spec n Hd) as [S _].
  assert (d * (c - 1) < d * nearest_even n d) by lia.
  assert (c - 1 < nearest_even n d) by (apply (Z.mul_lt_mono_pos_l d); lia).
  lia.
Qed.

Lemma nearest_even_exact d c : 0 < d -> nearest_even (d * c) d = c.
Proof.
  intros Hd. apply Z.le_antisymm.
  - apply nearest_even_le; lia.
  - apply nearest_even_ge; lia.
Qed.

Lemma nearest_even_opp n d : 0 < d -> nearest_even (- n) d = - nearest_even n d.
Proof.
  intros Hd.
  destruct (nearest_even_spec n Hd) as [S1 T1].
  destruct (nearest_even_spec (- n) Hd) as [S2 T2].
  set (t1 := nearest_even n d) in *. set (t2 := nearest_even (- n) d) in *.
  assert (B : -1 <= t1 + t2 <= 1).
  { assert (d * (t1 + t2) < d * 2) by lia.
    assert (d * (-2) < d * (t1 + t2)) by lia.
    assert (t1 + t2 < 2) by (apply (Z.mul_lt_mono_pos_l d); lia).
    assert (-2 < t1 + t2) by (apply (Z.mul_lt_mono_pos_l d); lia).
    lia. }
  assert (Hsum : t1 + t2 = 0 \/ t1 + t2 = 1 \/ t1 + t2 = -1) by lia.
  destruct Hsum as [H | [H | H]]; [lia | |].
  - assert (E1 : Z.even t1 = true) by (apply T1; lia).
    assert (E2 : Z.even t2 = true) by (apply T2; lia).
    apply Z.even_spec in E1 as [x1 X1]. apply Z.even_spec in E2 as [x2 X2]. lia.
  - assert (E1 : Z.even t1 = true) by (apply T1; lia).
    assert (E2 : Z.even t2 = true) by (apply T2; lia).
    apply Z.even_spec in E1 as [x1 X1]. apply Z.even_spec in E2 as [x2 X2]. lia.
Qed.

Lemma pow2_pos s : 0 < 2 ^ Z.max 0 s.
Proof. apply Z.pow_pos_nonneg; lia. Qed.

Lemma scaled_pos x s : 0 < x -> 0 < scaled x s.
Proof. intros H. unfold scaled. pose proof (pow2_pos s). nia. Qed.

Lemma scaled_nonneg_exp x s : 0 <= s -> scaled x s = x * 2 ^ s.
Proof. intros H. unfold scaled. now rewrite Z.max_r. Qed.

Lemma scaled_neg_exp x s : s <= 0 -> scaled x s = x.
Proof. intros H. unfold scaled. rewrite Z.max_l by lia. simpl. lia. Qed.

(** [2 ^ k <= n / d < 2 ^ (k + 1)] for the exponent [k] of the quotient. *)
Lemma quotient_exponent_spec n d :
  0 < n -> 0 < d ->
  let k := quotient_exponent n d in
  scaled d k <= scaled n (- k) < 2 * scaled d k.
Proof.
  intros Hn Hd. unfold quotient_exponent.
  destruct (Z.log2_spec n Hn) as [Ln Un]. destruct (Z.log2_spec d Hd) as [Ld Ud].
  pose proof (Z.log2_nonneg n) as Nn. pose proof (Z.log2_nonneg d) as Nd.
  set (ln := Z.log2 n) in *. set (ld := Z.log2 d) in *.
  rewrite <- !Z.add_1_r in *.
  rewrite Z.pow_add_r in Un, Ud by lia. change (2 ^ 1) with 2 in *.
  destruct (Z_le_gt_dec ld ln) as [Hk | Hk].
  - (* the first guess is not negative *)
    assert (Es : 2 ^ ln = 2 ^ ld * 2 ^ (ln - ld)).
    { rewrite <- Z.pow_add_r by lia. f_equal; lia. }
    assert (Pk : 0 < 2 ^ (ln - ld)) by (apply Z.pow_pos_nonneg; lia).
    assert (Pd : 0 < 2 ^ ld) by (apply Z.pow_pos_nonneg; lia).
    rewrite (@scaled_neg_exp n (- (ln - ld))) by lia.
    rewrite (@scaled_nonneg_exp d (ln - ld)) by lia.
    destruct (n <? d * 2 ^ (ln - ld)) eqn:T; cbv zeta.
    + apply Z.ltb_lt in T.
      destruct (Z.eq_dec ln ld) as [E | NE].
      * replace (ln - ld - 1) with (-1) by lia. replace (ln - ld) with 0 in * by lia.
        rewrite (@scaled_neg_exp d (-1)) by lia.
        rewrite (@scaled_nonneg_exp n (- -1)) by lia.
        change (- -1) with 1. change (2 ^ 1) with 2. change (2 ^ 0) with 1 in *.
        rewrite E in *. nia.
      * assert (Ep : 2 ^ (ln - ld) = 2 * 2 ^ (ln - ld - 1)).
        { replace (ln - ld) with (1 + (ln - ld - 1)) at 1 by lia.
          rewrite Z.pow_add_r by lia. reflexivity. }
        assert (0 < 2 ^ (ln - ld - 1)) by (apply Z.pow_pos_nonneg; lia).
        rewrite (@scaled_nonneg_exp d (ln - ld - 1)) by lia.
        rewrite (@scaled_neg_exp n (- (ln - ld - 1))) by lia.
        nia.
    + apply Z.ltb_ge in T.
      rewrite (@scaled_nonneg_exp d (ln - ld)) by lia.
      rewrite (@scaled_neg_exp n (- (ln - ld))) by lia. nia.
  - (* the first guess is negative *)
    assert (Es : 2 ^ ld = 2 ^ ln * 2 ^ (ld - ln)).
    { rewrite <- Z.pow_add_r by lia. f_equal; lia. }
    assert (Pk : 0 < 2 ^ (ld - ln)) by (apply Z.pow_pos_nonneg; lia).
    assert (Pn : 0 < 2 ^ ln) by (apply Z.pow_pos_nonneg; lia).
    rewrite (@scaled_nonneg_exp n (- (ln - ld))) by lia.
    rewrite (@scaled_neg_exp d (ln - ld)) by lia.
    replace (- (ln - ld)) with (ld - ln) by lia.
    destruct (n * 2 ^ (ld - ln) <? d) eqn:T; cbv zeta.
    + apply Z.ltb_lt in T.
      rewrite (@scaled_neg_exp d (ln - ld - 1)) by lia.
      rewrite (@scaled_nonneg_exp n (- (ln - ld - 1))) by lia.
      replace (- (ln - ld - 1)) with (ld - ln + 1) by lia.
      rewrite Z.pow_add_r by lia. change (2 ^ 1) with 2. nia.
    + apply Z.ltb_ge in T.
      rewrite (@scaled_neg_exp d (ln - ld)) by lia.
      rewrite (@scaled_nonneg_exp n (- (ln - ld))) by lia.
      replace (- (ln - ld)) with (ld - ln) by lia. nia.
Qed.

Lemma true_divide_unfold a b :
  b <> 0 -> a <> 0 ->
  true_divide a b
  = let e := Z.max (quotient_exponent (Z.abs a) (Z.abs b) - 52) (-1074) in
    let m := nearest_even (scaled (Z.abs a) (- e)) (scaled (Z.abs b) e) in
    if scaled (2 ^ 1024) (- e) <=? scaled m e then Raise OverflowError
    else Ok (mkFloat (Z.sgn a * Z.sgn b * m) e).
Proof.
  intros Hb Ha. unfold true_divide.
  apply Z.eqb_neq in Hb, Ha. now rewrite Hb, Ha.
Qed.

(** The significand has at most 53 bits (2 ^ 53 itself when rounding
    carries). *)
Lemma significand_bounds n d :
  0 < n -> 0 < d ->
  let e := Z.max (quotient_exponent n d - 52) (-1074) in
  0 <= nearest_even (scaled n (- e)) (scaled d e) <= 2 ^ 53.
Proof.
  intros Hn Hd e.
  pose proof (quotient_exponent_spec Hn Hd) as K. cbv zeta in K.
  set (k := quotient_exponent n d) in *.
  assert (PD : 0 < scaled d e) by now apply scaled_pos.
  assert (PN : 0 < scaled n (- e)) by now apply scaled_pos.
  split.
  - apply nearest_even_ge; lia.
  - apply nearest_even_le; [exact PD|].
    destruct (Z_le_gt_dec 0 e) as [He | He].
    + (* e = k - 52 >= 0 *)
      assert (Ek : k = 52 + e) by lia.
      rewrite (@scaled_neg_exp n (- e)) by lia.
      rewrite (@scaled_nonneg_exp d e) by lia.
      rewrite (@scaled_nonneg_exp d k), (@scaled_neg_exp n (- k)) in K by lia.
      rewrite Ek, Z.pow_add_r in K by lia.
      change (2 ^ 53) with (2 * 2 ^ 52). lia.
    + rewrite (@scaled_nonneg_exp n (- e)) by lia.
      rewrite (@scaled_neg_exp d e) by lia.
      assert (P : 0 < 2 ^ (- e)) by (apply Z.pow_pos_nonneg; lia).
      destruct (Z_le_gt_dec 0 k) as [Hk | Hk].
      * assert (Ee : - e = 52 - k) by lia.
        rewrite (@scaled_nonneg_exp d k), (@scaled_neg_exp n (- k)) in K by lia.
        assert (Pk : 0 < 2 ^ k) by (apply Z.pow_pos_nonneg; lia).
        assert (E52 : 2 ^ 52 = 2 ^ k * 2 ^ (- e)).
        { rewrite <- Z.pow_add_r by lia. f_equal; lia. }
        change (2 ^ 53) with (2 * 2 ^ 52). rewrite E52.
        assert (n * 2 ^ (- e) < 2 * (d * 2 ^ k) * 2 ^ (- e)).
        { apply Z.mul_lt_mono_pos_r; lia. }
        lia.
      * rewrite (@scaled_neg_exp d k), (@scaled_nonneg_exp n (- k)) in K by lia.
        assert (Le : 2 ^ (- e) <= 2 ^ (52 - k)) by (apply Z.pow_le_mono_r; lia).
        assert (E52 : 2 ^ (52 - k) = 2 ^ 52 * 2 ^ (- k)).
        { rewrite <- Z.pow_add_r by lia. f_equal; lia. }
        assert (Pk : 0 < 2 ^ (- k)) by (apply Z.pow_pos_nonneg; lia).
        assert (n * 2 ^ (- e) <= n * (2 ^ 52 * 2 ^ (- k))) by nia.
        change (2 ^ 53) with (2 * 2 ^ 52).
        assert (n * 2 ^ (- k) * 2 ^ 52 < 2 * d * 2 ^ 52) by lia.
        lia.
Qed.

(** No overflow for quotients below [2 ^ 1023]. *)
Lemma true_divide_in_range a b :
  Z.abs a < 2 ^ 1023 * Z.abs b ->
  exists x, true_divide a b = Ok x.
Proof.
  intros H.
  assert (Hb : b <> 0) by lia.
  destruct (Z.eq_dec a 0) as [-> | Ha].
  { unfold true_divide. apply Z.eqb_neq in Hb. rewrite Hb. simpl. now eexists. }
  rewrite true_divide_unfold by assumption. cbv zeta.
  assert (Hn : 0 < Z.abs a) by lia. assert (Hd : 0 < Z.abs b) by lia.
  pose proof (significand_bounds Hn Hd) as M. cbv zeta in M.
  pose proof (quotient_exponent_spec Hn Hd) as K. cbv zeta in K.
  set (n := Z.abs a) in *. set (d := Z.abs b) in *.
  set (k := quotient_exponent n d) in *.
  set (e := Z.max (k - 52) (-1074)) in *.
  set (m := nearest_even (scaled n (- e)) (scaled d e)) in *.
  destruct (scaled (2 ^ 1024) (- e) <=? scaled m e) eqn:T; [|now eexists].
  exfalso. apply Z.leb_le in T.
  assert (B53 : 2 ^ 53 < 2 ^ 1024) by (apply Z.pow_lt_mono_r; lia).
  assert (P1024 : 0 < 2 ^ 1024) by (apply Z.pow_pos_nonneg; lia).
  destruct (Z_le_gt_dec e 0) as [He | He].
  - rewrite (@scaled_neg_exp m e) in T by lia.
    unfold scaled in T. pose proof (pow2_pos (- e)). nia.
  - assert (Ek : k = 52 + e) by lia.
    rewrite (@scaled_nonneg_exp m e), (@scaled_neg_exp (2 ^ 1024) (- e)) in T by lia.
    rewrite (@scaled_nonneg_exp d k), (@scaled_neg_exp n (- k)) in K by lia.
    assert (Pk : 0 < 2 ^ k) by (apply Z.pow_pos_nonneg; lia).
    assert (Pe : 0 < 2 ^ e) by (apply Z.pow_pos_nonneg; lia).
    assert (Hk : k < 1023).
    { apply (Z.pow_lt_mono_r_iff 2); [lia | lia |]. nia. }
    assert (2 ^ 53 * 2 ^ e < 2 ^ 1024).
    { rewrite <- Z.pow_add_r by lia. apply Z.pow_lt_mono_r; lia. }
    nia.
Qed.

Lemma py_round_opp m e :
  py_round (mkFloat (- m) e) = - py_round (mkFloat m e).
Proof.
  unfold py_round. cbn [significand exponent]. unfold scaled.
  rewrite Z.mul_opp_l. apply nearest_even_opp.
  pose proof (pow2_pos (- e)). lia.
Qed.

Lemma round_div_zero b : b <> 0 -> round_div 0 b = Ok 0.
Proof.
  intros Hb. unfold round_div, true_divide.
  apply Z.eqb_neq in Hb. rewrite Hb. reflexivity.
Qed.

Lemma round_div_raises a b e :
  round_div a b = Raise e -> e = ZeroDivisionError \/ e = OverflowError.
Proof.
  unfold round_div, true_divide.
  destruct (b =? 0); [intros [= <-]; now left|].
  destruct (a =? 0); [discriminate|]. cbv zeta.
  destruct (_ <=? _); [intros [= <-]; now right | discriminate].
Qed.

Lemma round_div_by_zero a : round_div a 0 = Raise ZeroDivisionError.
Proof. reflexivity. Qed.

Lemma round_div_in_range a b :
  in_float_range a b -> exists t, round_div a b = Ok t.
Proof.
  intros H. destruct (true_divide_in_range a b H) as [x E].
  unfold round_div. rewrite E. now eexists.
Qed.

Lemma round_div_nonneg a b t :
  0 <= a -> 0 < b -> round_div a b = Ok t -> 0 <= t.
Proof.
  intros Ha Hb. destruct (Z.eq_dec a 0) as [-> | Hne].
  { rewrite round_div_zero by lia. intros [= <-]. lia. }
  unfold round_div. rewrite true_divide_unfold by lia. cbv zeta.
  destruct (_ <=? _); [discriminate|]. intros [= <-].
  assert (Hn : 0 < Z.abs a) by lia. assert (Hd : 0 < Z.abs b) by lia.
  pose proof (significand_bounds Hn Hd) as [M _].
  rewrite (Z.sgn_pos a), (Z.sgn_pos b) by lia.
  unfold py_round. cbn [significand exponent]. rewrite !Z.mul_1_l.
  apply nearest_even_ge.
  - apply scaled_pos. lia.
  - rewrite Z.mul_0_r. unfold scaled at 1. apply Z.mul_nonneg_nonneg; [exact M|].
    apply Z.lt_le_incl, pow2_pos.
Qed.

(** Below [2 ^ 52] the rounding of the quotient to a double does not
    show: the result is the integer nearest to the exact quotient, the
    even one at a tie. *)
Lemma round_div_magnitudes n d :
  0 < n < 2 ^ 52 -> 0 < d ->
  let e := Z.max (quotient_exponent n d - 52) (-1074) in
  let m := nearest_even (scaled n (- e)) (scaled d e) in
  let t := py_round (mkFloat m e) in
  2 * Z.abs (n - d * t) <= d
  /\ (2 * Z.abs (n - d * t) = d -> Z.even t = true).
Proof.
  intros [Hn Hsmall] Hd e m t.
  pose proof (quotient_exponent_spec Hn Hd) as K. cbv zeta in K.
  pose proof (significand_bounds Hn Hd) as [M0 _]. fold e in M0. fold m in M0.
  set (k := quotient_exponent n d) in *.
  assert (Hk : k <= 51).
  { destruct (Z_le_gt_dec k 51) as [|Hk]; [assumption|exfalso].
    rewrite (@scaled_nonneg_exp d k), (@scaled_neg_exp n (- k)) in K by lia.
    assert (2 ^ 52 <= 2 ^ k) by (apply Z.pow_le_mono_r; lia). nia. }
  assert (He : e <= -1) by lia.
  set (E' := 2 ^ (- e - 1)).
  assert (PE' : 0 < E') by (apply Z.pow_pos_nonneg; lia).
  assert (EE : 2 ^ (- e) = 2 * E').
  { unfold E'. replace (- e) with (1 + (- e - 1)) at 1 by lia.
    rewrite Z.pow_add_r by lia. reflexivity. }
  assert (Em : m = nearest_even (n * (2 * E')) d).
  { unfold m. rewrite (@scaled_nonneg_exp n (- e)), (@scaled_neg_exp d e) by lia.
    now rewrite EE. }
  assert (Et : t = nearest_even m (2 * E')).
  { unfold t, py_round. cbn [significand exponent].
    rewrite (@scaled_neg_exp m e), (@scaled_nonneg_exp 1 (- e)) by lia.
    rewrite EE. f_equal. lia. }
  destruct (nearest_even_spec (n * (2 * E')) Hd) as [S1 _]. rewrite <- Em in S1.
  destruct (nearest_even_spec m (d := 2 * E') ltac:(lia)) as [S2 T2].
  rewrite <- Et in S2, T2.
  assert (Ht0 : 0 <= t).
  { rewrite Et. apply nearest_even_ge; lia. }
  destruct (Z_lt_ge_dec (2 * n) d) as [Hq | Hq].
  - (* the quotient is below one half: the result is 0 *)
    assert (Hm : m <= E').
    { rewrite Em. apply nearest_even_le; [assumption | nia]. }
    assert (t = 0).
    { destruct (Z.eq_dec t 0) as [|Hne]; [assumption|exfalso].
      assert (Ht1 : 1 <= t) by lia.
      assert (Htie : 2 * Z.abs (m - 2 * E' * t) = 2 * E') by nia.
      apply T2, Z.even_spec in Htie as [x X]. nia. }
    subst t. rewrite H, Z.mul_0_r, Z.sub_0_r. split; [lia|]. lia.
  - (* normal range: one unit of the significand is below 1 / d *)
    assert (Hk1 : -1 <= k).
    { destruct (Z_le_gt_dec (-1) k) as [|Hk1]; [assumption|exfalso].
      rewrite (@scaled_neg_exp d k), (@scaled_nonneg_exp n (- k)) in K by lia.
      assert (2 ^ 2 <= 2 ^ (- k)) by (apply Z.pow_le_mono_r; lia).
      change (2 ^ 2) with 4 in *. nia. }
    assert (Ee : e = k - 52) by lia.
    assert (HdE : d < 2 * E').
    { assert (d * 2 ^ 52 <= n * (2 * E')).
      { rewrite <- EE. destruct (Z_le_gt_dec 0 k) as [Hk0 | Hk0].
        - rewrite (@scaled_nonneg_exp d k), (@scaled_neg_exp n (- k)) in K by lia.
          assert (E52 : 2 ^ 52 = 2 ^ k * 2 ^ (- e)).
          { rewrite <- Z.pow_add_r by lia. f_equal; lia. }
          rewrite E52. pose proof (pow2_pos (- e)) as P.
          rewrite Z.max_r in P by lia. nia.
        - assert (k = -1) by lia. subst k.
          replace (- e) with 53 by lia. change (2 ^ 53) with (2 * 2 ^ 52). lia. }
      assert (P52 : 0 < 2 ^ 52) by (apply Z.pow_pos_nonneg; lia).
      nia. }
    set (u := 2 * Z.abs (n - d * t)).
    assert (Hu : 2 * E' * u <= d * (2 * E') + d).
    { unfold u.
      assert (2 * E' * (2 * Z.abs (n - d * t))
              = 2 * Z.abs (n * (2 * E') - d * (2 * E') * t)) by nia.
      assert (Z.abs (n * (2 * E') - d * (2 * E') * t)
              <= Z.abs (n * (2 * E') - d * m) + d * Z.abs (m - 2 * E' * t)).
      { replace (n * (2 * E') - d * (2 * E') * t)
          with ((n * (2 * E') - d * m) + d * (m - 2 * E' * t)) by ring.
        eapply Z.le_trans; [apply Z.abs_triangle|].
        rewrite Z.abs_mul, (Z.abs_eq d) by lia. lia. }
      nia. }
    assert (Hud : u <= d) by nia.
    split; [exact Hud|].
    intros Htie. apply T2.
    assert (Hc : exists c, n * (2 * E') = d * c
                           /\ 2 * Z.abs (c - 2 * E' * t) = 2 * E').
    { destruct (Z_le_gt_dec (d * t) n).
      - exists ((2 * t + 1) * E'). split; [nia|].
        replace ((2 * t + 1) * E' - 2 * E' * t) with E' by ring. lia.
      - exists ((2 * t - 1) * E'). split; [nia|].
        replace ((2 * t - 1) * E' - 2 * E' * t) with (- E') by ring. lia. }
    destruct Hc as (c & Hc & Hc').
    assert (m = c) by (rewrite Em, Hc; now apply nearest_even_exact).
    subst c. exact Hc'.
Qed.

Lemma round_div_nearest a b :
  b <> 0 -> Z.abs a < 2 ^ 52 ->
  exists t,
    round_div a b = Ok t
    /\ 2 * Z.abs (a - b * t) <= Z.abs b
    /\ (2 * Z.abs (a - b * t) = Z.abs b -> Z.even t = true).
Proof.
  intros Hb Ha.
  destruct (Z.eq_dec a 0) as [-> | Hne].
  { exists 0. rewrite round_div_zero by assumption.
    split; [reflexivity|]. split; [lia|]. intros _. reflexivity. }
  assert (Hr : Z.abs a < 2 ^ 1023 * Z.abs b).
  { assert (2 ^ 52 < 2 ^ 1023) by (apply Z.pow_lt_mono_r; lia).
    assert (0 < 2 ^ 1023) by (apply Z.pow_pos_nonneg; lia). nia. }
  destruct (true_divide_in_range a b Hr) as [x Ex].
  unfold round_div. rewrite Ex.
  rewrite true_divide_unfold in Ex by assumption. cbv zeta in Ex.
  destruct (_ <=? _); [discriminate|]. injection Ex as <-.
  assert (Hn : 0 < Z.abs a < 2 ^ 52) by lia. assert (Hd : 0 < Z.abs b) by lia.
  destruct (round_div_magnitudes Hn Hd) as [S T].
  set (e := Z.max (quotient_exponent (Z.abs a) (Z.abs b) - 52) (-1074)) in *.
  set (m := nearest_even (scaled (Z.abs a) (- e)) (scaled (Z.abs b) e)) in *.
  set (t := py_round (mkFloat m e)) in *.
  eexists. split; [reflexivity|].
  assert (Hs : Z.sgn a * Z.sgn b = 1 /\ (0 < a /\ 0 < b \/ a < 0 /\ b < 0)
               \/ Z.sgn a * Z.sgn b = -1 /\ (0 < a /\ b < 0 \/ a < 0 /\ 0 < b)).
  { destruct (Z.sgn_spec a) as [[? ->] | [[? ->] | [? ->]]];
      destruct (Z.sgn_spec b) as [[? ->] | [[? ->] | [? ->]]]; lia. }
  destruct Hs as [[-> Hs] | [-> Hs]].
  - rewrite Z.mul_1_l. fold t.
    assert (Z.abs (a - b * t) = Z.abs (Z.abs a - Z.abs b * t)) by nia.
    split; [lia|]. intros H'. apply T. lia.
  - replace (-1 * m) with (- m) by lia. rewrite py_round_opp. fold t.
    assert (Z.abs (a - b * - t) = Z.abs (Z.abs a - Z.abs b * t)) by nia.
    split; [lia|]. intros H'. rewrite Z.even_opp. apply T. lia.
Qed.

Example round_div_half_even :
  round_div 1 2 = Ok 0 /\ round_div 3 2 = Ok 2 /\ round_div 5 2 = Ok 2
  /\ round_div 7 2 = Ok 4 /\ round_div 6 1 = Ok 6 /\ round_div 2 3 = Ok 1
  /\ round_div (-5) 2 = Ok (-2).
Proof. repeat split; vm_compute; reflexivity. Qed.

Example round_div_is_float_division :
  round_div (2 ^ 53 + 1) 1 = Ok (2 ^ 53)
  /\ round_div (3 * 10 ^ 17 - 1) (2 * 10 ^ 17) = Ok 2
  /\ round_div (10 ^ 400) 1 = Raise OverflowError.
Proof. repeat split; vm_compute; reflexivity. Qed.

(** ** The priority queue *)

Section PriorityQueueFacts.
Variable A : Type.
Variable lt : A -> A -> bool.

Notation add := (Container.add lt).
Notation add_all := (Container.add_all lt).
Notation insert_before_greater := (Container.insert_before_greater lt).
Notation ascending := (Container.ascending lt).
Notation tied := (Container.tied lt).
Notation init := (Container.init A).

Lemma add_loop_inserted item rest acc :
  Container.add_loop lt item rest true acc = (true, acc ++ rest).
Proof.
  revert acc; induction rest as [|x rest IH]; intros acc; simpl.
  - now rewrite app_nil_r.
  - rewrite IH, <- app_assoc. reflexivity.
Qed.

Lemma add_loop_pending item rest acc :
  let '(inserted, new_items) := Container.add_loop lt item rest false acc in
  (if negb inserted then new_items ++ [item] else new_items)
  = acc ++ insert_before_greater item rest.
Proof.
  revert acc; induction rest as [|x rest IH]; intros acc; simpl.
  - reflexivity.
  - destruct (lt item x) eqn:E; simpl.
    + rewrite add_loop_inserted. simpl.
      rewrite <- !app_assoc. reflexivity.
    + specialize (IH (acc ++ [x])).
      destruct (Container.add_loop lt item rest false (acc ++ [x])) as [ins new].
      rewrite IH, <- app_assoc. reflexivity.
Qed.

(** [add] rebuilds the list with the item placed before the first item
    strictly greater than it. *)
Lemma add_items self item :
  Container._items (add self item)
  = insert_before_greater item (Container._items self).
Proof.
  unfold Container.add.
  pose proof (add_loop_pending item (Container._items self) []) as H.
  destruct (Container.add_loop lt item (Container._items self) false [])
    as [ins new].
  simpl in H. rewrite <- H. now destruct ins.
Qed.

Lemma insert_perm item l :
  Permutation (item :: l) (insert_before_greater item l).
Proof.
  induction l as [|x l IH]; simpl; auto.
  destruct (lt item x); auto.
  eapply perm_trans; [apply perm_swap|]. now apply perm_skip.
Qed.

Lemma add_all_snoc self items item :
  add_all self (items ++ [item]) = add (add_all self items) item.
Proof. unfold Container.add_all. now rewrite fold_left_app. Qed.

Lemma add_all_perm items :
  Permutation items (Container._items (add_all init items)).
Proof.
  induction items as [|item items IH] using rev_ind.
  - apply perm_nil.
  - rewrite add_all_snoc, add_items.
    eapply perm_trans; [apply Permutation_app_comm|]. simpl.
    eapply perm_trans; [|apply insert_perm]. now apply perm_skip.
Qed.

(** Removing until the queue is empty yields the backing list, front
    first, and terminates within as many iterations as there are items. *)
Lemma remove_all_items self :
  Container.remove_all (List.length (Container._items self)) self
  = (Container._items self, init).
Proof.
  destruct self as [l]. simpl.
  induction l as [|x l IH]; simpl; auto.
  unfold Container.remove; simpl. now rewrite IH.
Qed.

Lemma filter_head_split (f : A -> bool) l x r :
  filter f l = x :: r ->
  exists pre post, l = pre ++ x :: post /\ Forall (fun y => f y = false) pre.
Proof.
  induction l as [|y l IH]; simpl; [discriminate|].
  destruct (f y) eqn:E; intros H.
  - injection H as -> _. now exists [], l.
  - destruct (IH H) as (pre & post & -> & Hpre).
    exists (y :: pre), post. split; auto.
Qed.

Lemma filter_none (f : A -> bool) l :
  (forall v, In v l -> f v = false) -> filter f l = [].
Proof.
  induction l as [|y l IH]; simpl; intros H; auto.
  rewrite (H y (or_introl eq_refl)). apply IH. intros v Hv. apply H. now right.
Qed.

(** The ordering is a strict weak ordering: asymmetric, and being
    not-less is transitive (so ties form classes of equal priority). *)
Hypothesis lt_asym : forall a b, lt a b = true -> lt b a = false.
Hypothesis lt_negtrans :
  forall a b c, lt a b = false -> lt b c = false -> lt a c = false.

Lemma lt_irrefl a : lt a a = false.
Proof. destruct (lt a a) eqn:E; auto. now rewrite (lt_asym E) in E. Qed.

Lemma insert_ascending item l :
  ascending l -> ascending (insert_before_greater item l).
Proof.
  unfold Container.ascending. induction 1 as [|x l Hl IH Hx]; simpl.
  - repeat constructor.
  - destruct (lt item x) eqn:E.
    + constructor; [now constructor|]. constructor; [now apply lt_asym|].
      rewrite Forall_forall in *. intros v Hv.
      apply lt_negtrans with x; [now apply Hx | now apply lt_asym].
    + constructor; auto.
      eapply Permutation_Forall; [apply insert_perm|]. now constructor.
Qed.

Lemma add_all_ascending items :
  ascending (Container._items (add_all init items)).
Proof.
  induction items as [|item items IH] using rev_ind.
  - constructor.
  - rewrite add_all_snoc, add_items. now apply insert_ascending.
Qed.

(** Everything from the insertion point on is strictly greater than the
    item, so no item tied with it is overtaken. *)
Lemma insert_stable k item l :
  ascending l ->
  filter (tied k) (insert_before_greater item l)
  = filter (tied k) l ++ (if tied k item then [item] else []).
Proof.
  unfold Container.ascending. induction 1 as [|x l Hl IH Hx]; simpl.
  - now destruct (tied k item).
  - destruct (lt item x) eqn:E; simpl.
    + destruct (tied k item) eqn:Ek; [|now rewrite app_nil_r].
      assert (Hgt : Forall (fun v => lt item v = true) (x :: l)).
      { constructor; auto. rewrite Forall_forall in *. intros v Hv.
        destruct (lt item v) eqn:Ev; auto.
        rewrite (lt_negtrans Ev (Hx v Hv)) in E. discriminate. }
      assert (Hno : filter (tied k) (x :: l) = []).
      { apply filter_none.
        rewrite Forall_forall in Hgt. intros v Hv.
        specialize (Hgt v Hv). unfold Container.tied in *.
        apply andb_prop in Ek as [Ek1 Ek2].
        apply negb_true_iff in Ek1, Ek2.
        destruct (lt k v) eqn:E1; simpl; auto.
        rewrite (lt_negtrans Ek2 E1) in Hgt. discriminate. }
      simpl in Hno. now rewrite Hno.
    + rewrite IH. now destruct (tied k x).
Qed.

Lemma add_all_stable k items :
  filter (tied k) (Container._items (add_all init items))
  = filter (tied k) items.
Proof.
  induction items as [|item items IH] using rev_ind.
  - reflexivity.
  - rewrite add_all_snoc, add_items, insert_stable by apply add_all_ascending.
    rewrite IH, filter_app. reflexivity.
Qed.

(** C2, amended: for every sequence of items whose [<] ranks them (a
    strict weak ordering: asymmetric, and not-less-than transitive) added
    to an empty queue, removing until the queue is empty terminates and
    yields exactly the items added, in ascending order (no item is
    strictly less than one removed before it), and the items tied with
    any given item come out in the order in which they were added. *)
Theorem removal_order_is_ascending_and_fifo (items : list A) :
  exists out,
    Container.remove_all (List.length items) (add_all init items) = (out, init)
    /\ Permutation items out
    /\ ascending out
    /\ forall k, filter (tied k) out = filter (tied k) items.
Proof.
  exists (Container._items (add_all init items)).
  repeat split.
  - rewrite (Permutation_length (add_all_perm items)).
    apply remove_all_items.
  - apply add_all_perm.
  - apply add_all_ascending.
  - intros k. apply add_all_stable.
Qed.

(** C8, amended: [remove] on an empty queue raises [IndexError] (that
    of [pop(0)] on an empty list); on a queue holding the items added so
    far, for items whose [<] ranks them (a strict weak ordering), it
    returns an item that no other item precedes in the ordering, and
    among those the one added first, and leaves the remaining items in
    the queue. *)
Theorem remove_raises_on_empty_else_earliest :
  (forall self : Container.PriorityQueue A,
      Container.is_empty self = true ->
      Container.remove self = Raise IndexError)
  /\ forall items, items <> [] ->
       exists x self',
         Container.remove (add_all init items) = Ok (x, self')
         /\ (forall y, In y items -> lt y x = false)
         /\ (exists pre post, items = pre ++ x :: post
                              /\ forall y, In y pre -> lt x y = true)
         /\ Permutation items (x :: Container._items self')
         /\ ascending (Container._items self').
Proof.
  split.
  - intros [l]. unfold Container.is_empty, Container.remove. simpl.
    destruct l; [reflexivity | discriminate].
  - intros items Hne.
    pose proof (add_all_perm items) as Hperm.
    pose proof (add_all_ascending items) as Hasc.
    pose proof (fun k => add_all_stable k items) as Hstab.
    unfold Container.remove.
    destruct (Container._items (add_all init items)) as [|x l] eqn:El.
    { apply Permutation_sym, Permutation_nil in Hperm. contradiction. }
    assert (Hmin : forall y, In y items -> lt y x = false).
    { intros y Hy. apply (Permutation_in _ Hperm) in Hy.
      destruct Hy as [<- | Hy]; [apply lt_irrefl|].
      inversion Hasc as [|? ? _ Hall]; subst.
      rewrite Forall_forall in Hall. now apply Hall. }
    exists x, (Container.mkPQ l). simpl. repeat split; auto.
    + specialize (Hstab x). simpl in Hstab.
      assert (Hxx : tied x x = true)
        by (unfold Container.tied; now rewrite lt_irrefl).
      rewrite Hxx in Hstab. symmetry in Hstab.
      apply filter_head_split in Hstab as (pre & post & -> & Hpre).
      exists pre, post. split; auto.
      rewrite Forall_forall in Hpre. intros y Hy.
      specialize (Hpre y Hy). unfold Container.tied in Hpre.
      rewrite (Hmin y) in Hpre by (apply in_or_app; now left).
      simpl in Hpre. rewrite andb_true_r in Hpre.
      now apply negb_false_iff in Hpre.
    + now inversion Hasc.
Qed.

End PriorityQueueFacts.

(** C2 as stated fails for items that [<] does not rank: after adding
    2.0, NaN, 1.0 the queue gives 1.0, 2.0, NaN.  NaN is tied with 1.0
    (neither is less than the other) and was added before it, but comes
    out after it. *)
Lemma removal_order_not_fifo_with_nan :
  let items := [Num 2; NaN; Num 1] in
  let out := [Num 1; Num 2; NaN] in
  Container.remove_all 3 (Container.add_all number_lt (Container.init _) items)
  = (out, Container.init _)
  /\ Container.tied number_lt NaN (Num 1) = true
  /\ filter (Container.tied number_lt NaN) out
     <> filter (Container.tied number_lt NaN) items.
Proof. repeat split. discriminate. Qed.

(** C8 as stated fails: [remove] on an empty queue raises the
    [IndexError] of [pop(0)], not an EmptyQueueError (the code has no
    such class). *)
Lemma remove_on_empty_raises_IndexError :
  Container.is_empty (Container.init Event) = true
  /\ Container.remove (Container.init Event) = Raise IndexError
  /\ class_name IndexError <> "EmptyQueueError"%string.
Proof. repeat split. discriminate. Qed.

(** Adding priorities [2,1,1,3,2] and removing five times yields
    [1,1,2,2,3], the two 1s and the two 2s in the order they were added. *)
Example sample_removal_order :
  Container.remove_all 5 (Container.add_all by_priority (Container.init _) sample_items)
  = ([(1, "b"%string); (1, "c"%string); (2, "a"%string); (2, "e"%string);
      (3, "d"%string)], Container.init _).
Proof. reflexivity. Qed.

Lemma removal_order_witness :
  exists out,
    Container.remove_all (List.length sample_items)
      (Container.add_all by_priority (Container.init _) sample_items)
    = (out, Container.init _)
    /\ Permutation sample_items out
    /\ Container.ascending by_priority out
    /\ forall k, filter (Container.tied by_priority k) out
                 = filter (Container.tied by_priority k) sample_items.
Proof.
  apply (@removal_order_is_ascending_and_fifo _ by_priority).
  - intros a b H. unfold by_priority in *.
    apply Z.ltb_lt in H. apply Z.ltb_ge. lia.
  - intros a b c H1 H2. unfold by_priority in *.
    apply Z.ltb_ge in H1, H2. apply Z.ltb_ge. lia.
Defined.

(** Events are ordered by timestamp alone, which is a strict weak
    ordering. *)
Lemma Event_lt_asym a b : Event_lt a b = true -> Event_lt b a = false.
Proof. unfold Event_lt. intros H. apply Z.ltb_lt in H. apply Z.ltb_ge. lia. Qed.

Lemma Event_lt_negtrans a b c :
  Event_lt a b = false -> Event_lt b c = false -> Event_lt a c = false.
Proof.
  unfold Event_lt. intros H1 H2. apply Z.ltb_ge in H1, H2. apply Z.ltb_ge. lia.
Qed.

(** The event queue after the three sample requests: the request at time
    0 first, then the two at time 1 in the order they were added. *)
Example sample_event_queue :
  Container._items (Container.add_all Event_lt (Container.init _) sample_events)
  = [DriverRequest 0 2%nat; RiderRequest 1 0%nat; DriverRequest 1 1%nat].
Proof. reflexivity. Qed.

Lemma remove_earliest_witness :
  exists x self',
    Container.remove (Container.add_all Event_lt (Container.init _) sample_events)
    = Ok (x, self')
    /\ (forall y, In y sample_events -> Event_lt y x = false)
    /\ (exists pre post, sample_events = pre ++ x :: post
                         /\ forall y, In y pre -> Event_lt x y = true)
    /\ Permutation sample_events (x :: Container._items self')
    /\ Container.ascending Event_lt (Container._items self').
Proof.
  apply (proj2 (@remove_raises_on_empty_else_earliest _ Event_lt
                  Event_lt_asym Event_lt_negtrans)).
  discriminate.
Defined.

(** ** The driver state machine *)

Lemma invariant_busy self :
  Driver.is_idle self = false -> Driver.destination self <> None ->
  Driver.invariant self.
Proof. unfold Driver.invariant. tauto. Qed.

Lemma invariant_idle self :
  Driver.is_idle self = true -> Driver.destination self = None ->
  Driver.invariant self.
Proof.
  unfold Driver.invariant. intros Hi Hd. rewrite Hi, Hd.
  split; [congruence | discriminate].
Qed.

(** C4: a freshly constructed driver has a destination exactly when it
    is not idle, and [start_drive], [end_drive], [start_ride] and
    [end_ride] each preserve this (the locations handed to the [start_]
    methods are locations, never None; the [end_] methods are called on a
    driver that has a destination). *)
Theorem driver_invariant_preserved :
  (forall identifier location speed,
      Driver.invariant (Driver.init identifier location speed))
  /\ (forall self loc,
         Driver.invariant self ->
         Driver.invariant (fst (Driver.start_drive self loc)))
  /\ (forall self,
         Driver.invariant self -> Driver.destination self <> None ->
         Driver.invariant (Driver.end_drive self))
  /\ (forall self rider,
         Driver.invariant self ->
         Driver.invariant (fst (Driver.start_ride self rider)))
  /\ (forall self,
         Driver.invariant self -> Driver.destination self <> None ->
         Driver.invariant (Driver.end_ride self)).
Proof.
  split; [|split; [|split; [|split]]]; intros;
    first [ apply invariant_idle; reflexivity
          | apply invariant_busy; simpl; [reflexivity | discriminate] ].
Qed.

Lemma driver_invariant_witness :
  let d0 := Driver.init "D1" (mkLocation 1 1) 1 in
  let d1 := fst (Driver.start_drive d0 (mkLocation 4 4)) in
  Driver.invariant d0 /\ Driver.invariant d1
  /\ Driver.destination d1 <> None
  /\ Driver.invariant (Driver.end_drive d1)
  /\ Driver.invariant (Driver.end_ride d1).
Proof.
  pose proof driver_invariant_preserved as (Hinit & Hsd & Hed & _ & Her).
  intros d0 d1.
  assert (H0 : Driver.invariant d0) by apply Hinit.
  assert (H1 : Driver.invariant d1) by (apply Hsd; exact H0).
  assert (Hd : Driver.destination d1 <> None) by (simpl; discriminate).
  exact (conj H0 (conj H1 (conj Hd (conj (Hed d1 H1 Hd) (Her d1 H1 Hd))))).
Defined.

(** ** Location deserialization *)

Lemma py_int_cases s : (exists n, py_int s = Ok n) \/ py_int s = Raise ValueError.
Proof.
  unfold py_int.
  destruct (match int_lstrip s with
            | String "-"%char s' => option_map Z.opp (int_unsigned s')
            | String "+"%char s' => int_unsigned s'
            | _ => int_unsigned (int_lstrip s)
            end) as [n|]; [left; now exists n | now right].
Qed.

Lemma split_nonempty sep s : split sep s <> [].
Proof.
  destruct s as [|c s]; simpl; [discriminate|].
  destruct (Ascii.eqb c sep); [discriminate|].
  destruct (split sep s); discriminate.
Qed.

(** White space around a literal does not matter to [int]. *)
Lemma int_lstrip_app pre s :
  all_int_space pre = true -> int_lstrip (pre ++ s) = int_lstrip s.
Proof.
  induction pre as [|c pre IH]; simpl; [reflexivity|].
  destruct (is_int_space c); simpl; [exact IH | discriminate].
Qed.

Lemma int_lstrip_keeps_rest s post :
  int_lstrip s <> EmptyString -> int_lstrip (s ++ post) = (int_lstrip s ++ post)%string.
Proof.
  induction s as [|c s IH]; simpl; [congruence|].
  destruct (is_int_space c); auto.
Qed.

Lemma all_int_space_app s post :
  all_int_space s = true -> all_int_space post = true ->
  all_int_space (s ++ post) = true.
Proof.
  induction s as [|c s IH]; simpl; [auto|].
  destruct (is_int_space c); simpl; [exact IH | discriminate].
Qed.

Lemma is_int_space_no_digit c : is_int_space c = true -> digit_of c = None.
Proof.
  unfold is_int_space, digit_of.
  destruct (Nat.leb 48 (nat_of_ascii c) && Nat.leb (nat_of_ascii c) 57)%bool eqn:D;
    [|reflexivity].
  apply andb_prop in D as [D1 D2]. apply Nat.leb_le in D1, D2.
  intros H. apply orb_prop in H as [H | H].
  - apply Nat.eqb_eq in H. lia.
  - apply andb_prop in H as [_ H]. apply Nat.leb_le in H. lia.
Qed.

Lemma is_int_space_no_underscore c :
  is_int_space c = true -> Ascii.eqb c "_"%char = false.
Proof.
  intros H. destruct (Ascii.eqb c "_"%char) eqn:E; [|reflexivity].
  apply Ascii.eqb_eq in E. subst c. discriminate.
Qed.

Lemma int_digits_space post acc :
  all_int_space post = true -> int_digits post acc = Some acc.
Proof.
  destruct post as [|c post]; [reflexivity|].
  intros H. simpl in H. apply andb_prop in H as H'. destruct H' as [Hc _].
  cbn [int_digits].
  rewrite (is_int_space_no_digit c Hc), (is_int_space_no_underscore c Hc).
  cbn [all_int_space]. now rewrite H.
Qed.

Lemma int_digits_trailing post :
  all_int_space post = true ->
  forall k s acc n,
    (String.length s <= k)%nat ->
    int_digits s acc = Some n -> int_digits (s ++ post) acc = Some n.
Proof.
  intros Hpost. induction k as [|k IH]; intros s acc n Hlen.
  - destruct s; [|simpl in Hlen; lia]. simpl.
    intros [= <-]. now apply int_digits_space.
  - destruct s as [|c s].
    + simpl. intros [= <-]. now apply int_digits_space.
    + simpl in Hlen. cbn [int_digits append].
      destruct (digit_of c) as [d|].
      * apply IH. lia.
      * destruct (Ascii.eqb c "_"%char).
        -- destruct s as [|c' s]; [discriminate|]. cbn [append].
           destruct (digit_of c'); [|discriminate].
           apply IH. simpl in Hlen. lia.
        -- change (String c (s ++ post)) with (String c s ++ post)%string.
           destruct (all_int_space (String c s)) eqn:E; [|discriminate].
           now rewrite all_int_space_app.
Qed.

Lemma int_unsigned_trailing s post n :
  all_int_space post = true ->
  int_unsigned s = Some n -> int_unsigned (s ++ post) = Some n.
Proof.
  intros Hpost. destruct s as [|c s]; [discriminate|].
  cbn [int_unsigned append]. destruct (digit_of c); [|discriminate].
  intros H. eapply int_digits_trailing; [exact Hpost | apply Nat.le_refl | exact H].
Qed.

Lemma py_int_surrounding_space pre s post n :
  all_int_space pre = true -> all_int_space post = true ->
  py_int s = Ok n -> py_int (pre ++ s ++ post) = Ok n.
Proof.
  intros Hpre Hpost. unfold py_int.
  rewrite (int_lstrip_app pre _ Hpre).
  destruct (int_lstrip s) as [|c body] eqn:E; [discriminate|].
  rewrite int_lstrip_keeps_rest by (rewrite E; discriminate).
  rewrite E. cbn [append].
  assert (Hu : forall x m, int_unsigned x = Some m ->
                           int_unsigned (x ++ post) = Some m)
    by (intros x m; now apply int_unsigned_trailing).
  assert (Hgen : int_unsigned (String c body) = Some n ->
                 int_unsigned (String c (body ++ post)) = Some n).
  { intros H. change (String c (body ++ post)) with (String c body ++ post)%string.
    now apply Hu. }
  destruct c as [[] [] [] [] [] [] [] []];
    try (destruct (int_unsigned (String _ body)) eqn:U; [|discriminate];
         intros [= <-]; now rewrite (Hgen eq_refl)).
  - destruct (int_unsigned body) eqn:U; [|discriminate]. simpl.
    intros [= <-]. now rewrite (Hu _ _ U).
  - destruct (int_unsigned body) eqn:U; [|discriminate].
    intros [= <-]. now rewrite (Hu _ _ U).
Qed.

Example deserialize_plain : deserialize_location "3,4" = Ok (mkLocation 3 4).
Proof. reflexivity. Qed.

Example deserialize_negative : deserialize_location "-1,-2" = Ok (mkLocation (-1) (-2)).
Proof. reflexivity. Qed.

Example deserialize_spaces : deserialize_location " 7 , 8 " = Ok (mkLocation 7 8).
Proof. reflexivity. Qed.

Example deserialize_no_comma : deserialize_location "12" = Raise IndexError.
Proof. reflexivity. Qed.

Example deserialize_not_a_number : deserialize_location "1,x" = Raise ValueError.
Proof. reflexivity. Qed.

(** [int] does not skip the separator FS (code 28), which [strip] does. *)
Example deserialize_separator_is_no_space :
  deserialize_location (String (ascii_of_nat 28) "5,6") = Raise ValueError
  /\ strip (String (ascii_of_nat 28) "5,6") = "5,6"%string.
Proof. split; reflexivity. Qed.

(** C9 as stated fails: a string with three comma-separated fields is
    not rejected; the fields after the second are ignored. *)
Lemma deserialize_accepts_three_fields :
  split ","%char "1,2,3" = ["1"; "2"; "3"]%string
  /\ deserialize_location "1,2,3" = Ok (mkLocation 1 2).
Proof. split; reflexivity. Qed.

(** C9, amended: deserialization returns a Location exactly when the
    string has at least two comma-separated fields and the first two are
    integer-parseable, that is, accepted by [int]; the Location holds
    those two integers and any further fields are ignored.  Every other
    string fails: with the error of [int] on the first of the two fields
    that is not integer-parseable, and with [IndexError] when there is no
    comma.  This holds whatever [int] accepts.  The [int] of the model
    fails with [ValueError] only, and tolerates white space around a
    literal. *)
Theorem deserialize_location_first_two_fields
        (int : string -> result Z) (s : string) :
  (forall loc,
      deserialize_location_with int s = Ok loc <->
      exists field0 field1 more,
        split ","%char s = field0 :: field1 :: more
        /\ int field0 = Ok (row loc) /\ int field1 = Ok (col loc))
  /\ (forall e,
         deserialize_location_with int s = Raise e <->
         (exists field0 more,
             split ","%char s = field0 :: more /\ int field0 = Raise e)
         \/ (exists r, split ","%char s = [s] /\ int s = Ok r /\ e = IndexError)
         \/ (exists field0 field1 more r,
                split ","%char s = field0 :: field1 :: more
                /\ int field0 = Ok r /\ int field1 = Raise e))
  /\ deserialize_location s = deserialize_location_with py_int s
  /\ (forall field e, py_int field = Raise e -> e = ValueError)
  /\ (forall pre field post n,
         all_int_space pre = true -> all_int_space post = true ->
         py_int field = Ok n -> py_int (pre ++ field ++ post) = Ok n).
Proof.
  split; [|split; [|split; [reflexivity|split]]].
  - unfold deserialize_location_with, subscript.
    pose proof (split_nonempty ","%char s) as Hne.
    destruct (split ","%char s) as [|f0 [|f1 more]]; [contradiction| |]; simpl.
    + intros loc; split.
      * destruct (int f0); discriminate.
      * intros (? & ? & ? & H & _). discriminate.
    + intros [r c]; simpl; split.
      * destruct (int f0) as [r'|] eqn:E0; [|discriminate].
        destruct (int f1) as [c'|] eqn:E1; [|discriminate].
        intros H; injection H as -> ->.
        exists f0, f1, more. repeat split; assumption.
      * intros (g0 & g1 & m & H & H0 & H1).
        injection H as <- <- <-. now rewrite H0, H1.
  - assert (Hone : forall f0, split ","%char s = [f0] -> f0 = s).
    { clear. induction s as [|c s IH]; simpl; intros f0.
      - now intros [= <-].
      - pose proof (split_nonempty ","%char s) as Hne.
        destruct (Ascii.eqb c ","%char).
        + intros [= _ H]. contradiction.
        + destruct (split ","%char s) as [|g gs]; [contradiction|].
          intros [= <- ->]. now rewrite (IH g eq_refl). }
    unfold deserialize_location_with, subscript.
    pose proof (split_nonempty ","%char s) as Hne.
    destruct (split ","%char s) as [|f0 [|f1 more]] eqn:Es; [contradiction| |];
      simpl; intros e.
    + assert (f0 = s) by now apply Hone.
      subst f0. split.
      * destruct (int s) as [r|e'] eqn:E0.
        -- intros [= <-]. right; left. now exists r.
        -- intros [= <-]. left. now exists s, [].
      * intros [(g0 & m & [= <- <-] & ->) | [(r & _ & -> & ->)
                | (g0 & g1 & m & r & [=] & _)]]; reflexivity.
    + split.
      * destruct (int f0) as [r|e'] eqn:E0.
        -- destruct (int f1) as [c|e''] eqn:E1; [discriminate|].
           intros [= <-]. right; right. now exists f0, f1, more, r.
        -- intros [= <-]. left. now exists f0, (f1 :: more).
      * intros [(g0 & m & [= <- <-] & ->) | [(r & [=] & _)
                | (g0 & g1 & m & r & [= <- <- <-] & -> & ->)]]; reflexivity.
  - intros field e H. destruct (py_int_cases field) as [[n E] | E]; congruence.
  - intros pre field post n. apply py_int_surrounding_space.
Qed.

(** ** The dispatcher *)

Lemma ref_in_In x lst : ref_in x lst = true <-> In x lst.
Proof.
  unfold ref_in. rewrite existsb_exists. split.
  - intros (y & Hy & E). apply Nat.eqb_eq in E. now subst.
  - intros H. exists x. split; auto. apply Nat.eqb_refl.
Qed.

Lemma ref_in_false x lst : ref_in x lst = false <-> ~ In x lst.
Proof.
  rewrite <- ref_in_In. destruct (ref_in x lst); split; congruence.
Qed.

(** [lst.remove(x)] takes out the first occurrence of [x]. *)
Lemma list_remove_first x lst :
  In x lst ->
  exists pre post, lst = pre ++ x :: post /\ ~ In x pre
                   /\ list_remove x lst = pre ++ post.
Proof.
  induction lst as [|y lst IH]; simpl; [contradiction|].
  destruct (Nat.eqb y x) eqn:E.
  - apply Nat.eqb_eq in E. subst. intros _. exists [], lst. auto.
  - apply Nat.eqb_neq in E. intros [H | H]; [contradiction|].
    destruct (IH H) as (pre & post & -> & Hpre & ->).
    exists (y :: pre), post. repeat split; auto.
    intros [H' | H']; auto.
Qed.

Lemma list_remove_single x lst :
  count_occ Nat.eq_dec lst x = 1%nat -> ~ In x (list_remove x lst).
Proof.
  induction lst as [|y lst IH]; simpl; [discriminate|].
  destruct (Nat.eq_dec y x) as [-> | Hne].
  - rewrite Nat.eqb_refl. intros H. injection H as H.
    now apply (count_occ_not_In Nat.eq_dec).
  - apply Nat.eqb_neq in Hne as Hne'. rewrite Hne'. intros H [E | Hin].
    + contradiction.
    + now apply IH.
Qed.

(** C7 as stated fails: a rider that asked twice while no driver was
    idle is in the waiting pool twice; [cancel_ride] takes out the first
    entry only, so the cancelled rider is still waiting and is handed to
    the next driver that asks. *)
Lemma cancel_ride_leaves_requeued_rider :
  let w := fst (Dispatcher.request_driver 0%nat
                  (fst (Dispatcher.request_driver 0%nat sample_world))) in
  let w' := fst (Dispatcher.cancel_ride 0%nat w) in
  _rider_list w = [0%nat; 0%nat]
  /\ _rider_list w' = [0%nat]
  /\ Rider.status (riders w' 0%nat) = CANCELLED
  /\ snd (Dispatcher.request_rider 1%nat w') = Ok (Some 0%nat).
Proof. repeat split; vm_compute; reflexivity. Qed.

(** C7, amended: [cancel_ride] returns normally; the rider's status is CANCELLED
    afterwards whatever it was before (SATISFIED included); if the rider
    was not in the waiting pool the pool is unchanged, and if it was, its
    first occurrence is taken out and the other entries keep their order
    (so a rider that was in the pool once is in it no more); no other
    rider, no driver and not the driver pool is touched. *)
Theorem cancel_ride_removes_and_cancels (rider : RiderRef) (w : World) :
  let w' := fst (Dispatcher.cancel_ride rider w) in
  snd (Dispatcher.cancel_ride rider w) = Ok tt
  /\ riders w' rider = Rider.set_status (riders w rider) CANCELLED
  /\ Rider.status (riders w' rider) = CANCELLED
  /\ (~ In rider (_rider_list w) -> _rider_list w' = _rider_list w)
  /\ (In rider (_rider_list w) ->
      exists pre post, _rider_list w = pre ++ rider :: post
                       /\ ~ In rider pre /\ _rider_list w' = pre ++ post)
  /\ (count_occ Nat.eq_dec (_rider_list w) rider = 1%nat ->
      ~ In rider (_rider_list w'))
  /\ (forall r, r <> rider -> riders w' r = riders w r)
  /\ drivers w' = drivers w
  /\ _driver_list w' = _driver_list w.
Proof.
  unfold Dispatcher.cancel_ride, bind, read, modify, ret, set_status. simpl.
  destruct (ref_in rider (_rider_list w)) eqn:E; simpl;
    rewrite Nat.eqb_refl; repeat split; auto.
  - intros H. apply ref_in_In in E. contradiction.
  - intros H. now apply list_remove_first.
  - intros H. now apply list_remove_single.
  - intros r Hr. apply Nat.eqb_neq in Hr. now rewrite Hr.
  - intros H. apply ref_in_false in E. contradiction.
  - intros H Hin. apply ref_in_false in E. contradiction.
  - intros r Hr. apply Nat.eqb_neq in Hr. now rewrite Hr.
Qed.

(** A rider that is SATISFIED and absent from the pool: [cancel_ride]
    leaves the pool alone and still overwrites the status. *)
Example cancel_ride_clobbers_satisfied :
  let w := set_rider 0%nat (Rider.set_status sample_rider SATISFIED) sample_world in
  Rider.status (riders w 0%nat) = SATISFIED
  /\ Rider.status (riders (fst (Dispatcher.cancel_ride 0%nat w)) 0%nat) = CANCELLED
  /\ _rider_list (fst (Dispatcher.cancel_ride 0%nat w)) = [].
Proof. repeat split. Qed.

(** The travel time [request_driver] computes for a pooled driver. *)
Notation travel_time w origin d :=
  (Driver.get_travel_time (drivers w d) origin).

Lemma scan_no_idle w origin pool curr_min curr_driver :
  (forall d, In d pool -> Driver.is_idle (drivers w d) = false) ->
  Dispatcher.scan w origin pool curr_min curr_driver = Ok (curr_min, curr_driver).
Proof.
  induction pool as [|x pool IH]; simpl; intros H; auto.
  rewrite (H x (or_introl eq_refl)). apply IH. intros d Hd. apply H. now right.
Qed.

(** What the scan returns: either no idle driver beats [curr_min] and
    the running pair is returned as it came in, or the first idle driver
    with the least travel time among those below [curr_min]. *)
Lemma scan_first_minimum w origin pool :
  forall curr_min curr_driver,
    (forall d, In d pool -> Driver.is_idle (drivers w d) = true ->
               exists t, travel_time w origin d = Ok t) ->
    exists m best,
      Dispatcher.scan w origin pool curr_min curr_driver = Ok (m, best)
      /\ ((m = curr_min /\ best = curr_driver
           /\ forall d t, In d pool -> Driver.is_idle (drivers w d) = true ->
                          travel_time w origin d = Ok t -> curr_min <= t)
          \/ (m < curr_min
              /\ exists pre d post,
                  pool = pre ++ d :: post /\ best = Some d
                  /\ Driver.is_idle (drivers w d) = true
                  /\ travel_time w origin d = Ok m
                  /\ (forall d' t, In d' pre ->
                                   Driver.is_idle (drivers w d') = true ->
                                   travel_time w origin d' = Ok t -> m < t)
                  /\ (forall d' t, In d' post ->
                                   Driver.is_idle (drivers w d') = true ->
                                   travel_time w origin d' = Ok t -> m <= t))).
Proof.
  induction pool as [|x pool IH]; intros curr_min curr_driver Hok; simpl.
  - exists curr_min, curr_driver. split; auto. left. repeat split; auto.
    intros d t [].
  - assert (Hok' : forall d, In d pool -> Driver.is_idle (drivers w d) = true ->
                             exists t, travel_time w origin d = Ok t)
      by (intros d Hd; apply Hok; now right).
    destruct (Driver.is_idle (drivers w x)) eqn:Eidle.
    + destruct (Hok x (or_introl eq_refl) Eidle) as [tx Etx]. rewrite Etx.
      destruct (curr_min >? tx) eqn:Ecmp.
      * apply Z.gtb_lt in Ecmp.
        destruct (IH tx (Some x) Hok') as (m & best & -> & Hcase).
        exists m, best. split; auto. right.
        destruct Hcase as [(-> & -> & Hall) | (Hlt & pre & d & post & -> & -> & Hd & Htd & Hpre & Hpost)].
        -- split; auto. exists [], x, pool. repeat split; auto.
           intros d' t [].
        -- split; [lia|]. exists (x :: pre), d, post. repeat split; auto.
           intros d' t [<- | Hin] Hi Ht; [|eauto].
           rewrite Etx in Ht. injection Ht as <-. lia.
      * assert (curr_min <= tx) by (rewrite Z.gtb_ltb in Ecmp; apply Z.ltb_ge in Ecmp; lia).
        destruct (IH curr_min curr_driver Hok') as (m & best & -> & Hcase).
        exists m, best. split; auto.
        destruct Hcase as [(-> & -> & Hall) | (Hlt & pre & d & post & -> & -> & Hd & Htd & Hpre & Hpost)].
        -- left. repeat split; auto.
           intros d t [<- | Hin] Hi Ht; [|eauto].
           rewrite Etx in Ht. injection Ht as <-. lia.
        -- right. split; auto. exists (x :: pre), d, post. repeat split; auto.
           intros d' t [<- | Hin] Hi Ht; [|eauto].
           rewrite Etx in Ht. injection Ht as <-. lia.
    + destruct (IH curr_min curr_driver Hok') as (m & best & -> & Hcase).
      exists m, best. split; auto.
      destruct Hcase as [(-> & -> & Hall) | (Hlt & pre & d & post & -> & -> & Hd & Htd & Hpre & Hpost)].
      * left. repeat split; auto.
        intros d t [<- | Hin] Hi Ht; [congruence | eauto].
      * right. split; auto. exists (x :: pre), d, post. repeat split; auto.
        intros d' t [<- | Hin] Hi Ht; [congruence | eauto].
Qed.

Lemma request_driver_result rider w m best :
  Dispatcher.scan w (Rider.origin (riders w rider)) (_driver_list w)
                  Dispatcher.initial_min None = Ok (m, best) ->
  snd (Dispatcher.request_driver rider w) = Ok best.
Proof.
  unfold Dispatcher.request_driver, bind, read, modify, ret.
  intros ->. simpl. destruct best; simpl; auto.
  destruct (ref_in rider (_rider_list w)); reflexivity.
Qed.

(** As long as every idle driver's travel time is below the initial
    [curr_min], [request_driver] returns the first idle driver of least
    travel time in the pool's order, and None exactly when no driver is
    idle. *)
Lemma request_driver_first_minimum rider w :
  (forall d, In d (_driver_list w) -> Driver.is_idle (drivers w d) = true ->
             exists t, travel_time w (Rider.origin (riders w rider)) d = Ok t
                       /\ t < Dispatcher.initial_min) ->
  ((forall d, In d (_driver_list w) -> Driver.is_idle (drivers w d) = false)
   /\ snd (Dispatcher.request_driver rider w) = Ok None)
  \/ (exists pre d post t,
         _driver_list w = pre ++ d :: post
         /\ snd (Dispatcher.request_driver rider w) = Ok (Some d)
         /\ Driver.is_idle (drivers w d) = true
         /\ travel_time w (Rider.origin (riders w rider)) d = Ok t
         /\ (forall d', In d' pre -> Driver.is_idle (drivers w d') = true ->
                        exists t', travel_time w (Rider.origin (riders w rider)) d' = Ok t'
                                   /\ t < t')
         /\ (forall d', In d' post -> Driver.is_idle (drivers w d') = true ->
                        exists t', travel_time w (Rider.origin (riders w rider)) d' = Ok t'
                                   /\ t <= t')).
Proof.
  intros Hok.
  destruct (@scan_first_minimum w (Rider.origin (riders w rider)) (_driver_list w)
              Dispatcher.initial_min None) as (m & best & Escan & Hcase).
  { intros d Hd Hi. destruct (Hok d Hd Hi) as (t & Ht & _). eauto. }
  rewrite (request_driver_result _ _ Escan).
  destruct Hcase as [(-> & -> & Hall) | (Hlt & pre & d & post & Epool & -> & Hd & Htd & Hpre & Hpost)].
  - left. split; auto. intros d Hd.
    destruct (Driver.is_idle (drivers w d)) eqn:Ei; auto.
    destruct (Hok d Hd Ei) as (t & Ht & Hlt).
    specialize (Hall d t Hd Ei Ht). lia.
  - right. exists pre, d, post, m. repeat split; auto.
    + intros d' Hin Hi.
      destruct (Hok d') as (t' & Ht' & _); auto.
      { rewrite Epool. apply in_or_app. now left. }
      exists t'. split; eauto.
    + intros d' Hin Hi.
      destruct (Hok d') as (t' & Ht' & _); auto.
      { rewrite Epool. apply in_or_app. right. now right. }
      exists t'. split; eauto.
Qed.

(** C1 fails on the code: [curr_min] starts at 10000000000, so an idle
    driver whose travel time is not below that is never selected.  Here
    the only registered driver is idle, its travel time is exactly
    10000000000, and [request_driver] returns None and queues the rider. *)
Theorem request_driver_skips_distant_idle_driver :
  _driver_list far_world = [0%nat]
  /\ Driver.is_idle (drivers far_world 0%nat) = true
  /\ travel_time far_world (Rider.origin (riders far_world 0%nat)) 0%nat
     = Ok 10000000000
  /\ snd (Dispatcher.request_driver 0%nat far_world) = Ok None
  /\ _rider_list (fst (Dispatcher.request_driver 0%nat far_world)) = [0%nat].
Proof. repeat split; reflexivity. Qed.

(** C6 as stated fails: a rider that is already waiting and asks again
    while no driver is idle is appended a second time. *)
Lemma request_driver_requeues_waiting_rider :
  (forall d, In d (_driver_list waiting_world) ->
             Driver.is_idle (drivers waiting_world d) = false)
  /\ snd (Dispatcher.request_driver 0%nat waiting_world) = Ok None
  /\ _rider_list (fst (Dispatcher.request_driver 0%nat waiting_world))
     = [0%nat; 0%nat]
  /\ count_occ Nat.eq_dec
       (_rider_list (fst (Dispatcher.request_driver 0%nat waiting_world))) 0%nat
     = 2%nat.
Proof. repeat split. intros d []. Qed.

(** C6, amended: when no registered driver is idle (an empty pool
    included), [request_driver] returns None and appends the rider after
    all riders already waiting; a rider that was not yet waiting then
    appears in the waiting pool exactly once.  Riders, drivers and the
    driver pool are untouched. *)
Theorem request_driver_without_idle_driver (rider : RiderRef) (w : World) :
  (forall d, In d (_driver_list w) -> Driver.is_idle (drivers w d) = false) ->
  let w' := fst (Dispatcher.request_driver rider w) in
  snd (Dispatcher.request_driver rider w) = Ok None
  /\ _rider_list w' = _rider_list w ++ [rider]
  /\ (~ In rider (_rider_list w) ->
      count_occ Nat.eq_dec (_rider_list w') rider = 1%nat)
  /\ riders w' = riders w
  /\ drivers w' = drivers w
  /\ _driver_list w' = _driver_list w.
Proof.
  intros Hbusy.
  unfold Dispatcher.request_driver, bind, read, modify, ret.
  rewrite scan_no_idle by assumption. simpl. repeat split; auto.
  intros Hnew. unfold RiderRef in *. rewrite count_occ_app.
  apply (count_occ_not_In Nat.eq_dec) in Hnew. rewrite Hnew. simpl.
  destruct (Nat.eq_dec rider rider); congruence.
Qed.

Lemma request_driver_without_idle_driver_witness :
  let w := set_rider_list [3%nat] sample_world in
  let w' := fst (Dispatcher.request_driver 0%nat w) in
  snd (Dispatcher.request_driver 0%nat w) = Ok None
  /\ _rider_list w' = [3%nat; 0%nat]
  /\ (~ In 0%nat (_rider_list w) ->
      count_occ Nat.eq_dec (_rider_list w') 0%nat = 1%nat)
  /\ riders w' = riders w
  /\ drivers w' = drivers w
  /\ _driver_list w' = _driver_list w.
Proof.
  intros w.
  apply (@request_driver_without_idle_driver 0%nat w).
  simpl. intros d [].
Defined.

(** ** Events *)

Lemma frame_keeps {A} r (m : M A) : rider_frame m -> keeps_satisfied r m.
Proof. intros H w Hs. unfold satisfied in *. now rewrite H. Qed.

Lemma frame_ret {A} (a : A) : rider_frame (ret a).
Proof. intros w. reflexivity. Qed.

Lemma frame_read {A} (f : World -> A) : rider_frame (read f).
Proof. intros w. reflexivity. Qed.

Lemma frame_pure {A} (f : World -> result A) : rider_frame (fun w => (w, f w)).
Proof. intros w. reflexivity. Qed.

Lemma frame_modify (f : World -> World) :
  (forall w, riders (f w) = riders w) -> rider_frame (modify f).
Proof. intros H w. apply H. Qed.

Lemma frame_bind {A B} (m : M A) (k : A -> M B) :
  rider_frame m -> (forall a, rider_frame (k a)) -> rider_frame (bind m k).
Proof.
  intros Hm Hk w. unfold bind. specialize (Hm w).
  destruct (m w) as [w' [a|e]]; simpl in *; [|assumption].
  now rewrite Hk.
Qed.

Lemma keeps_bind {A B} r (m : M A) (k : A -> M B) :
  keeps_satisfied r m -> (forall a, keeps_satisfied r (k a)) ->
  keeps_satisfied r (bind m k).
Proof.
  intros Hm Hk w Hs. unfold bind. specialize (Hm w Hs).
  destruct (m w) as [w' [a|e]]; simpl in *; [|assumption].
  now apply Hk.
Qed.

Lemma frame_start_drive d loc : rider_frame (start_drive d loc).
Proof. intros w. reflexivity. Qed.

Lemma frame_end_drive d : rider_frame (end_drive d).
Proof. intros w. reflexivity. Qed.

Lemma frame_start_ride d r : rider_frame (start_ride d r).
Proof. intros w. reflexivity. Qed.

Lemma frame_end_ride d : rider_frame (end_ride d).
Proof. intros w. reflexivity. Qed.

Lemma frame_notify (f : World -> Activity) :
  rider_frame (modify (fun w => notify (f w) w)).
Proof. intros w. reflexivity. Qed.

Create HintDb frame.
#[local] Hint Resolve frame_ret frame_read frame_pure frame_start_drive
  frame_end_drive frame_start_ride frame_end_ride frame_notify : frame.

Ltac frame_step :=
  first [ apply frame_bind; [|intros ?]
        | apply frame_modify; intros ?; reflexivity
        | solve [auto with frame]
        | match goal with
          | |- rider_frame (match ?x with _ => _ end) => destruct x
          end ].

Lemma frame_request_driver rider : rider_frame (Dispatcher.request_driver rider).
Proof. unfold Dispatcher.request_driver. repeat frame_step. Qed.

Lemma frame_request_rider driver : rider_frame (Dispatcher.request_rider driver).
Proof. unfold Dispatcher.request_rider. repeat frame_step. Qed.

#[local] Hint Resolve frame_request_driver frame_request_rider : frame.

Lemma frame_RiderRequest_do t rider : rider_frame (RiderRequest_do t rider).
Proof. unfold RiderRequest_do. repeat frame_step. Qed.

Lemma frame_DriverRequest_do t driver : rider_frame (DriverRequest_do t driver).
Proof. unfold DriverRequest_do. repeat frame_step. Qed.

Lemma frame_Dropoff_do t driver rider : rider_frame (Dropoff_do t driver rider).
Proof. unfold Dropoff_do. repeat frame_step. Qed.

Lemma keeps_set_satisfied r rider : keeps_satisfied r (set_status rider SATISFIED).
Proof.
  intros w Hs. unfold satisfied, set_status, modify in *. simpl.
  destruct (Nat.eqb r rider); auto.
Qed.

Lemma keeps_Pickup_do r t driver rider : keeps_satisfied r (Pickup_do t driver rider).
Proof.
  unfold Pickup_do.
  apply keeps_bind; [apply frame_keeps, frame_end_drive | intros _].
  apply keeps_bind; [apply frame_keeps, frame_notify | intros _].
  apply keeps_bind; [apply frame_keeps, frame_read | intros status].
  destruct (Status_eqb status WAITING).
  - apply keeps_bind; [apply frame_keeps, frame_start_ride | intros tt].
    apply keeps_bind; [apply frame_keeps, frame_notify | intros _].
    apply keeps_bind; [apply keeps_set_satisfied | intros _].
    apply frame_keeps, frame_ret.
  - destruct (Status_eqb status CANCELLED); apply frame_keeps, frame_ret.
Qed.

(** A cancellation that fires for a rider already picked up changes
    nothing and schedules nothing. *)
Lemma Cancellation_do_satisfied t rider w :
  satisfied rider w -> Cancellation_do t rider w = (w, Ok []).
Proof.
  unfold satisfied, Cancellation_do, bind, read. intros ->. reflexivity.
Qed.

Lemma keeps_Cancellation_do r t rider : keeps_satisfied r (Cancellation_do t rider).
Proof.
  intros w Hs. unfold satisfied in *.
  unfold Cancellation_do, Dispatcher.cancel_ride, bind, read, modify, ret,
    set_status. simpl.
  destruct (Rider.status (riders w rider)) eqn:Est; simpl; auto;
    destruct (ref_in rider (_rider_list w)); simpl;
    destruct (Nat.eqb r rider) eqn:E; auto;
    apply Nat.eqb_eq in E; subst; congruence.
Qed.

Lemma keeps_do r e : keeps_satisfied r (do e).
Proof.
  destruct e; simpl.
  - apply frame_keeps, frame_RiderRequest_do.
  - apply frame_keeps, frame_DriverRequest_do.
  - apply keeps_Cancellation_do.
  - apply keeps_Pickup_do.
  - apply frame_keeps, frame_Dropoff_do.
Qed.

(** C3: executing any event never takes a rider out of SATISFIED, so a
    SATISFIED rider is SATISFIED after any number of steps; in particular
    a Cancellation executed for a SATISFIED rider leaves the whole store
    (and with it the rider's status) unchanged and returns no follow-up
    events. *)
Theorem satisfied_is_permanent :
  (forall r e w w', satisfied r w -> step w e w' -> satisfied r w')
  /\ (forall r w w', satisfied r w -> steps w w' -> satisfied r w')
  /\ (forall t r w, satisfied r w -> do (Cancellation t r) w = (w, Ok [])).
Proof.
  assert (Hstep : forall r e w w', satisfied r w -> step w e w' -> satisfied r w').
  { intros r e w w' Hs <-. now apply keeps_do. }
  split; [exact Hstep | split].
  - intros r w w' Hs Hrun. induction Hrun as [|w e w1 w2 H1 _ IH]; eauto.
  - intros t r w Hs. simpl. now apply Cancellation_do_satisfied.
Qed.

Lemma satisfied_is_permanent_witness :
  let w0 := set_rider 0%nat (Rider.set_status sample_rider SATISFIED) sample_world in
  let w1 := fst (do (Cancellation 100 0%nat) w0) in
  let w2 := fst (do (RiderRequest 101 0%nat) w1) in
  satisfied 0%nat w0 /\ satisfied 0%nat w1 /\ satisfied 0%nat w2
  /\ do (Cancellation 100 0%nat) w0 = (w0, Ok []).
Proof.
  intros w0 w1 w2.
  pose proof satisfied_is_permanent as (Hstep & Hsteps & Hcancel).
  assert (H0 : satisfied 0%nat w0) by reflexivity.
  assert (H01 : step w0 (Cancellation 100 0%nat) w1) by reflexivity.
  assert (H12 : step w1 (RiderRequest 101 0%nat) w2) by reflexivity.
  exact (conj H0
          (conj (Hstep _ _ _ _ H0 H01)
             (conj (Hsteps _ _ _ H0
                      (steps_cons H01 (steps_cons H12 (steps_refl w2))))
                   (Hcancel 100 0%nat w0 H0)))).
Defined.

(** C10: a Pickup whose rider is already SATISFIED, for a driver that has
    a destination, still ends the drive: the driver is moved to its
    former destination, loses its destination and becomes idle; no rider
    is changed, the dispatcher's pools are unchanged, and no follow-up
    event is returned. *)
Theorem pickup_of_satisfied_rider_ends_drive
        (t : Z) (driver : DriverRef) (rider : RiderRef) (w : World) :
  Rider.status (riders w rider) = SATISFIED ->
  Driver.destination (drivers w driver) <> None ->
  let w' := fst (do (Pickup t driver rider) w) in
  snd (do (Pickup t driver rider) w) = Ok []
  /\ (exists loc, Driver.destination (drivers w driver) = Some loc
                  /\ Driver.location (drivers w' driver) = Some loc)
  /\ Driver.destination (drivers w' driver) = None
  /\ Driver.is_idle (drivers w' driver) = true
  /\ drivers w' driver = Driver.end_drive (drivers w driver)
  /\ riders w' = riders w
  /\ _rider_list w' = _rider_list w
  /\ _driver_list w' = _driver_list w.
Proof.
  intros Hst Hdest.
  unfold do, Pickup_do, bind, read, modify, ret, end_drive. simpl.
  rewrite Hst. simpl. rewrite Nat.eqb_refl. simpl.
  repeat split; auto.
  destruct (Driver.destination (drivers w driver)) as [loc|]; [|congruence].
  now exists loc.
Qed.

Lemma pickup_of_satisfied_rider_witness :
  let w := set_driver 0%nat (fst (Driver.start_drive sample_driver (mkLocation 2 3)))
             (set_rider 0%nat (Rider.set_status sample_rider SATISFIED)
                        sample_world) in
  let w' := fst (do (Pickup 7 0%nat 0%nat) w) in
  snd (do (Pickup 7 0%nat 0%nat) w) = Ok []
  /\ (exists loc, Driver.destination (drivers w 0%nat) = Some loc
                  /\ Driver.location (drivers w' 0%nat) = Some loc)
  /\ Driver.destination (drivers w' 0%nat) = None
  /\ Driver.is_idle (drivers w' 0%nat) = true
  /\ drivers w' 0%nat = Driver.end_drive (drivers w 0%nat)
  /\ riders w' = riders w
  /\ _rider_list w' = _rider_list w
  /\ _driver_list w' = _driver_list w.
Proof.
  intros w.
  apply (@pickup_of_satisfied_rider_ends_drive 7 0%nat 0%nat w).
  - reflexivity.
  - simpl. discriminate.
Defined.



(** The dispatcher test of the repository: rider at (1,10); drivers at
    (1,40) with speed 30, (1,20) with speed 1 and (1,30) with speed 5
    have travel times 1, 10 and 4, and the first is returned. *)
Example request_driver_picks_least_travel_time :
  let w := set_driver_list [0%nat; 1%nat; 2%nat]
             (set_driver 0%nat (Driver.init "D1" (mkLocation 1 40) 30)
             (set_driver 1%nat (Driver.init "D2" (mkLocation 1 20) 1)
             (set_driver 2%nat (Driver.init "D3" (mkLocation 1 30) 5)
             (set_rider 0%nat (Rider.init "R1" 100 (mkLocation 1 10) (mkLocation 1 40))
                        sample_world)))) in
  snd (Dispatcher.request_driver 0%nat w) = Ok (Some 0%nat)
  /\ _rider_list (fst (Dispatcher.request_driver 0%nat w)) = [].
Proof. split; reflexivity. Qed.

(** * Further properties *)

(** ** Locations *)

Lemma Location_eq_true a b : Location_eq a b = true <-> a = b.
Proof.
  unfold Location_eq. rewrite andb_true_iff, !Z.eqb_eq.
  destruct a, b; simpl. split.
  - intros [-> ->]. reflexivity.
  - intros H. injection H as -> ->. auto.
Qed.

(** X1: the Manhattan distance is a metric on locations: it is never
    negative, symmetric, zero exactly between locations that
    [Location.__eq__] calls equal (which are the locations with the same
    row and column), and satisfies the triangle inequality. *)
Theorem manhattan_distance_is_a_metric (a b c : Location) :
  0 <= manhattan_distance a b
  /\ manhattan_distance a b = manhattan_distance b a
  /\ (manhattan_distance a b = 0 <-> Location_eq a b = true)
  /\ (Location_eq a b = true <-> a = b)
  /\ manhattan_distance a c <= manhattan_distance a b + manhattan_distance b c.
Proof.
  repeat split; try (unfold manhattan_distance; lia);
    try (apply Location_eq_true; assumption).
  - intros H. apply Location_eq_true. unfold manhattan_distance in H.
    destruct a, b; simpl in *. f_equal; lia.
  - intros H. apply Location_eq_true in H. subst.
    unfold manhattan_distance. lia.
Qed.

Lemma int_digits_digit c s acc d :
  digit_of c = Some d -> int_digits (String c s) acc = int_digits s (10 * acc + d).
Proof. intros H. simpl. now rewrite H. Qed.

(** Reading a run of printed digits continues the number read so far. *)
Lemma int_digits_printed_pos d (p : positive) :
  int_digits (NilEmpty.string_of_uint d) (Z.pos p)
  = Some (Z.pos (Pos.of_uint_acc d p)).
Proof.
  revert p; induction d; intros p;
    cbn [NilEmpty.string_of_uint Pos.of_uint_acc]; try reflexivity.
  all: erewrite int_digits_digit by reflexivity.
  all: match goal with
       | |- int_digits _ (10 * _ + ?v) = _ =>
           let v' := eval vm_compute in v in change v with v'
       end.
  all: match goal with
       | |- int_digits _ ?z = Some (Z.pos (Pos.of_uint_acc _ ?q)) =>
           replace z with (Z.pos q) by lia
       end; apply IHd.
Qed.

Lemma int_digits_printed_zero d :
  int_digits (NilEmpty.string_of_uint d) 0 = Some (Z.of_uint d).
Proof.
  unfold Z.of_uint. induction d;
    cbn [NilEmpty.string_of_uint Pos.of_uint]; try reflexivity.
  all: erewrite int_digits_digit by reflexivity.
  - exact IHd.
  - apply (int_digits_printed_pos d 1).
  - apply (int_digits_printed_pos d 2).
  - apply (int_digits_printed_pos d 3).
  - apply (int_digits_printed_pos d 4).
  - apply (int_digits_printed_pos d 5).
  - apply (int_digits_printed_pos d 6).
  - apply (int_digits_printed_pos d 7).
  - apply (int_digits_printed_pos d 8).
  - apply (int_digits_printed_pos d 9).
Qed.

Lemma int_unsigned_printed d :
  d <> Decimal.Nil ->
  int_unsigned (NilEmpty.string_of_uint d) = Some (Z.of_uint d).
Proof.
  intros Hd. rewrite <- int_digits_printed_zero.
  destruct d; [contradiction | ..]; reflexivity.
Qed.

Lemma py_int_digit_first c s d :
  digit_of c = Some d ->
  py_int (String c s)
  = match int_unsigned (String c s) with
    | Some n => Ok n
    | None => Raise ValueError
    end.
Proof.
  destruct c as [[] [] [] [] [] [] [] []]; try discriminate; reflexivity.
Qed.

Lemma py_int_minus_first s :
  py_int (String "-" s)
  = match int_unsigned s with
    | Some n => Ok (- n)
    | None => Raise ValueError
    end.
Proof. unfold py_int. simpl. now destruct (int_unsigned s). Qed.

Lemma printed_head d :
  d <> Decimal.Nil ->
  exists c s v, NilEmpty.string_of_uint d = String c s /\ digit_of c = Some v.
Proof.
  destruct d; [contradiction | ..]; intros _; simpl;
    do 3 eexists; split; reflexivity.
Qed.

(** [int] reads back what [str] prints. *)
Lemma py_int_py_str n : py_int (py_str n) = Ok n.
Proof.
  assert (Hpos : forall p, Pos.to_uint p <> Decimal.Nil).
  { intros p H. pose proof (DecimalPos.Unsigned.of_to p) as E.
    rewrite H in E. discriminate. }
  assert (Hval : forall p, Z.of_uint (Pos.to_uint p) = Z.pos p).
  { intros p. change (Z.of_int (Z.to_int (Z.pos p)) = Z.pos p).
    apply DecimalZ.of_to. }
  assert (Hsame : forall p, NilZero.string_of_uint (Pos.to_uint p)
                            = NilEmpty.string_of_uint (Pos.to_uint p)).
  { intros p. specialize (Hpos p). now destruct (Pos.to_uint p). }
  destruct n as [|p|p]; [reflexivity | |];
    unfold py_str, Z.to_int, NilZero.string_of_int; rewrite Hsame;
    pose proof (int_unsigned_printed (Hpos p)) as E; rewrite Hval in E.
  - destruct (printed_head (Hpos p)) as (c & s & v & Es & Hc).
    rewrite Es in *. erewrite py_int_digit_first by exact Hc. now rewrite E.
  - rewrite py_int_minus_first, E. reflexivity.
Qed.

Lemma has_char_app c a b :
  has_char c (a ++ b) = has_char c a || has_char c b.
Proof.
  induction a as [|x a IH]; simpl; auto. now rewrite IH, orb_assoc.
Qed.

Lemma py_str_no_comma n : has_char "," (py_str n) = false.
Proof.
  assert (H : forall d, has_char "," (NilEmpty.string_of_uint d) = false)
    by (induction d; simpl; auto).
  assert (H' : forall d, has_char "," (NilZero.string_of_uint d) = false)
    by (intros d; destruct d; try apply H; reflexivity).
  unfold py_str. destruct (Z.to_int n); simpl; auto.
Qed.

Lemma split_single sep s : has_char sep s = false -> split sep s = [s].
Proof.
  induction s as [|c s IH]; simpl; auto.
  destruct (Ascii.eqb c sep); simpl; [discriminate|].
  intros H. now rewrite IH.
Qed.

Lemma split_at_first sep a b :
  has_char sep a = false ->
  split sep (a ++ String sep b) = a :: split sep b.
Proof.
  induction a as [|c a IH]; simpl.
  - intros _. now rewrite Ascii.eqb_refl.
  - destruct (Ascii.eqb c sep); simpl; [discriminate|].
    intros H. now rewrite IH.
Qed.

(** X2: a location printed by [Location.__str__] is read back unchanged
    by [deserialize_location], for all rows and columns (negative ones
    included); hence distinct locations print differently. *)
Theorem deserialize_location_reads_back_str (loc : Location) :
  deserialize_location (Location_str loc) = Ok loc
  /\ forall other, Location_str other = Location_str loc -> other = loc.
Proof.
  assert (H : forall l, deserialize_location (Location_str l) = Ok l).
  { intros [r c]. unfold deserialize_location, deserialize_location_with, Location_str.
    simpl row. simpl col.
    change (py_str r ++ "," ++ py_str c)%string
      with (py_str r ++ String "," (py_str c))%string.
    rewrite split_at_first by apply py_str_no_comma.
    rewrite split_single by apply py_str_no_comma.
    simpl. now rewrite !py_int_py_str. }
  split; [apply H|].
  intros other E. pose proof (H other) as Ho. rewrite E, H in Ho. congruence.
Qed.

Example Location_str_sample :
  Location_str (mkLocation 1 (-1)) = "1,-1"%string
  /\ Location_str (mkLocation 1 100000000) = "1,100000000"%string.
Proof. split; reflexivity. Qed.

(** ** Event comparisons *)

(** X3: the six comparison methods of [Event] agree with one total
    preorder on timestamps: exactly one of [<], [==], [>] holds between
    two events, [<=] is [<] or [==], [>=] is the converse of [<=], [!=]
    is the negation of [==], and events of different kinds carrying the
    same timestamp compare equal. *)
Theorem event_comparisons_consistent (a b : Event) :
  (Event_lt a b = true /\ Event_eq a b = false /\ Event_gt a b = false
   \/ Event_lt a b = false /\ Event_eq a b = true /\ Event_gt a b = false
   \/ Event_lt a b = false /\ Event_eq a b = false /\ Event_gt a b = true)
  /\ Event_le a b = Event_lt a b || Event_eq a b
  /\ Event_ge a b = Event_le b a
  /\ Event_gt a b = Event_lt b a
  /\ Event_ne a b = negb (Event_eq a b)
  /\ (Event_eq a b = true <-> timestamp a = timestamp b).
Proof.
  unfold Event_ge, Event_ne, Event_gt, Event_le, Event_lt, Event_eq.
  generalize (timestamp a) (timestamp b). intros x y.
  rewrite <- Z.eqb_eq.
  destruct (Z.compare_spec x y) as [E | L | G].
  - subst y. rewrite Z.ltb_irrefl, Z.eqb_refl, Z.leb_refl. simpl. intuition congruence.
  - assert (H1 : (x <? y) = true) by (apply Z.ltb_lt; lia).
    assert (H2 : (x =? y) = false) by (apply Z.eqb_neq; lia).
    assert (H3 : (x <=? y) = true) by (apply Z.leb_le; lia).
    assert (H4 : (y <? x) = false) by (apply Z.ltb_ge; lia).
    assert (H5 : (y <=? x) = false) by (apply Z.leb_gt; lia).
    rewrite H1, H2, H3, H4, H5. simpl. intuition congruence.
  - assert (H1 : (x <? y) = false) by (apply Z.ltb_ge; lia).
    assert (H2 : (x =? y) = false) by (apply Z.eqb_neq; lia).
    assert (H3 : (x <=? y) = false) by (apply Z.leb_gt; lia).
    assert (H4 : (y <? x) = true) by (apply Z.ltb_lt; lia).
    assert (H5 : (y <=? x) = true) by (apply Z.leb_le; lia).
    rewrite H1, H2, H3, H4, H5. simpl. intuition congruence.
Qed.

(** ** Drivers *)

(** X4: for a driver that has a location and a non-zero speed, and a
    destination less than [2 ^ 52] blocks away, [get_travel_time] returns
    the integer nearest to the exact distance / speed (the even one on a
    tie): the rounding of the quotient to a float does not show in that
    range.  The time is not negative when the speed is positive, and zero
    when the driver is already at the destination. *)
Theorem travel_time_is_nearest_integer
        (self : Driver.t) (here dest : Location) :
  Driver.location self = Some here ->
  Driver.speed self <> 0 ->
  manhattan_distance here dest < 2 ^ 52 ->
  exists t,
    Driver.get_travel_time self dest = Ok t
    /\ 2 * Z.abs (manhattan_distance here dest - Driver.speed self * t)
       <= Z.abs (Driver.speed self)
    /\ (2 * Z.abs (manhattan_distance here dest - Driver.speed self * t)
        = Z.abs (Driver.speed self) -> Z.even t = true)
    /\ (0 < Driver.speed self -> 0 <= t)
    /\ (here = dest -> t = 0).
Proof.
  intros Hloc Hspeed Hsmall. unfold Driver.get_travel_time. rewrite Hloc.
  assert (Hd : 0 <= manhattan_distance here dest)
    by (unfold manhattan_distance; lia).
  destruct (@round_div_nearest (manhattan_distance here dest) (Driver.speed self))
    as (t & E & H1 & H2); [assumption | lia |].
  exists t. split; [exact E|]. split; [exact H1|]. split; [exact H2|]. split.
  - intros Hpos. eapply round_div_nonneg; eassumption.
  - intros <-. replace (manhattan_distance here here) with 0 in E
      by (unfold manhattan_distance; lia).
    rewrite round_div_zero in E by assumption. now injection E.
Qed.

Lemma travel_time_is_nearest_integer_witness :
  exists t,
    Driver.get_travel_time (Driver.init "D3" (mkLocation 1 30) 8)
                           (mkLocation 1 10) = Ok t
    /\ 2 * Z.abs (20 - 8 * t) <= 8
    /\ (2 * Z.abs (20 - 8 * t) = 8 -> Z.even t = true)
    /\ (0 < 8 -> 0 <= t)
    /\ (mkLocation 1 30 = mkLocation 1 10 -> t = 0).
Proof.
  apply (@travel_time_is_nearest_integer
           (Driver.init "D3" (mkLocation 1 30) 8) (mkLocation 1 30)
           (mkLocation 1 10)).
  - reflexivity.
  - simpl. lia.
  - vm_compute. reflexivity.
Defined.

(** X5: on two drivers that both have a location, [Driver.__eq__] never
    raises and is true exactly when id, location and speed agree; whether
    a driver is idle and where it is heading play no part, and the
    comparison gives the same answer in both directions. *)
Theorem driver_eq_compares_id_location_speed
        (a b : Driver.t) (la lb : Location) :
  Driver.location a = Some la ->
  Driver.location b = Some lb ->
  exists r,
    Driver.eq a b = Ok r
    /\ Driver.eq b a = Ok r
    /\ (r = true <->
        Driver.id a = Driver.id b /\ la = lb /\ Driver.speed a = Driver.speed b).
Proof.
  intros Ha Hb. unfold Driver.eq. rewrite Ha, Hb. simpl.
  rewrite (String.eqb_sym (Driver.id b)), (Z.eqb_sym (Driver.speed b)).
  assert (Hl : Location_eq lb la = Location_eq la lb).
  { unfold Location_eq. now rewrite (Z.eqb_sym (row lb)), (Z.eqb_sym (col lb)). }
  rewrite Hl.
  destruct (String.eqb_spec (Driver.id a) (Driver.id b)) as [Ei | Ei].
  - destruct (Location_eq la lb) eqn:El.
    + apply Location_eq_true in El.
      eexists. split; [reflexivity | split; [reflexivity | split]].
      * intros H. apply Z.eqb_eq in H. auto.
      * intros (_ & _ & H). now apply Z.eqb_eq.
    + exists false. split; [reflexivity | split; [reflexivity | split]].
      * discriminate.
      * intros (_ & H & _). apply Location_eq_true in H. congruence.
  - exists false. split; [reflexivity | split; [reflexivity | split]].
    + discriminate.
    + intros (H & _). contradiction.
Qed.

Lemma driver_eq_witness :
  exists r,
    Driver.eq sample_driver (fst (Driver.start_drive sample_driver (mkLocation 2 3)))
    = Ok r
    /\ Driver.eq (fst (Driver.start_drive sample_driver (mkLocation 2 3)))
                 sample_driver = Ok r
    /\ (r = true <->
        Driver.id sample_driver
        = Driver.id (fst (Driver.start_drive sample_driver (mkLocation 2 3)))
        /\ mkLocation 1 1 = mkLocation 1 1
        /\ Driver.speed sample_driver
           = Driver.speed (fst (Driver.start_drive sample_driver (mkLocation 2 3)))).
Proof.
  apply (@driver_eq_compares_id_location_speed
           sample_driver
           (fst (Driver.start_drive sample_driver (mkLocation 2 3)))
           (mkLocation 1 1) (mkLocation 1 1)); reflexivity.
Defined.

(** A driver at another place, or with another speed, is a different
    driver even under the same id. *)
Example driver_eq_samples :
  Driver.eq (Driver.init "bob" (mkLocation 1 1) 1)
            (Driver.init "bob" (mkLocation 1 1) 1) = Ok true
  /\ Driver.eq (Driver.init "bob" (mkLocation 1 1) 1)
               (Driver.init "bob" (mkLocation 3 3) 1) = Ok false
  /\ Driver.eq (Driver.init "bob" (mkLocation 1 1) 1)
               (Driver.init "bob" (mkLocation 1 1) 2) = Ok false.
Proof. repeat split. Qed.

(** X6: a drive or a ride that is started and then ended brings the
    driver to the place it was sent to: after [start_drive(loc)] the
    driver is busy, heading for [loc] and still where it was; after
    [end_drive] it is idle at [loc] without destination, with id and
    speed unchanged, and its travel time to [loc] is then 0.  The same
    holds for [start_ride(rider)] / [end_ride] and the rider's
    destination. The time returned by the start is the travel time the
    driver would have reported before the call. *)
Theorem start_then_end_arrives (self : Driver.t) (loc : Location) (rider : Rider.t) :
  let busy := fst (Driver.start_drive self loc) in
  let arrived := Driver.end_drive busy in
  let riding := fst (Driver.start_ride self rider) in
  let dropped := Driver.end_ride riding in
  (snd (Driver.start_drive self loc) = Driver.get_travel_time self loc
   /\ Driver.is_idle busy = false
   /\ Driver.destination busy = Some loc
   /\ Driver.location busy = Driver.location self
   /\ arrived = Driver.mk (Driver.id self) (Some loc) (Driver.speed self) true None
   /\ (Driver.speed self <> 0 -> Driver.get_travel_time arrived loc = Ok 0))
  /\ (snd (Driver.start_ride self rider)
      = Driver.get_travel_time self (Rider.destination rider)
      /\ Driver.is_idle riding = false
      /\ Driver.destination riding = Some (Rider.destination rider)
      /\ Driver.location riding = Driver.location self
      /\ dropped = Driver.mk (Driver.id self) (Some (Rider.destination rider))
                             (Driver.speed self) true None
      /\ (Driver.speed self <> 0 ->
          Driver.get_travel_time dropped (Rider.destination rider) = Ok 0)).
Proof.
  assert (Hzero : forall l s, s <> 0 ->
            Driver.get_travel_time (Driver.mk (Driver.id self) (Some l) s true None) l
            = Ok 0).
  { intros l s Hs. unfold Driver.get_travel_time.
    cbn [Driver.location Driver.speed].
    replace (manhattan_distance l l) with 0 by (unfold manhattan_distance; lia).
    now rewrite round_div_zero. }
  cbv zeta. unfold Driver.start_drive, Driver.start_ride, Driver.end_drive,
    Driver.end_ride. cbn -[round_div Driver.get_travel_time].
  split; (split; [reflexivity|]); repeat (split; [reflexivity|]);
    intros Hs; now apply Hzero.
Qed.

(** X7: the [end_drive] / [end_ride] precondition is not checked: called
    on a driver without destination they leave the driver idle with no
    location at all, after which [get_travel_time], [start_drive] and
    [start_ride] raise [AttributeError]. *)
Theorem end_without_destination_loses_location (self : Driver.t) :
  Driver.destination self = None ->
  forall (dest : Location) (rider : Rider.t),
    Driver.location (Driver.end_drive self) = None
    /\ Driver.location (Driver.end_ride self) = None
    /\ Driver.is_idle (Driver.end_drive self) = true
    /\ Driver.get_travel_time (Driver.end_drive self) dest = Raise AttributeError
    /\ Driver.get_travel_time (Driver.end_ride self) dest = Raise AttributeError
    /\ snd (Driver.start_drive (Driver.end_drive self) dest) = Raise AttributeError
    /\ snd (Driver.start_ride (Driver.end_ride self) rider) = Raise AttributeError.
Proof.
  intros H dest rider.
  unfold Driver.start_drive, Driver.start_ride, Driver.get_travel_time,
    Driver.end_drive, Driver.end_ride. simpl. rewrite H. repeat split.
Qed.

Lemma end_without_destination_witness :
  Driver.location (Driver.end_drive sample_driver) = None
  /\ Driver.location (Driver.end_ride sample_driver) = None
  /\ Driver.is_idle (Driver.end_drive sample_driver) = true
  /\ Driver.get_travel_time (Driver.end_drive sample_driver) (mkLocation 4 4)
     = Raise AttributeError
  /\ Driver.get_travel_time (Driver.end_ride sample_driver) (mkLocation 4 4)
     = Raise AttributeError
  /\ snd (Driver.start_drive (Driver.end_drive sample_driver) (mkLocation 4 4))
     = Raise AttributeError
  /\ snd (Driver.start_ride (Driver.end_ride sample_driver) sample_rider)
     = Raise AttributeError.
Proof.
  apply (@end_without_destination_loses_location sample_driver eq_refl
           (mkLocation 4 4) sample_rider).
Defined.

(** ** More on the priority queue *)

Section PriorityQueueMore.
Variable A : Type.
Variable lt : A -> A -> bool.

Lemma insert_splits item l :
  exists pre post,
    l = pre ++ post
    /\ Container.insert_before_greater lt item l = pre ++ item :: post
    /\ (forall x, In x pre -> lt item x = false)
    /\ match post with
       | [] => True
       | y :: _ => lt item y = true
       end.
Proof.
  induction l as [|x l (pre & post & -> & E & Hpre & Hpost)]; simpl.
  - exists [], []. repeat split; auto. intros x [].
  - destruct (lt item x) eqn:Ex.
    + exists [], (x :: pre ++ post). repeat split; auto. intros y [].
    + exists (x :: pre), post. rewrite E. repeat split; auto.
      intros y [<- | Hy]; auto.
Qed.

(** X8: whatever the comparison, [add] puts the new item immediately
    before the first item that is strictly greater than it (at the end
    when there is none) and keeps every other item, in the same order; so
    the queue grows by exactly one item, is not empty afterwards, and a
    following [remove] does not raise. *)
Theorem add_inserts_before_first_greater
        (self : Container.PriorityQueue A) (item : A) :
  (exists pre post,
      Container._items self = pre ++ post
      /\ Container._items (Container.add lt self item) = pre ++ item :: post
      /\ (forall x, In x pre -> lt item x = false)
      /\ match post with
         | [] => True
         | y :: _ => lt item y = true
         end)
  /\ List.length (Container._items (Container.add lt self item))
     = S (List.length (Container._items self))
  /\ Container.is_empty (Container.add lt self item) = false
  /\ exists x rest, Container.remove (Container.add lt self item) = Ok (x, rest).
Proof.
  rewrite add_items.
  destruct (insert_splits item (Container._items self))
    as (pre & post & E & E' & Hpre & Hpost).
  split; [now exists pre, post|].
  assert (Hlen : List.length (Container.insert_before_greater lt item
                                (Container._items self))
                 = S (List.length (Container._items self))).
  { rewrite E', E, !length_app. simpl. lia. }
  split; [exact Hlen|].
  unfold Container.is_empty, Container.remove. rewrite add_items.
  destruct (Container.insert_before_greater lt item (Container._items self));
    [discriminate|].
  split; [reflexivity | eauto].
Qed.

Hypothesis lt_asym : forall a b, lt a b = true -> lt b a = false.
Hypothesis lt_negtrans :
  forall a b c, lt a b = false -> lt b c = false -> lt a c = false.

(** X9: the representation invariant (the list is ascending) is kept by
    every operation, for an ordering that is a strict weak ordering: it
    holds for a new queue; [add] on an ascending queue gives an ascending
    queue, with the new item behind every item that is not greater than
    it and before every item that is greater; [remove] on an ascending
    queue returns an item that no remaining item is less than, and leaves
    an ascending queue. *)
Theorem queue_stays_ascending :
  Container.ascending lt (Container._items (Container.init A))
  /\ (forall self item,
         Container.ascending lt (Container._items self) ->
         Container.ascending lt (Container._items (Container.add lt self item))
         /\ exists pre post,
             Container._items self = pre ++ post
             /\ Container._items (Container.add lt self item) = pre ++ item :: post
             /\ (forall x, In x pre -> lt item x = false)
             /\ (forall y, In y post -> lt item y = true))
  /\ (forall self x rest,
         Container.ascending lt (Container._items self) ->
         Container.remove self = Ok (x, rest) ->
         Container.ascending lt (Container._items rest)
         /\ forall y, In y (Container._items rest) -> lt y x = false).
Proof.
  split; [constructor | split].
  - intros self item Hasc. rewrite add_items.
    split; [now apply insert_ascending|].
    destruct (insert_splits item (Container._items self))
      as (pre & post & E & E' & Hpre & Hpost).
    exists pre, post. repeat split; auto.
    destruct post as [|y post]; [intros ? []|].
    rewrite E in Hasc. unfold Container.ascending in Hasc.
    assert (Hy : StronglySorted (fun a b => lt b a = false) (y :: post)).
    { clear -Hasc. induction pre; simpl in *; auto. inversion Hasc; auto. }
    inversion Hy as [|? ? _ Hall]; subst. rewrite Forall_forall in Hall.
    intros z [<- | Hz]; auto.
    destruct (lt item z) eqn:Ez; auto.
    rewrite (lt_negtrans Ez (Hall z Hz)) in Hpost. discriminate.
  - intros [l] x rest Hasc. unfold Container.remove. simpl in *.
    destruct l as [|y l]; [discriminate|]. intros H. injection H as -> <-.
    simpl. inversion Hasc as [|? ? Hl Hall]; subst. split; auto.
    rewrite Forall_forall in Hall. auto.
Qed.

End PriorityQueueMore.

Lemma queue_stays_ascending_witness :
  let q := Container.add_all Event_lt (Container.init _) sample_events in
  let new := Pickup 1 5%nat 6%nat in
  Container.ascending Event_lt (Container._items q)
  /\ Container.ascending Event_lt (Container._items (Container.add Event_lt q new))
  /\ Container._items (Container.add Event_lt q new)
     = [DriverRequest 0 2%nat; RiderRequest 1 0%nat; DriverRequest 1 1%nat; new]
  /\ exists x rest, Container.remove q = Ok (x, rest)
                    /\ Container.ascending Event_lt (Container._items rest)
                    /\ forall y, In y (Container._items rest) -> Event_lt y x = false.
Proof.
  intros q new.
  pose proof (@queue_stays_ascending Event Event_lt Event_lt_asym Event_lt_negtrans)
    as (Hinit & Hadd & Hrem).
  assert (H1 : Container.ascending Event_lt
                 (Container._items
                    (Container.add Event_lt (Container.init _) (RiderRequest 1 0%nat))))
    by (apply Hadd, Hinit).
  assert (H2 : Container.ascending Event_lt
                 (Container._items
                    (Container.add Event_lt
                       (Container.add Event_lt (Container.init _) (RiderRequest 1 0%nat))
                       (DriverRequest 1 1%nat))))
    by (apply Hadd, H1).
  assert (Hq : Container.ascending Event_lt (Container._items q))
    by (apply (Hadd _ (DriverRequest 0 2%nat)), H2).
  split; [exact Hq|]. split; [apply Hadd, Hq|]. split; [reflexivity|].
  exists (DriverRequest 0 2%nat),
    (Container.mkPQ [RiderRequest 1 0%nat; DriverRequest 1 1%nat]).
  split; [reflexivity|].
  apply (Hrem q). { exact Hq. } reflexivity.
Defined.

(** ** More on the dispatcher *)

(** [get_travel_time] raises on a driver without location, on speed 0,
    and on a quotient beyond the floats. *)
Lemma get_travel_time_raises self dest e :
  Driver.get_travel_time self dest = Raise e ->
  e = AttributeError \/ e = ZeroDivisionError \/ e = OverflowError.
Proof.
  unfold Driver.get_travel_time.
  destruct (Driver.location self); [|intros H; injection H; auto].
  intros H. right. eapply round_div_raises, H.
Qed.

(** The scan only ever replaces the running pair by an idle driver of
    the pool and its travel time, strictly below the running minimum. *)
Lemma scan_sound w origin pool :
  forall curr_min curr_driver m best,
    Dispatcher.scan w origin pool curr_min curr_driver = Ok (m, best) ->
    (m = curr_min /\ best = curr_driver)
    \/ (exists d, best = Some d /\ In d pool
                  /\ Driver.is_idle (drivers w d) = true
                  /\ travel_time w origin d = Ok m /\ m < curr_min).
Proof.
  induction pool as [|x pool IH]; intros curr_min curr_driver m best; simpl.
  - intros H. injection H as <- <-. auto.
  - destruct (Driver.is_idle (drivers w x)) eqn:Ei.
    + destruct (travel_time w origin x) as [tx|] eqn:Et; [|discriminate].
      destruct (curr_min >? tx) eqn:Ec.
      * apply Z.gtb_lt in Ec. intros H.
        destruct (IH _ _ _ _ H) as [[-> ->] | (d & -> & Hin & Hi & Ht & Hlt)].
        -- right. exists x. repeat split; auto.
        -- right. exists d. repeat split; auto. lia.
      * intros H.
        destruct (IH _ _ _ _ H) as [[-> ->] | (d & -> & Hin & Hi & Ht & Hlt)]; auto.
        right. exists d. repeat split; auto.
    + intros H.
      destruct (IH _ _ _ _ H) as [[-> ->] | (d & -> & Hin & Hi & Ht & Hlt)]; auto.
      right. exists d. repeat split; auto.
Qed.

Lemma scan_raises w origin pool :
  forall curr_min curr_driver e,
    Dispatcher.scan w origin pool curr_min curr_driver = Raise e ->
    e = AttributeError \/ e = ZeroDivisionError \/ e = OverflowError.
Proof.
  induction pool as [|x pool IH]; intros curr_min curr_driver e; simpl;
    [discriminate|].
  destruct (Driver.is_idle (drivers w x)); [|apply IH].
  destruct (travel_time w origin x) as [tx|] eqn:Et.
  - destruct (curr_min >? tx); apply IH.
  - intros H. injection H as <-. eapply get_travel_time_raises, Et.
Qed.

(** X10: [request_driver] never changes a driver, a rider, the driver
    pool or the monitor log.  A driver it returns is registered, idle,
    and has a travel time below the initial [curr_min]; the rider is
    then taken out of the waiting pool if it was there (its first
    occurrence).  When it returns None the rider has been appended to the
    waiting pool.  When it raises ([AttributeError],
    [ZeroDivisionError] or [OverflowError], from a travel time) the store
    is exactly as before. *)
Theorem request_driver_matches_only_idle_registered_drivers
        (rider : RiderRef) (w : World) :
  let w' := fst (Dispatcher.request_driver rider w) in
  (drivers w' = drivers w /\ riders w' = riders w
   /\ _driver_list w' = _driver_list w /\ monitor w' = monitor w)
  /\ match snd (Dispatcher.request_driver rider w) with
     | Ok (Some d) =>
         In d (_driver_list w)
         /\ Driver.is_idle (drivers w d) = true
         /\ (exists t, travel_time w (Rider.origin (riders w rider)) d = Ok t
                       /\ t < Dispatcher.initial_min)
         /\ _rider_list w'
            = (if ref_in rider (_rider_list w)
               then list_remove rider (_rider_list w) else _rider_list w)
     | Ok None => _rider_list w' = _rider_list w ++ [rider]
     | Raise e =>
         w' = w
         /\ (e = AttributeError \/ e = ZeroDivisionError \/ e = OverflowError)
     end.
Proof.
  unfold Dispatcher.request_driver, bind, read, modify, ret. cbv zeta.
  destruct (Dispatcher.scan w (Rider.origin (riders w rider)) (_driver_list w)
              Dispatcher.initial_min None) as [[m best]|e] eqn:Es; simpl.
  - destruct (scan_sound _ _ _ _ _ Es) as [[-> ->] | (d & -> & Hin & Hi & Ht & Hlt)];
      simpl; [auto|].
    destruct (ref_in rider (_rider_list w)); simpl; repeat split; eauto.
  - split; auto. split; auto. eapply scan_raises, Es.
Qed.

Lemma Driver_eq_located a b la lb :
  Driver.location a = Some la -> Driver.location b = Some lb ->
  exists r, Driver.eq a b = Ok r /\ (r = true <-> same_driver a b).
Proof.
  intros Ha Hb. unfold Driver.eq, same_driver. rewrite Ha, Hb. simpl.
  destruct (String.eqb_spec (Driver.id a) (Driver.id b)) as [Ei | Ei].
  - destruct (Location_eq la lb) eqn:El.
    + apply Location_eq_true in El. subst lb.
      eexists. split; [reflexivity|]. rewrite Z.eqb_eq. tauto.
    + exists false. split; [reflexivity|]. split; [discriminate|].
      intros (_ & H & _). injection H as H. apply Location_eq_true in H.
      congruence.
  - exists false. split; [reflexivity|]. split; [discriminate|]. tauto.
Qed.

(** With located drivers the membership test does not raise, and finds
    the driver exactly when the list holds it or an equal driver. *)
Lemma driver_in_located w driver lst :
  located w lst -> Driver.location (drivers w driver) <> None ->
  exists b, Dispatcher.driver_in w driver lst = Ok b
            /\ (b = true <-> registered w driver lst).
Proof.
  intros Hl Hd. unfold registered.
  induction lst as [|e lst IH]; simpl.
  - exists false. split; auto. split; [discriminate|]. intros (e & [] & _).
  - destruct (Nat.eqb_spec e driver) as [-> | Hne].
    + exists true. split; auto. split; auto. intros _. exists driver. auto.
    + destruct (Driver.location (drivers w e)) as [le|] eqn:Ele;
        [|exfalso; apply (Hl e); simpl; auto].
      destruct (Driver.location (drivers w driver)) as [ld|] eqn:Eld;
        [|congruence].
      destruct (Driver_eq_located _ _ Ele Eld) as (r & -> & Hr).
      destruct r.
      * exists true. split; auto. split; auto. intros _. exists e.
        split; [now left|]. right. now apply Hr.
      * destruct IH as (b & -> & Hb).
        { intros x Hx. apply Hl. now right. }
        exists b. split; auto. rewrite Hb. split.
        -- intros (x & Hx & Hsame). exists x. split; [now right | auto].
        -- intros (x & [<- | Hx] & Hsame); [|eauto].
           destruct Hsame as [-> | Hsame]; [contradiction|].
           apply Hr in Hsame. discriminate.
Qed.

(** [request_rider] step by step, once the membership test has
    answered. *)
Lemma request_rider_unfold driver w b :
  Dispatcher.driver_in w driver (_driver_list w) = Ok b ->
  Dispatcher.request_rider driver w
  = let w1 := if b then w
              else set_driver_list (_driver_list w ++ [driver]) w in
    match _rider_list w with
    | [] => (w1, Ok None)
    | rider :: waiting =>
        let w2 := set_rider_list waiting w1 in
        let started :=
          Driver.start_drive (drivers w driver) (Rider.origin (riders w rider)) in
        (set_driver driver (fst started) w2,
         match snd started with
         | Ok _ => Ok (Some rider)
         | Raise e => Raise e
         end)
    end.
Proof.
  intros Hin. unfold Dispatcher.request_rider, bind, read, modify, ret, start_drive.
  rewrite Hin. destruct b; simpl;
    destruct (_rider_list w) as [|rider waiting]; simpl; auto;
    destruct (Driver.get_travel_time _ _); reflexivity.
Qed.

Lemma NoDup_snoc (x : nat) lst : NoDup lst -> ~ In x lst -> NoDup (lst ++ [x]).
Proof.
  intros Hnd Hx. induction Hnd as [|y l Hy Hl IH]; simpl.
  - constructor; [intros [] | constructor].
  - constructor.
    + rewrite in_app_iff. simpl. intros [H | [H | []]]; [contradiction|].
      subst. apply Hx. now left.
    + apply IH. intros H. apply Hx. now right.
Qed.

(** What [request_rider] leaves behind, whether it returns or raises. *)
Lemma request_rider_effect driver w b :
  Dispatcher.driver_in w driver (_driver_list w) = Ok b ->
  let w' := fst (Dispatcher.request_rider driver w) in
  _driver_list w' = (if b then _driver_list w else _driver_list w ++ [driver])
  /\ _rider_list w' = tl (_rider_list w)
  /\ riders w' = riders w
  /\ (forall e, e <> driver -> drivers w' e = drivers w e)
  /\ same_driver (drivers w' driver) (drivers w driver)
  /\ (_rider_list w = [] ->
      drivers w' = drivers w
      /\ snd (Dispatcher.request_rider driver w) = Ok None).
Proof.
  intros Hin. erewrite request_rider_unfold by exact Hin. cbv zeta.
  unfold same_driver.
  destruct (_rider_list w) as [|rider waiting] eqn:Ew; destruct b; simpl;
    rewrite ?Nat.eqb_refl; repeat split; auto; try discriminate.
  all: intros e He; apply Nat.eqb_neq in He; now rewrite He.
Qed.

(** X11: when the pool's drivers and the requesting driver all have a
    location, [request_rider] registers the driver unless the pool
    already holds it or a driver equal to it: the pool is left as it was
    in that case and gets the driver appended otherwise, so afterwards the
    driver is registered, earlier registrations keep their places, and a
    pool without repetitions stays without.  When no rider is waiting it
    returns None and changes no driver and no rider. *)
Theorem request_rider_registers_driver (driver : DriverRef) (w : World) :
  located w (_driver_list w) ->
  Driver.location (drivers w driver) <> None ->
  let w' := fst (Dispatcher.request_rider driver w) in
  (registered w driver (_driver_list w) -> _driver_list w' = _driver_list w)
  /\ (~ registered w driver (_driver_list w) ->
      _driver_list w' = _driver_list w ++ [driver])
  /\ registered w' driver (_driver_list w')
  /\ (NoDup (_driver_list w) -> NoDup (_driver_list w'))
  /\ (_rider_list w = [] ->
      snd (Dispatcher.request_rider driver w) = Ok None
      /\ drivers w' = drivers w /\ riders w' = riders w /\ _rider_list w' = []).
Proof.
  intros Hl Hd w'.
  edestruct driver_in_located as (b & Hin & Hb); [exact Hl | exact Hd |].
  edestruct request_rider_effect
    as (Hlist & Hwait & Hriders & Hothers & Hself & Hempty); [exact Hin|].
  fold w' in Hlist, Hwait, Hriders, Hothers, Hself, Hempty.
  split; [|split; [|split; [|split]]].
  - intros Hr. apply Hb in Hr. subst b. exact Hlist.
  - intros Hr. destruct b; [exfalso; apply Hr, Hb; reflexivity | exact Hlist].
  - rewrite Hlist. destruct b.
    + destruct (proj1 Hb eq_refl) as (e & He & Hs). exists e. split; auto.
      destruct Hs as [-> | Hs]; [now left|].
      destruct (Nat.eq_dec e driver) as [-> | Hne]; [now left | right].
      rewrite (Hothers e Hne). unfold same_driver in *.
      destruct Hs as (H1 & H2 & H3), Hself as (H4 & H5 & H6).
      repeat split; congruence.
    + exists driver. split; [apply in_or_app; right; now left | now left].
  - intros Hnd. rewrite Hlist. destruct b; auto. apply NoDup_snoc; auto.
    intros Hx. assert (false = true); [|discriminate].
    apply Hb. exists driver. auto.
  - intros Hnil. destruct (Hempty Hnil) as [Hd' Hres].
    repeat split; auto. rewrite Hwait, Hnil. reflexivity.
Qed.

Lemma request_rider_registers_driver_witness :
  let w' := fst (Dispatcher.request_rider 0%nat sample_world) in
  (registered sample_world 0%nat [] -> _driver_list w' = [])
  /\ (~ registered sample_world 0%nat [] -> _driver_list w' = [0%nat])
  /\ registered w' 0%nat (_driver_list w')
  /\ (NoDup (_driver_list sample_world) -> NoDup (_driver_list w'))
  /\ (_rider_list sample_world = [] ->
      snd (Dispatcher.request_rider 0%nat sample_world) = Ok None
      /\ drivers w' = drivers sample_world /\ riders w' = riders sample_world
      /\ _rider_list w' = []).
Proof.
  apply (@request_rider_registers_driver 0%nat sample_world).
  - intros e [].
  - simpl. discriminate.
Defined.

(** X12: with riders waiting, [request_rider] hands out the rider that
    has waited longest: it returns the first rider of the waiting pool,
    leaves the others waiting in their order, and sends the driver on its
    way: the driver is busy, heading for that rider's origin, still at
    its location.  No rider and no other driver is changed.  (The pool's
    drivers and the requesting driver have a location, and the driver's
    travel time to the rider is within the floats: its speed is not zero
    and the distance is below [2 ^ 1023] times the speed.) *)
Theorem request_rider_hands_out_first_waiting
        (driver : DriverRef) (w : World) (rider : RiderRef)
        (waiting : list RiderRef) (here : Location) :
  _rider_list w = rider :: waiting ->
  located w (_driver_list w) ->
  Driver.location (drivers w driver) = Some here ->
  in_float_range (manhattan_distance here (Rider.origin (riders w rider)))
                 (Driver.speed (drivers w driver)) ->
  let w' := fst (Dispatcher.request_rider driver w) in
  snd (Dispatcher.request_rider driver w) = Ok (Some rider)
  /\ _rider_list w' = waiting
  /\ drivers w' driver
     = Driver.mk (Driver.id (drivers w driver)) (Some here)
                 (Driver.speed (drivers w driver)) false
                 (Some (Rider.origin (riders w rider)))
  /\ (forall d, d <> driver -> drivers w' d = drivers w d)
  /\ riders w' = riders w.
Proof.
  intros Hwait Hl Hloc Hrange w'.
  edestruct driver_in_located as (b & Hin & _);
    [exact Hl | rewrite Hloc; discriminate |].
  destruct (round_div_in_range Hrange) as [t Et].
  subst w'. erewrite request_rider_unfold by exact Hin. cbv zeta.
  rewrite Hwait. unfold Driver.start_drive, Driver.get_travel_time.
  cbn -[round_div manhattan_distance].
  rewrite Hloc, Et, Nat.eqb_refl.
  destruct b; simpl; repeat split; auto;
    intros d Hd; apply Nat.eqb_neq in Hd; now rewrite Hd.
Qed.

Lemma request_rider_hands_out_first_waiting_witness :
  let w := set_rider_list [4%nat; 2%nat] sample_world in
  let w' := fst (Dispatcher.request_rider 0%nat w) in
  snd (Dispatcher.request_rider 0%nat w) = Ok (Some 4%nat)
  /\ _rider_list w' = [2%nat]
  /\ drivers w' 0%nat
     = Driver.mk "D1" (Some (mkLocation 1 1)) 1 false (Some (mkLocation 1 1))
  /\ (forall d, d <> 0%nat -> drivers w' d = drivers w d)
  /\ riders w' = riders w.
Proof.
  intros w.
  apply (@request_rider_hands_out_first_waiting 0%nat w 4%nat [2%nat]
           (mkLocation 1 1)).
  - reflexivity.
  - intros e [].
  - reflexivity.
  - vm_compute. reflexivity.
Defined.

(** X13: [request_rider] is not undone when it fails.  For a driver with
    speed 0 and a rider waiting, the call raises [ZeroDivisionError]
    (from the travel time), but by then the first waiting rider has been
    taken out of the waiting pool and the driver has been marked busy. *)
Theorem request_rider_failure_drops_rider
        (driver : DriverRef) (w : World) (rider : RiderRef)
        (waiting : list RiderRef) (here : Location) :
  _rider_list w = rider :: waiting ->
  located w (_driver_list w) ->
  Driver.location (drivers w driver) = Some here ->
  Driver.speed (drivers w driver) = 0 ->
  let w' := fst (Dispatcher.request_rider driver w) in
  snd (Dispatcher.request_rider driver w) = Raise ZeroDivisionError
  /\ _rider_list w' = waiting
  /\ Driver.is_idle (drivers w' driver) = false
  /\ Driver.destination (drivers w' driver) = Some (Rider.origin (riders w rider)).
Proof.
  intros Hwait Hl Hloc Hspeed w'.
  edestruct driver_in_located as (b & Hin & _);
    [exact Hl | rewrite Hloc; discriminate |].
  subst w'. erewrite request_rider_unfold by exact Hin. cbv zeta.
  rewrite Hwait. unfold Driver.start_drive, Driver.get_travel_time.
  cbn -[round_div manhattan_distance].
  rewrite Hloc, Hspeed, round_div_by_zero, Nat.eqb_refl.
  destruct b; simpl; repeat split; auto.
Qed.

Lemma request_rider_failure_drops_rider_witness :
  let w := set_rider_list [4%nat; 2%nat]
             (set_driver 0%nat (Driver.init "D0" (mkLocation 1 1) 0) sample_world) in
  let w' := fst (Dispatcher.request_rider 0%nat w) in
  snd (Dispatcher.request_rider 0%nat w) = Raise ZeroDivisionError
  /\ _rider_list w' = [2%nat]
  /\ Driver.is_idle (drivers w' 0%nat) = false
  /\ Driver.destination (drivers w' 0%nat) = Some (mkLocation 1 1).
Proof.
  intros w.
  apply (@request_rider_failure_drops_rider 0%nat w 4%nat [2%nat]
           (mkLocation 1 1)).
  - reflexivity.
  - intros e [].
  - reflexivity.
  - reflexivity.
Defined.

Lemma request_driver_no_idle rider w :
  (forall d, In d (_driver_list w) -> Driver.is_idle (drivers w d) = false) ->
  Dispatcher.request_driver rider w
  = (set_rider_list (_rider_list w ++ [rider]) w, Ok None).
Proof.
  intros Hbusy. unfold Dispatcher.request_driver, bind, read, modify, ret.
  rewrite scan_no_idle by assumption. reflexivity.
Qed.

Lemma request_rider_pop driver w rider waiting here :
  _rider_list w = rider :: waiting ->
  located w (_driver_list w) ->
  Driver.location (drivers w driver) = Some here ->
  in_float_range (manhattan_distance here (Rider.origin (riders w rider)))
                 (Driver.speed (drivers w driver)) ->
  snd (Dispatcher.request_rider driver w) = Ok (Some rider)
  /\ _rider_list (fst (Dispatcher.request_rider driver w)) = waiting.
Proof.
  intros Hwait Hl Hloc Hrange.
  edestruct driver_in_located as (b & Hin & _);
    [exact Hl | rewrite Hloc; discriminate |].
  destruct (round_div_in_range Hrange) as [t Et].
  erewrite request_rider_unfold by exact Hin. cbv zeta.
  rewrite Hwait. unfold Driver.start_drive, Driver.get_travel_time.
  cbn -[round_div manhattan_distance].
  rewrite Hloc, Et.
  destruct b; simpl; auto.
Qed.

(** X14: riders are served in the order they asked.  When no registered
    driver is idle, a rider's [request_driver] returns None and queues the
    rider; the next [request_rider] by a driver (with a location, and a
    travel time within the floats to the rider it is given: a non-zero
    speed and a distance below [2 ^ 1023] times the speed) then returns
    the rider that has waited longest: the first of those already
    waiting, or the new rider if nobody was, and the rest keep waiting
    with the new rider last. *)
Theorem waiting_riders_are_served_in_arrival_order
        (rider : RiderRef) (driver : DriverRef) (w : World) (here : Location) :
  (forall d, In d (_driver_list w) -> Driver.is_idle (drivers w d) = false) ->
  located w (_driver_list w) ->
  Driver.location (drivers w driver) = Some here ->
  in_float_range
    (manhattan_distance here (Rider.origin (riders w (hd rider (_rider_list w)))))
    (Driver.speed (drivers w driver)) ->
  let w1 := fst (Dispatcher.request_driver rider w) in
  let w2 := fst (Dispatcher.request_rider driver w1) in
  snd (Dispatcher.request_driver rider w) = Ok None
  /\ snd (Dispatcher.request_rider driver w1)
     = Ok (Some (hd rider (_rider_list w)))
  /\ _rider_list w2 = tl (_rider_list w ++ [rider]).
Proof.
  intros Hbusy Hl Hloc Hspeed. cbv zeta.
  rewrite (request_driver_no_idle rider w Hbusy). simpl fst. simpl snd.
  split; [reflexivity|].
  set (w1 := set_rider_list (_rider_list w ++ [rider]) w).
  assert (Hw : _rider_list w1
               = hd rider (_rider_list w) :: tl (_rider_list w ++ [rider])).
  { unfold w1. simpl. now destruct (_rider_list w). }
  edestruct (@request_rider_pop driver w1) as [H1 H2];
    [exact Hw | exact Hl | exact Hloc | exact Hspeed |].
  split; assumption.
Qed.

Lemma waiting_riders_are_served_in_arrival_order_witness :
  let w := set_rider_list [4%nat; 2%nat] sample_world in
  let w1 := fst (Dispatcher.request_driver 7%nat w) in
  let w2 := fst (Dispatcher.request_rider 0%nat w1) in
  snd (Dispatcher.request_driver 7%nat w) = Ok None
  /\ snd (Dispatcher.request_rider 0%nat w1) = Ok (Some 4%nat)
  /\ _rider_list w2 = [2%nat; 7%nat].
Proof.
  intros w.
  apply (@waiting_riders_are_served_in_arrival_order 7%nat 0%nat w (mkLocation 1 1)).
  - intros d [].
  - intros e [].
  - reflexivity.
  - vm_compute. reflexivity.
Defined.

(** ** Invariants of the event loop *)

Lemma preserves_ret {A} P (a : A) : preserves P (ret a).
Proof. intros w H. exact H. Qed.

Lemma preserves_read {A} P (f : World -> A) : preserves P (read f).
Proof. intros w H. exact H. Qed.

Lemma preserves_pure {A} P (f : World -> result A) :
  preserves P (fun w => (w, f w)).
Proof. intros w H. exact H. Qed.

Lemma preserves_modify P (f : World -> World) :
  (forall w, P w -> P (f w)) -> preserves P (modify f).
Proof. intros H w Hw. now apply H. Qed.

Lemma preserves_bind {A B} P (m : M A) (k : A -> M B) :
  preserves P m -> (forall a, preserves P (k a)) -> preserves P (bind m k).
Proof.
  intros Hm Hk w Hw. unfold bind. specialize (Hm w Hw).
  destruct (m w) as [w' [a|e]]; simpl in *; [|assumption].
  now apply Hk.
Qed.

Lemma preserves_start_drive P d loc :
  (forall w, P w -> P (set_driver d (fst (Driver.start_drive (drivers w d) loc)) w)) ->
  preserves P (start_drive d loc).
Proof. intros H w Hw. unfold start_drive. simpl. now apply H. Qed.

Lemma preserves_start_ride P d r :
  (forall w, P w ->
             P (set_driver d (fst (Driver.start_ride (drivers w d) (riders w r))) w)) ->
  preserves P (start_ride d r).
Proof. intros H w Hw. unfold start_ride. simpl. now apply H. Qed.

(** Splits a computation into its primitive steps; [close] proves that
    one step on the store keeps the property. *)
Ltac preserve_with close :=
  repeat first
    [ apply preserves_ret
    | apply preserves_read
    | apply preserves_pure
    | apply preserves_bind; [|intros ?]
    | apply preserves_modify; intros ? ?; close
    | apply preserves_start_drive; intros ? ?; close
    | apply preserves_start_ride; intros ? ?; close
    | match goal with
      | |- preserves _ (match ?x with _ => _ end) => destruct x
      end ].

Ltac unfold_events :=
  unfold do, RiderRequest_do, DriverRequest_do, Cancellation_do, Pickup_do,
    Dropoff_do, Dispatcher.request_driver, Dispatcher.request_rider,
    Dispatcher.cancel_ride, end_drive, end_ride, set_status.

Lemma consistent_set_driver d v w :
  drivers_consistent w -> Driver.invariant v ->
  drivers_consistent (set_driver d v w).
Proof.
  intros Hw Hv d'. simpl. destruct (Nat.eqb d' d); [exact Hv | apply Hw].
Qed.

Ltac close_consistent :=
  first [ assumption
        | apply consistent_set_driver;
          [ assumption
          | first [ apply invariant_idle; reflexivity
                  | apply invariant_busy; simpl; [reflexivity | discriminate] ] ] ].

(** X15: every event keeps every driver consistent: if each driver has a
    destination exactly while it is busy, this is still so after
    executing any event, also one that raises. *)
Theorem events_keep_drivers_consistent (e : Event) (w : World) :
  drivers_consistent w -> drivers_consistent (fst (do e w)).
Proof.
  revert w. change (preserves drivers_consistent (do e)).
  destruct e; unfold_events; preserve_with close_consistent.
Qed.

Lemma events_keep_drivers_consistent_witness :
  drivers_consistent
    (fst (do (DriverRequest 3 0%nat) (set_rider_list [4%nat] sample_world))).
Proof.
  apply (@events_keep_drivers_consistent (DriverRequest 3 0%nat)
           (set_rider_list [4%nat] sample_world)).
  intros d. apply invariant_idle; reflexivity.
Defined.

Lemma identities_set_driver w0 d v w :
  same_identities w0 w ->
  Driver.id v = Driver.id (drivers w d) ->
  Driver.speed v = Driver.speed (drivers w d) ->
  same_identities w0 (set_driver d v w).
Proof.
  intros [Hd Hr] Hid Hsp. split; [|exact Hr].
  intros d'. simpl. destruct (Nat.eqb_spec d' d) as [-> | _]; [|apply Hd].
  rewrite Hid, Hsp. apply Hd.
Qed.

Lemma identities_set_status w0 r s w :
  same_identities w0 w ->
  same_identities w0 (set_rider r (Rider.set_status (riders w r) s) w).
Proof.
  intros [Hd Hr]. split; [exact Hd|].
  intros r'. simpl. destruct (Nat.eqb_spec r' r) as [-> | _]; apply Hr.
Qed.

Ltac close_identities :=
  first [ assumption
        | apply identities_set_status; assumption
        | apply identities_set_driver; [assumption | reflexivity | reflexivity] ].

(** X16: no event changes who a driver or a rider is: after executing
    any event every driver has the id and speed it had before, and every
    rider the identifier, patience, origin and destination it had before
    (only a rider's status, and a driver's location, destination and
    idleness, ever change). *)
Theorem events_keep_identities (e : Event) (w : World) :
  same_identities w (fst (do e w)).
Proof.
  assert (H0 : same_identities w w) by (split; intros; repeat split).
  revert H0. generalize w at 1 3. intros w0. revert w.
  change (preserves (same_identities w0) (do e)).
  destruct e; unfold_events; preserve_with close_identities.
Qed.

(** A membership test that answers False has met no entry that is the
    driver itself. *)
Lemma driver_in_false w driver lst :
  Dispatcher.driver_in w driver lst = Ok false -> ~ In driver lst.
Proof.
  induction lst as [|e lst IH]; simpl; [tauto|].
  destruct (Nat.eqb_spec e driver) as [-> | Hne]; [discriminate|].
  destruct (Driver.eq (drivers w e) (drivers w driver)) as [[|]|];
    try discriminate.
  intros H [E | Hin]; [contradiction | now apply IH].
Qed.

Lemma request_rider_raise driver w e :
  Dispatcher.driver_in w driver (_driver_list w) = Raise e ->
  Dispatcher.request_rider driver w = (w, Raise e).
Proof.
  intros H. unfold Dispatcher.request_rider, bind. now rewrite H.
Qed.

(** The driver pool is the earlier pool [l0], possibly with [d] appended. *)
Lemma request_rider_grows_pool l0 d driver :
  driver = d ->
  preserves (fun w => _driver_list w = l0
                      \/ (_driver_list w = l0 ++ [d] /\ ~ In d l0))
            (Dispatcher.request_rider driver).
Proof.
  intros -> w Hw.
  destruct (Dispatcher.driver_in w d (_driver_list w)) as [b|e] eqn:Hin.
  - edestruct request_rider_effect as (Hlist & _); [exact Hin|].
    rewrite Hlist. destruct b; [exact Hw|].
    apply driver_in_false in Hin.
    destruct Hw as [E | [E _]]; rewrite E in *.
    + right. auto.
    + exfalso. apply Hin, in_or_app. right. now left.
  - now rewrite (request_rider_raise _ _ Hin).
Qed.

(** As [preserve_with], with [whole] tried first on every step, for calls
    that keep the property only as a whole. *)
Ltac preserve_via whole close :=
  repeat first
    [ whole
    | apply preserves_ret
    | apply preserves_read
    | apply preserves_pure
    | apply preserves_bind; [|intros ?]
    | apply preserves_modify; intros ? ?; close
    | apply preserves_start_drive; intros ? ?; close
    | apply preserves_start_ride; intros ? ?; close
    | match goal with
      | |- preserves _ (match ?x with _ => _ end) => destruct x
      end ].

Ltac unfold_events_keep_request_rider :=
  unfold do, RiderRequest_do, DriverRequest_do, Cancellation_do, Pickup_do,
    Dropoff_do, Dispatcher.request_driver,
    Dispatcher.cancel_ride, end_drive, end_ride, set_status.

(** X17: the driver pool only ever grows at its end, and only by a
    driver asking for work: after any event the pool is the pool before,
    unchanged, unless the event is a DriverRequest, which may append its
    own driver, and only if that driver was not in the pool already.  So
    registered drivers keep their places and the pool never holds the
    same driver twice. *)
Theorem driver_pool_only_grows (e : Event) (w : World) :
  let w' := fst (do e w) in
  (_driver_list w' = _driver_list w
   \/ exists t d, e = DriverRequest t d
                  /\ _driver_list w' = _driver_list w ++ [d]
                  /\ ~ In d (_driver_list w))
  /\ (NoDup (_driver_list w) -> NoDup (_driver_list w')).
Proof.
  cbv zeta.
  assert (Hcases : _driver_list (fst (do e w)) = _driver_list w
                   \/ exists t d, e = DriverRequest t d
                                  /\ _driver_list (fst (do e w)) = _driver_list w ++ [d]
                                  /\ ~ In d (_driver_list w)).
  { assert (Hsame : forall l0 e',
               (forall t d, e' <> DriverRequest t d) ->
               preserves (fun w => _driver_list w = l0) (do e')).
    { intros l0 e' Hne.
      destruct e' as [t r | t d | t r | t d r | t d r];
        [| exfalso; now apply (Hne t d) | | |];
        unfold_events; preserve_with assumption. }
    assert (Hgrow : forall l0 t d,
               preserves (fun w => _driver_list w = l0
                                   \/ (_driver_list w = l0 ++ [d] /\ ~ In d l0))
                         (do (DriverRequest t d))).
    { intros l0 t d. unfold_events_keep_request_rider.
      preserve_via ltac:(apply request_rider_grows_pool; reflexivity) assumption. }
    destruct e as [t r | t d | t r | t d r | t d r];
      try (left; apply (Hsame (_driver_list w)); [discriminate | reflexivity]).
    destruct (Hgrow (_driver_list w) t d w) as [E | [E Hn]]; [now left | now left |].
    right. exists t, d. auto. }
  split; [exact Hcases|].
  intros Hnd. destruct Hcases as [-> | (t & d & _ & -> & Hn)]; auto.
  now apply NoDup_snoc.
Qed.

(** X18: a rider's status only ever leaves WAITING, and only through
    the rider's own events: executing an event either leaves the status
    of a rider as it was, or the rider was WAITING and is now SATISFIED
    by a Pickup of that rider, or was WAITING and is now CANCELLED by a
    Cancellation of that rider.  So SATISFIED and CANCELLED are final and
    no rider ever becomes WAITING again. *)
Theorem rider_status_only_leaves_waiting (e : Event) (w : World) (r : RiderRef) :
  let s := Rider.status (riders w r) in
  let s' := Rider.status (riders (fst (do e w)) r) in
  s' = s
  \/ (s = WAITING /\ s' = SATISFIED /\ exists t d, e = Pickup t d r)
  \/ (s = WAITING /\ s' = CANCELLED /\ exists t, e = Cancellation t r).
Proof.
  cbv zeta. destruct e as [t r0 | t d | t r0 | t d r0 | t d r0]; simpl do.
  - left. now rewrite frame_RiderRequest_do.
  - left. now rewrite frame_DriverRequest_do.
  - unfold Cancellation_do, Dispatcher.cancel_ride, bind, read, modify, ret,
      set_status. simpl.
    destruct (Rider.status (riders w r0)) eqn:Es; simpl; auto;
      destruct (ref_in r0 (_rider_list w)); simpl;
      destruct (Nat.eqb_spec r r0) as [-> | Hne]; simpl; auto;
      rewrite Es; eauto 6.
  - unfold Pickup_do, bind, read, modify, ret, end_drive, start_ride,
      set_status. simpl.
    destruct (Rider.status (riders w r0)) eqn:Es; simpl; auto.
    destruct (Driver.get_travel_time _ _); simpl; auto.
    destruct (Nat.eqb_spec r r0) as [-> | Hne]; simpl; auto.
    rewrite Es. right. left. repeat split. now exists t, d.
  - left. now rewrite frame_Dropoff_do.
Qed.

Lemma incl_list_remove x lst (L : list nat) :
  incl lst L -> incl (list_remove x lst) L.
Proof.
  intros H. induction lst as [|y lst IH]; simpl; [exact H|].
  destruct (Nat.eqb y x).
  - intros z Hz. apply H. now right.
  - intros z [<- | Hz].
    + apply H. now left.
    + apply IH; [|exact Hz]. intros u Hu. apply H. now right.
Qed.

Lemma request_rider_shrinks_waiting L driver :
  preserves (fun w => incl (_rider_list w) L) (Dispatcher.request_rider driver).
Proof.
  intros w Hw.
  destruct (Dispatcher.driver_in w driver (_driver_list w)) as [b|e] eqn:Hin.
  - edestruct request_rider_effect as (_ & Hwait & _); [exact Hin|].
    rewrite Hwait. destruct (_rider_list w); simpl; auto.
    intros z Hz. apply Hw. now right.
  - now rewrite (request_rider_raise _ _ Hin).
Qed.

Ltac close_waiting :=
  first [ assumption
        | apply incl_list_remove; assumption
        | apply incl_app; [assumption | intros ? [<- | []]; assumption] ].

(** X19: the waiting pool gains nobody but a rider asking for a driver:
    every rider in the waiting pool after an event was in it before,
    unless the event is that rider's own RiderRequest. *)
Theorem waiting_pool_gains_only_the_requesting_rider
        (e : Event) (w : World) (x : RiderRef) :
  In x (_rider_list (fst (do e w))) ->
  In x (_rider_list w) \/ exists t, e = RiderRequest t x.
Proof.
  assert (Hreq : forall L t r,
             In r L ->
             preserves (fun w => incl (_rider_list w) L) (do (RiderRequest t r))).
  { intros L t r Hr. unfold_events. preserve_with close_waiting. }
  assert (Hother : forall L e',
             (forall t r, e' <> RiderRequest t r) ->
             preserves (fun w => incl (_rider_list w) L) (do e')).
  { intros L e' Hne.
    destruct e' as [t r | t d | t r | t d r | t d r];
      [exfalso; now apply (Hne t r) | | | |];
      unfold_events_keep_request_rider;
      preserve_via ltac:(apply request_rider_shrinks_waiting) close_waiting. }
  intros Hx.
  destruct e as [t r | t d | t r | t d r | t d r];
    try (left; eapply (Hother (_rider_list w));
         [ | apply incl_refl | exact Hx]; discriminate).
  assert (Hin : In x (r :: _rider_list w)).
  { eapply (Hreq (r :: _rider_list w) t r); [now left | | exact Hx].
    apply incl_tl, incl_refl. }
  destruct Hin as [<- | Hin]; eauto.
Qed.

Lemma waiting_pool_gains_only_the_requesting_rider_witness :
  In 7%nat (_rider_list sample_world) \/ exists t, RiderRequest 5 7%nat = RiderRequest t 7%nat.
Proof.
  apply (@waiting_pool_gains_only_the_requesting_rider
           (RiderRequest 5 7%nat) sample_world 7%nat).
  simpl. now left.
Defined.

(** ** What events schedule *)

Lemma bind_ok {A B} (m : M A) (k : A -> M B) w w'' b :
  bind m k w = (w'', Ok b) ->
  exists a w', m w = (w', Ok a) /\ k a w' = (w'', Ok b).
Proof.
  unfold bind. destruct (m w) as [w' [a|e]]; [eauto | discriminate].
Qed.

Lemma positive_set_driver d v w :
  positive_parameters w -> Driver.speed v = Driver.speed (drivers w d) ->
  positive_parameters (set_driver d v w).
Proof.
  intros [Hr Hd] Hv. split; [exact Hr|]. intros d'. simpl.
  destruct (Nat.eqb_spec d' d) as [-> | _]; [|apply Hd]. rewrite Hv. apply Hd.
Qed.

Lemma positive_set_status r s w :
  positive_parameters w ->
  positive_parameters (set_rider r (Rider.set_status (riders w r) s) w).
Proof.
  intros [Hr Hd]. split; [|exact Hd]. intros r'. simpl.
  destruct (Nat.eqb_spec r' r) as [-> | _]; apply Hr.
Qed.

Ltac close_positive :=
  first [ assumption
        | apply positive_set_status; assumption
        | apply positive_set_driver; [assumption | reflexivity] ].

Lemma positive_request_driver r : preserves positive_parameters (Dispatcher.request_driver r).
Proof. unfold_events. preserve_with close_positive. Qed.

Lemma positive_request_rider d : preserves positive_parameters (Dispatcher.request_rider d).
Proof. unfold_events. preserve_with close_positive. Qed.

Lemma positive_end_drive d : preserves positive_parameters (end_drive d).
Proof. unfold_events. preserve_with close_positive. Qed.

(** With positive speed a started drive or ride takes no negative time. *)
Lemma start_drive_nonneg d loc w w' tt :
  positive_parameters w -> start_drive d loc w = (w', Ok tt) ->
  0 <= tt /\ positive_parameters w'.
Proof.
  intros Hw. unfold start_drive, Driver.start_drive, Driver.get_travel_time.
  cbn -[round_div manhattan_distance].
  destruct (Driver.location (drivers w d)) as [here|]; [|discriminate].
  destruct (round_div _ _) as [t|] eqn:Et; [|discriminate].
  intros H. injection H as <- <-. split.
  - eapply round_div_nonneg; [| |exact Et];
      [unfold manhattan_distance; lia | apply Hw].
  - now apply positive_set_driver.
Qed.

Lemma start_ride_nonneg d r w w' tt :
  positive_parameters w -> start_ride d r w = (w', Ok tt) ->
  0 <= tt /\ positive_parameters w'.
Proof.
  intros Hw. unfold start_ride, Driver.start_ride, Driver.get_travel_time.
  cbn -[round_div manhattan_distance].
  destruct (Driver.location (drivers w d)) as [here|]; [|discriminate].
  destruct (round_div _ _) as [t|] eqn:Et; [|discriminate].
  intros H. injection H as <- <-. split.
  - eapply round_div_nonneg; [| |exact Et];
      [unfold manhattan_distance; lia | apply Hw].
  - now apply positive_set_driver.
Qed.

Lemma preserved_at {A} P (m : M A) w w' r :
  preserves P m -> P w -> m w = (w', r) -> P w'.
Proof. intros Hm Hw E. specialize (Hm w Hw). now rewrite E in Hm. Qed.

Lemma modify_at f w w' (u : unit) : modify f w = (w', Ok u) -> w' = f w.
Proof. unfold modify. congruence. Qed.

Lemma read_at {A} (f : World -> A) w w' a : read f w = (w', Ok a) -> w' = w /\ a = f w.
Proof. unfold read. intros H. injection H as <- <-. auto. Qed.

Lemma ret_at {A} (x : A) w w' a : ret x w = (w', Ok a) -> w' = w /\ a = x.
Proof. unfold ret. intros H. injection H as <- <-. auto. Qed.

(** X20: time never runs backwards.  When no rider has negative patience
    and every driver has positive speed, every follow-up event returned
    by an event's [do] carries a timestamp that is not earlier than the
    event's own. *)
Theorem follow_up_events_are_not_earlier
        (e : Event) (w : World) (events : list Event) :
  positive_parameters w ->
  snd (do e w) = Ok events ->
  Forall (fun e' => timestamp e <= timestamp e') events.
Proof.
  intros Hw Hres. destruct (do e w) as [w' res] eqn:E. simpl in Hres. subst res.
  destruct e as [t r | t d | t r | t d r | t d r]; simpl timestamp; simpl in E.
  - unfold RiderRequest_do in E.
    apply bind_ok in E as (u & w1 & E1 & E). apply modify_at in E1.
    apply bind_ok in E as (found & w2 & E2 & E).
    assert (H2 : positive_parameters w2).
    { eapply preserved_at; [apply positive_request_driver | | exact E2].
      subst w1. exact Hw. }
    apply bind_ok in E as (evs & w3 & E3 & E).
    apply bind_ok in E as (patience & w4 & E4 & E).
    apply read_at in E4 as [-> ->]. apply ret_at in E as [-> ->].
    assert (H3 : positive_parameters w3
                 /\ Forall (fun e' => t <= timestamp e') evs).
    { destruct found as [drv|].
      - apply bind_ok in E3 as (origin & w5 & E5 & E3).
        apply read_at in E5 as [-> ->].
        apply bind_ok in E3 as (tt & w6 & E6 & E3).
        apply ret_at in E3 as [-> ->].
        destruct (start_drive_nonneg H2 E6) as [Htt H6].
        split; auto. repeat constructor. simpl. lia.
      - apply ret_at in E3 as [-> ->]. split; auto. }
    destruct H3 as [[Hp _] Hevs].
    apply Forall_app. split; auto. repeat constructor. simpl.
    specialize (Hp r). lia.
  - unfold DriverRequest_do in E.
    apply bind_ok in E as (u & w1 & E1 & E). apply modify_at in E1.
    apply bind_ok in E as (found & w2 & E2 & E).
    assert (H2 : positive_parameters w2).
    { eapply preserved_at; [apply positive_request_rider | | exact E2].
      subst w1. exact Hw. }
    destruct found as [rdr|].
    + apply bind_ok in E as (origin & w5 & E5 & E).
      apply read_at in E5 as [-> ->].
      apply bind_ok in E as (tt & w6 & E6 & E).
      apply ret_at in E as [-> ->].
      destruct (start_drive_nonneg H2 E6) as [Htt H6].
      repeat constructor. simpl. lia.
    + apply ret_at in E as [-> ->]. constructor.
  - unfold Cancellation_do in E.
    apply bind_ok in E as (st & w1 & _ & E).
    apply bind_ok in E as (u & w2 & _ & E).
    apply ret_at in E as [-> ->]. constructor.
  - unfold Pickup_do in E.
    apply bind_ok in E as (u & w1 & E1 & E).
    assert (H1 : positive_parameters w1).
    { eapply preserved_at; [apply positive_end_drive | exact Hw | exact E1]. }
    apply bind_ok in E as (u2 & w2 & E2 & E). apply modify_at in E2.
    apply bind_ok in E as (st & w3 & E3 & E). apply read_at in E3 as [-> ->].
    destruct (Status_eqb (Rider.status (riders w2 r)) WAITING).
    + apply bind_ok in E as (tt & w4 & E4 & E).
      assert (H2 : positive_parameters w2) by (subst w2; exact H1).
      destruct (start_ride_nonneg H2 E4) as [Htt _].
      apply bind_ok in E as (u5 & w5 & _ & E).
      apply bind_ok in E as (u6 & w6 & _ & E).
      apply ret_at in E as [-> ->]. repeat constructor. simpl. lia.
    + destruct (Status_eqb (Rider.status (riders w2 r)) CANCELLED);
        apply ret_at in E as [-> ->]; repeat constructor. simpl. lia.
  - unfold Dropoff_do in E.
    apply bind_ok in E as (u & w1 & _ & E).
    apply bind_ok in E as (u2 & w2 & _ & E).
    apply bind_ok in E as (u3 & w3 & _ & E).
    apply ret_at in E as [-> ->]. repeat constructor. simpl. lia.
Qed.

Lemma follow_up_events_are_not_earlier_witness :
  Forall (fun e' => timestamp (RiderRequest 1 0%nat) <= timestamp e')
         [Pickup 1 0%nat 0%nat; Cancellation 101 0%nat].
Proof.
  apply (@follow_up_events_are_not_earlier
           (RiderRequest 1 0%nat) (set_driver_list [0%nat] sample_world)).
  - split; intros; simpl; lia.
  - reflexivity.
Defined.

(** The three ways [request_driver] can end. *)
Lemma request_driver_outcome rider w :
  match Dispatcher.request_driver rider w with
  | (w', Ok (Some d)) =>
      In d (_driver_list w)
      /\ Driver.is_idle (drivers w d) = true
      /\ (exists t, travel_time w (Rider.origin (riders w rider)) d = Ok t)
      /\ w' = (if ref_in rider (_rider_list w)
               then set_rider_list (list_remove rider (_rider_list w)) w
               else w)
  | (w', Ok None) => w' = set_rider_list (_rider_list w ++ [rider]) w
  | (w', Raise _) => w' = w
  end.
Proof.
  unfold Dispatcher.request_driver, bind, read, modify, ret.
  destruct (Dispatcher.scan w (Rider.origin (riders w rider)) (_driver_list w)
              Dispatcher.initial_min None) as [[m best]|e] eqn:Es; simpl; auto.
  destruct (scan_sound _ _ _ _ _ Es) as [[-> ->] | (d & -> & Hin & Hi & Ht & Hlt)];
    simpl; auto.
  destruct (ref_in rider (_rider_list w)); simpl; eauto 6.
Qed.

(** X21: what a RiderRequest schedules.  When [RiderRequest.do] returns,
    the last event it returns is the rider's Cancellation, stamped with
    the request time plus the rider's patience, and either that is all,
    the rider has been put last in the waiting pool and no driver has
    changed; or it is preceded by exactly one Pickup for a driver that
    was registered and idle, stamped with the request time plus that
    driver's travel time to the rider's origin, and that driver is now
    busy heading for the rider's origin while the rider's first entry
    in the waiting pool, if it had one, has been taken out (the other
    entries, further entries of the same rider included, stay in their
    order).  No rider is changed. *)
Theorem rider_request_schedules
        (t : Z) (rider : RiderRef) (w : World) (events : list Event) :
  snd (do (RiderRequest t rider) w) = Ok events ->
  let w' := fst (do (RiderRequest t rider) w) in
  let cancel := Cancellation (t + Rider.patience (riders w rider)) rider in
  riders w' = riders w
  /\ ((events = [cancel]
       /\ _rider_list w' = _rider_list w ++ [rider]
       /\ drivers w' = drivers w)
      \/ exists d tt,
          events = [Pickup (t + tt) d rider; cancel]
          /\ In d (_driver_list w)
          /\ Driver.is_idle (drivers w d) = true
          /\ travel_time w (Rider.origin (riders w rider)) d = Ok tt
          /\ Driver.is_idle (drivers w' d) = false
          /\ Driver.destination (drivers w' d) = Some (Rider.origin (riders w rider))
          /\ Driver.location (drivers w' d) = Driver.location (drivers w d)
          /\ (forall d', d' <> d -> drivers w' d' = drivers w d')
          /\ _rider_list w'
             = (if ref_in rider (_rider_list w)
                then list_remove rider (_rider_list w) else _rider_list w)).
Proof.
  intros Hres. cbv zeta. split; [apply frame_RiderRequest_do|].
  destruct (do (RiderRequest t rider) w) as [w' res] eqn:E.
  simpl in Hres. subst res. simpl in E. unfold RiderRequest_do in E.
  apply bind_ok in E as (u & w1 & E1 & E). apply modify_at in E1.
  apply bind_ok in E as (found & w2 & E2 & E).
  pose proof (request_driver_outcome rider w1) as Hout. rewrite E2 in Hout.
  apply bind_ok in E as (evs & w3 & E3 & E).
  apply bind_ok in E as (patience & w4 & E4 & E).
  apply read_at in E4 as [-> ->]. apply ret_at in E as [-> ->].
  destruct found as [d|].
  - destruct Hout as (Hin & Hidle & (tt0 & Htt0) & Hw2).
    apply bind_ok in E3 as (origin & w5 & E5 & E3).
    apply read_at in E5 as [-> ->].
    apply bind_ok in E3 as (tt & w6 & E6 & E3).
    apply ret_at in E3 as [-> ->].
    unfold start_drive in E6.
    assert (Hd2 : drivers w2 = drivers w) by (subst w2 w1; now destruct (ref_in _ _)).
    assert (Hr2 : riders w2 = riders w) by (subst w2 w1; now destruct (ref_in _ _)).
    assert (Hl2 : _rider_list w2
                  = (if ref_in rider (_rider_list w)
                     then list_remove rider (_rider_list w) else _rider_list w))
      by (subst w2 w1; simpl; now destruct (ref_in _ _)).
    rewrite Hd2, Hr2 in E6. simpl in E6.
    injection E6 as <- Ett.
    right. exists d, tt. simpl. rewrite Hr2, Nat.eqb_refl. simpl.
    subst w1. simpl in *.
    repeat split; auto.
    intros d' Hne. apply Nat.eqb_neq in Hne. now rewrite Hne, Hd2.
  - apply ret_at in E3 as [-> ->]. left. subst w2 w1. simpl. auto.
Qed.

Lemma rider_request_schedules_witness :
  let w := set_driver_list [0%nat] sample_world in
  let w' := fst (do (RiderRequest 1 0%nat) w) in
  let cancel := Cancellation (1 + Rider.patience (riders w 0%nat)) 0%nat in
  riders w' = riders w
  /\ (([Pickup 1 0%nat 0%nat; Cancellation 101 0%nat] = [cancel]
       /\ _rider_list w' = _rider_list w ++ [0%nat]
       /\ drivers w' = drivers w)
      \/ exists d tt,
          [Pickup 1 0%nat 0%nat; Cancellation 101 0%nat]
          = [Pickup (1 + tt) d 0%nat; cancel]
          /\ In d (_driver_list w)
          /\ Driver.is_idle (drivers w d) = true
          /\ travel_time w (Rider.origin (riders w 0%nat)) d = Ok tt
          /\ Driver.is_idle (drivers w' d) = false
          /\ Driver.destination (drivers w' d) = Some (Rider.origin (riders w 0%nat))
          /\ Driver.location (drivers w' d) = Driver.location (drivers w d)
          /\ (forall d', d' <> d -> drivers w' d' = drivers w d')
          /\ _rider_list w'
             = (if ref_in 0%nat (_rider_list w)
                then list_remove 0%nat (_rider_list w) else _rider_list w)).
Proof.
  intros w.
  apply (@rider_request_schedules 1 0%nat w
           [Pickup 1 0%nat 0%nat; Cancellation 101 0%nat]).
  reflexivity.
Defined.

(** X22: what a DriverRequest schedules.  When [DriverRequest.do]
    returns, either nobody was waiting, it returns no event and no driver
    is changed; or it returns exactly one Pickup, for the rider that was
    first in the waiting pool, stamped with the request time plus the
    driver's travel time to that rider's origin; that rider has left the
    waiting pool, the others keep their order, and the driver is busy
    heading for the rider's origin.  No rider is changed. *)
Theorem driver_request_schedules
        (t : Z) (driver : DriverRef) (w : World) (events : list Event) :
  snd (do (DriverRequest t driver) w) = Ok events ->
  let w' := fst (do (DriverRequest t driver) w) in
  riders w' = riders w
  /\ ((events = [] /\ _rider_list w = [] /\ _rider_list w' = []
       /\ drivers w' = drivers w)
      \/ exists rider waiting tt,
          _rider_list w = rider :: waiting
          /\ events = [Pickup (t + tt) driver rider]
          /\ travel_time w (Rider.origin (riders w rider)) driver = Ok tt
          /\ _rider_list w' = waiting
          /\ Driver.is_idle (drivers w' driver) = false
          /\ Driver.destination (drivers w' driver)
             = Some (Rider.origin (riders w rider))
          /\ Driver.location (drivers w' driver) = Driver.location (drivers w driver)
          /\ (forall d, d <> driver -> drivers w' d = drivers w d)).
Proof.
  intros Hres. cbv zeta. split; [apply frame_DriverRequest_do|].
  destruct (do (DriverRequest t driver) w) as [w' res] eqn:E.
  simpl in Hres. subst res. simpl in E. unfold DriverRequest_do in E.
  apply bind_ok in E as (u & w1 & E1 & E). apply modify_at in E1.
  apply bind_ok in E as (found & w2 & E2 & E).
  destruct (Dispatcher.driver_in w1 driver (_driver_list w1)) as [b|ex] eqn:Hin;
    [|rewrite (request_rider_raise _ _ Hin) in E2; discriminate].
  erewrite request_rider_unfold in E2 by exact Hin. cbv zeta in E2.
  assert (Hl1 : _rider_list w1 = _rider_list w) by now subst w1.
  assert (Hd1 : drivers w1 = drivers w) by now subst w1.
  assert (Hr1 : riders w1 = riders w) by now subst w1.
  rewrite Hl1, Hd1, Hr1 in E2.
  destruct (_rider_list w) as [|rider waiting] eqn:Ew.
  - injection E2 as <- <-. apply ret_at in E as [-> ->]. left.
    destruct b; simpl; auto.
  - unfold Driver.start_drive, Driver.get_travel_time in E2.
    cbn -[round_div manhattan_distance] in E2.
    destruct (Driver.location (drivers w driver)) as [here|] eqn:El;
      [|destruct b; discriminate].
    destruct (round_div (manhattan_distance here (Rider.origin (riders w rider)))
                        (Driver.speed (drivers w driver))) as [t0|] eqn:Es;
      [|destruct b; discriminate].
    injection E2 as <- <-.
    apply bind_ok in E as (origin & w5 & E5 & E). apply read_at in E5 as [-> ->].
    apply bind_ok in E as (tt & w6 & E6 & E). apply ret_at in E as [-> ->].
    unfold start_drive, Driver.start_drive, Driver.get_travel_time in E6.
    cbn -[round_div manhattan_distance] in E6. rewrite Nat.eqb_refl in E6.
    cbn -[round_div manhattan_distance] in E6.
    assert (Hrr : riders (if b then w1
                          else set_driver_list (_driver_list w1 ++ [driver]) w1)
                  = riders w) by (destruct b; assumption).
    rewrite Hrr, Es in E6. injection E6 as <- <-.
    right. exists rider, waiting. eexists. split; [reflexivity|].
    split; [reflexivity|].
    unfold Driver.get_travel_time. rewrite El, Es.
    cbn -[round_div manhattan_distance].
    rewrite Nat.eqb_refl. cbn -[round_div manhattan_distance].
    repeat split; auto.
    intros d Hne. apply Nat.eqb_neq in Hne. rewrite Hne.
    destruct b; simpl; now rewrite ?Hd1.
Qed.

Lemma driver_request_schedules_witness :
  let w := set_rider_list [4%nat; 2%nat] sample_world in
  let w' := fst (do (DriverRequest 3 0%nat) w) in
  riders w' = riders w
  /\ (([Pickup 3 0%nat 4%nat] = [] /\ _rider_list w = [] /\ _rider_list w' = []
       /\ drivers w' = drivers w)
      \/ exists rider waiting tt,
          _rider_list w = rider :: waiting
          /\ [Pickup 3 0%nat 4%nat] = [Pickup (3 + tt) 0%nat rider]
          /\ travel_time w (Rider.origin (riders w rider)) 0%nat = Ok tt
          /\ _rider_list w' = waiting
          /\ Driver.is_idle (drivers w' 0%nat) = false
          /\ Driver.destination (drivers w' 0%nat)
             = Some (Rider.origin (riders w rider))
          /\ Driver.location (drivers w' 0%nat) = Driver.location (drivers w 0%nat)
          /\ (forall d, d <> 0%nat -> drivers w' d = drivers w d)).
Proof.
  intros w.
  apply (@driver_request_schedules 3 0%nat w [Pickup 3 0%nat 4%nat]).
  reflexivity.
Defined.

(** X23: a Cancellation that fires for a rider that has not been picked
    up (WAITING, or CANCELLED already) returns no event and does not
    raise; it sets the rider's status to CANCELLED, takes the rider's
    first occurrence out of the waiting pool if it is there (the others
    keep their order), and changes no other rider, no driver and not the
    driver pool. *)
Theorem cancellation_of_unserved_rider
        (t : Z) (rider : RiderRef) (w : World) :
  Rider.status (riders w rider) <> SATISFIED ->
  let w' := fst (do (Cancellation t rider) w) in
  snd (do (Cancellation t rider) w) = Ok []
  /\ riders w' rider = Rider.set_status (riders w rider) CANCELLED
  /\ (forall r, r <> rider -> riders w' r = riders w r)
  /\ _rider_list w'
     = (if ref_in rider (_rider_list w)
        then list_remove rider (_rider_list w) else _rider_list w)
  /\ (~ In rider (_rider_list w) -> _rider_list w' = _rider_list w)
  /\ (count_occ Nat.eq_dec (_rider_list w) rider = 1%nat ->
      ~ In rider (_rider_list w'))
  /\ drivers w' = drivers w
  /\ _driver_list w' = _driver_list w.
Proof.
  intros Hst. cbv zeta. simpl do.
  unfold Cancellation_do, Dispatcher.cancel_ride, bind, read, modify, ret,
    set_status. simpl.
  assert (Hstatus : Status_eqb (Rider.status (riders w rider)) SATISFIED = false)
    by (destruct (Rider.status (riders w rider)); [reflexivity | reflexivity | congruence]).
  rewrite Hstatus. simpl.
  destruct (ref_in rider (_rider_list w)) eqn:Ein; simpl;
    rewrite !Nat.eqb_refl.
  - split; [reflexivity|]. split; [reflexivity|].
    split; [intros r Hr; apply Nat.eqb_neq in Hr; now rewrite Hr|].
    split; [reflexivity|].
    split; [intros Hn; apply ref_in_In in Ein; contradiction|].
    split; [intros Hc; now apply list_remove_single|].
    split; reflexivity.
  - split; [reflexivity|]. split; [reflexivity|].
    split; [intros r Hr; apply Nat.eqb_neq in Hr; now rewrite Hr|].
    split; [reflexivity|].
    split; [reflexivity|].
    split; [intros _; now apply ref_in_false|].
    split; reflexivity.
Qed.

Lemma cancellation_of_unserved_rider_witness :
  let w := set_rider_list [4%nat; 0%nat; 2%nat] sample_world in
  let w' := fst (do (Cancellation 100 0%nat) w) in
  snd (do (Cancellation 100 0%nat) w) = Ok []
  /\ riders w' 0%nat = Rider.set_status (riders w 0%nat) CANCELLED
  /\ (forall r, r <> 0%nat -> riders w' r = riders w r)
  /\ _rider_list w' = [4%nat; 2%nat]
  /\ (~ In 0%nat (_rider_list w) -> _rider_list w' = _rider_list w)
  /\ (count_occ Nat.eq_dec (_rider_list w) 0%nat = 1%nat ->
      ~ In 0%nat (_rider_list w'))
  /\ drivers w' = drivers w
  /\ _driver_list w' = _driver_list w.
Proof.
  intros w.
  apply (@cancellation_of_unserved_rider 100 0%nat w).
  simpl. discriminate.
Defined.

(** X24: a Pickup that finds its rider CANCELLED (the driver has a
    destination) ends the drive and sends the driver to look for work:
    the driver is idle at its former destination, without destination,
    and the only event returned is a DriverRequest for that driver at the
    Pickup's own time; no rider and neither pool is changed. *)
Theorem pickup_of_cancelled_rider_requests_again
        (t : Z) (driver : DriverRef) (rider : RiderRef) (w : World)
        (there : Location) :
  Rider.status (riders w rider) = CANCELLED ->
  Driver.destination (drivers w driver) = Some there ->
  let w' := fst (do (Pickup t driver rider) w) in
  snd (do (Pickup t driver rider) w) = Ok [DriverRequest t driver]
  /\ drivers w' driver
     = Driver.mk (Driver.id (drivers w driver)) (Some there)
                 (Driver.speed (drivers w driver)) true None
  /\ (forall d, d <> driver -> drivers w' d = drivers w d)
  /\ riders w' = riders w
  /\ _rider_list w' = _rider_list w
  /\ _driver_list w' = _driver_list w.
Proof.
  intros Hst Hdest. cbv zeta. simpl do.
  unfold Pickup_do, bind, read, modify, ret, end_drive, Driver.end_drive. simpl.
  rewrite Hst, Hdest. simpl. rewrite Nat.eqb_refl.
  repeat split; auto.
  intros d Hne. apply Nat.eqb_neq in Hne. now rewrite Hne.
Qed.

Lemma pickup_of_cancelled_rider_witness :
  let w := set_driver 0%nat (fst (Driver.start_drive sample_driver (mkLocation 2 3)))
             (set_rider 0%nat (Rider.set_status sample_rider CANCELLED)
                        sample_world) in
  let w' := fst (do (Pickup 7 0%nat 0%nat) w) in
  snd (do (Pickup 7 0%nat 0%nat) w) = Ok [DriverRequest 7 0%nat]
  /\ drivers w' 0%nat = Driver.mk "D1" (Some (mkLocation 2 3)) 1 true None
  /\ (forall d, d <> 0%nat -> drivers w' d = drivers w d)
  /\ riders w' = riders w
  /\ _rider_list w' = _rider_list w
  /\ _driver_list w' = _driver_list w.
Proof.
  intros w.
  apply (@pickup_of_cancelled_rider_requests_again 7 0%nat 0%nat w (mkLocation 2 3));
    reflexivity.
Defined.

(** ** Reading the event file *)

Lemma rbind_ok {A B} (r : result A) (k : A -> result B) b :
  rbind r k = Ok b -> exists a, r = Ok a /\ k a = Ok b.
Proof. destruct r as [a|e]; simpl; [eauto | discriminate]. Qed.

Lemma subscript_0 {A} (l : list A) x :
  subscript l 0 = Ok x -> exists rest, l = x :: rest.
Proof.
  unfold subscript. destruct l; simpl; [discriminate|].
  intros H. injection H as ->. eauto.
Qed.

Lemma subscript_S {A} (y : A) l n x :
  subscript (y :: l) (S n) = Ok x -> subscript l n = Ok x.
Proof. unfold subscript. simpl. auto. Qed.

(** What one pass of the loop does when it does not raise. *)
Lemma parse_line_cases st line st1 :
  parse_line st line = Ok st1 ->
  (skipped line = true /\ st1 = st)
  \/ (skipped line = false
      /\ exists token0 kind rest t,
          words (strip line) = token0 :: kind :: rest
          /\ py_int token0 = Ok t
          /\ ((kind = "DriverRequest"%string
               /\ exists id rest', rest = id :: rest'
                  /\ ((exists d, dict_index id (ef_drivers st) = Some d
                                 /\ st1 = append_event st (Some (DriverRequest t d)))
                      \/ (dict_index id (ef_drivers st) = None
                          /\ exists location speed,
                              st1 = mkEventFile
                                      (ef_events st
                                       ++ [Some (DriverRequest t (List.length (ef_drivers st)))])
                                      (ef_drivers st ++ [(id, Driver.init id location speed)])
                                      (ef_riders st))))
              \/ (kind = "RiderRequest"%string
                  /\ exists id rest', rest = id :: rest'
                     /\ ((exists r, dict_index id (ef_riders st) = Some r
                                    /\ st1 = append_event st (Some (RiderRequest t r)))
                         \/ (dict_index id (ef_riders st) = None
                             /\ exists patience origin destination,
                                 st1 = mkEventFile
                                         (ef_events st
                                          ++ [Some (RiderRequest t (List.length (ef_riders st)))])
                                         (ef_drivers st)
                                         (ef_riders st
                                          ++ [(id, Rider.init id patience origin destination)]))))
              \/ (kind <> "DriverRequest"%string /\ kind <> "RiderRequest"%string
                  /\ st1 = append_event st None))).
Proof.
  unfold parse_line, skipped. cbv zeta.
  destruct (String.eqb (strip line) "" || starts_with_hash (strip line))%bool.
  { intros H. injection H as <-. now left. }
  intros H. right. split; [reflexivity|].
  apply rbind_ok in H as (token0 & E0 & H).
  apply subscript_0 in E0 as (rest0 & Ew). rewrite Ew in H.
  apply rbind_ok in H as (t & Et & H).
  apply rbind_ok in H as (kind & Ek & H).
  apply subscript_S, subscript_0 in Ek as (rest & ->).
  exists token0, kind, rest, t. split; [exact Ew|]. split; [exact Et|].
  destruct (String.eqb_spec kind "DriverRequest") as [Hk | Hk].
  - left. split; [exact Hk|].
    apply rbind_ok in H as (id & Ei & H).
    apply subscript_S, subscript_S, subscript_0 in Ei as (rest' & ->).
    exists id, rest'. split; [reflexivity|].
    destruct (dict_index id (ef_drivers st)) as [d|].
    + left. exists d. injection H as <-. auto.
    + right. split; [reflexivity|].
      apply rbind_ok in H as (token3 & _ & H).
      apply rbind_ok in H as (location & _ & H).
      apply rbind_ok in H as (token4 & _ & H).
      apply rbind_ok in H as (speed & _ & H).
      injection H as <-. eauto.
  - right. destruct (String.eqb_spec kind "RiderRequest") as [Hk' | Hk'].
    + left. split; [exact Hk'|].
      apply rbind_ok in H as (id & Ei & H).
      apply subscript_S, subscript_S, subscript_0 in Ei as (rest' & ->).
      exists id, rest'. split; [reflexivity|].
      destruct (dict_index id (ef_riders st)) as [r|].
      * left. exists r. injection H as <-. auto.
      * right. split; [reflexivity|].
        apply rbind_ok in H as (token5 & _ & H).
        apply rbind_ok in H as (patience & _ & H).
        apply rbind_ok in H as (token3 & _ & H).
        apply rbind_ok in H as (origin & _ & H).
        apply rbind_ok in H as (token4 & _ & H).
        apply rbind_ok in H as (destination & _ & H).
        injection H as <-. eauto.
    + right. injection H as <-. auto.
Qed.

Lemma parse_lines_events lines :
  forall st0 st,
    parse_lines st0 lines = Ok st ->
    exists events,
      ef_events st = ef_events st0 ++ events
      /\ Forall2 event_of_record (records lines) events.
Proof.
  induction lines as [|line lines IH]; intros st0 st; simpl.
  - intros H. injection H as <-. exists []. rewrite app_nil_r. split; constructor.
  - intros H. apply rbind_ok in H as (st1 & E1 & H).
    destruct (IH _ _ H) as (events & Eev & Hall).
    unfold records in *. simpl.
    apply parse_line_cases in E1
      as [[Hskip ->] | (Hskip & token0 & kind & rest & t & Ew & Et & Hkind)];
      rewrite Hskip; simpl.
    + exists events. auto.
    + assert (Hone : exists event,
                 ef_events st1 = ef_events st0 ++ [event]
                 /\ event_of_record line event).
      { unfold event_of_record.
        destruct Hkind as [(Hk & id & rest' & -> & Hcase)
                          | [(Hk & id & rest' & -> & Hcase) | (Hk1 & Hk2 & ->)]].
        - destruct Hcase as [(d & _ & ->) | (_ & location & speed & ->)];
            eexists; (split; [reflexivity|]);
            exists token0, kind, (id :: rest'), t; auto.
        - destruct Hcase as [(r & _ & ->) | (_ & p & o & d & ->)];
            eexists; (split; [reflexivity|]);
            exists token0, kind, (id :: rest'), t; auto.
        - eexists; (split; [reflexivity|]).
          exists token0, kind, rest, t; auto. }
      destruct Hone as (event & E & Hrec).
      exists (event :: events). rewrite Eev, E, <- app_assoc. split; auto.
Qed.

(** X25: reading the event file gives one entry per record, in file
    order.  Blank lines and lines starting with [#] (after stripping)
    contribute nothing, so leaving them out changes nothing; every other
    line, when the file is read without error, contributes exactly one
    entry: a DriverRequest or RiderRequest stamped with the integer in the
    line's first field when the second field names that kind, and None
    when it names neither. *)
Theorem create_event_list_one_entry_per_record (lines : list string) :
  create_event_list (records lines) = create_event_list lines
  /\ forall st,
      create_event_list lines = Ok st ->
      Forall2 event_of_record (records lines) (ef_events st)
      /\ List.length (ef_events st) = List.length (records lines).
Proof.
  split.
  - unfold create_event_list. generalize (mkEventFile [] [] []).
    induction lines as [|line lines IH]; intros st0; [reflexivity|].
    unfold records in *. simpl.
    destruct (skipped line) eqn:Hs; simpl.
    + rewrite IH. unfold parse_line. unfold skipped in Hs. cbv zeta.
      rewrite Hs. reflexivity.
    + destruct (parse_line st0 line); simpl; auto.
  - intros st H. apply parse_lines_events in H as (events & E & Hall).
    simpl in E. subst events. split; [exact Hall|].
    symmetry. eapply Forall2_length, Hall.
Qed.

Example create_event_list_sample :
  option_map ef_events
    (match create_event_list sample_file with Ok st => Some st | Raise _ => None end)
  = Some [Some (DriverRequest 0 0%nat); Some (RiderRequest 10 0%nat);
          Some (DriverRequest 12 0%nat)].
Proof. reflexivity. Qed.

Lemma dict_index_Some {V} key (d : list (string * V)) i :
  dict_index key d = Some i -> exists v, nth_error d i = Some (key, v).
Proof.
  revert i. induction d as [|[k v] d IH]; intros i; simpl; [discriminate|].
  destruct (String.eqb k key) eqn:E.
  - intros H. injection H as <-. apply String.eqb_eq in E as ->. now exists v.
  - destruct (dict_index key d) as [j|]; simpl; [|discriminate].
    intros H. injection H as <-. simpl. now apply IH.
Qed.

Lemma dict_index_None {V} key (d : list (string * V)) :
  dict_index key d = None -> ~ In key (map fst d).
Proof.
  induction d as [|[k v] d IH]; simpl; [tauto|].
  destruct (String.eqb k key) eqn:E; [discriminate|].
  destruct (dict_index key d); simpl; [discriminate|].
  intros _ [-> | H].
  - rewrite String.eqb_refl in E. discriminate.
  - now apply IH.
Qed.

Lemma NoDup_app_one {A} (l : list A) a :
  NoDup l -> ~ In a l -> NoDup (l ++ [a]).
Proof.
  intros Hl Ha. apply (Permutation_NoDup (Permutation_cons_append l a)).
  now constructor.
Qed.

Lemma nth_error_extends {A} (l ds : list A) i x :
  nth_error l i = Some x -> nth_error (l ++ ds) i = Some x.
Proof.
  intros H. rewrite nth_error_app1; [exact H|].
  apply nth_error_Some. congruence.
Qed.

Lemma nth_error_snoc {A} (l : list A) a :
  nth_error (l ++ [a]) (List.length l) = Some a.
Proof. rewrite nth_error_app2, Nat.sub_diag; auto. Qed.

Lemma cache_extends_refl st : cache_extends st st.
Proof. split; exists []; now rewrite app_nil_r. Qed.

Lemma cache_extends_trans st0 st1 st2 :
  cache_extends st0 st1 -> cache_extends st1 st2 -> cache_extends st0 st2.
Proof.
  intros [[ds1 D1] [rs1 R1]] [[ds2 D2] [rs2 R2]]. split.
  - exists (ds1 ++ ds2). now rewrite D2, D1, app_assoc.
  - exists (rs1 ++ rs2). now rewrite R2, R1, app_assoc.
Qed.

Lemma refers_to_extends st0 st line event :
  cache_extends st0 st -> refers_to st0 line event -> refers_to st line event.
Proof.
  intros [[ds D] [rs R]]. destruct event as [[t r|t d|t r|t d r|t d r]|]; simpl; auto.
  - intros (id & x & E & N & I). exists id, x. rewrite R.
    split; [exact E|]. split; [|exact I]. now apply nth_error_extends.
  - intros (id & x & E & N & I). exists id, x. rewrite D.
    split; [exact E|]. split; [|exact I]. now apply nth_error_extends.
Qed.

Lemma cache_extends_append_event st event :
  cache_extends st (append_event st event).
Proof. split; exists []; simpl; now rewrite app_nil_r. Qed.

Lemma parse_line_refers st line st1 :
  parse_line st line = Ok st1 ->
  unique_ids st -> keyed_by_id st ->
  unique_ids st1 /\ keyed_by_id st1
  /\ cache_extends st st1
  /\ ((skipped line = true /\ st1 = st)
      \/ (skipped line = false
          /\ exists event,
              ef_events st1 = ef_events st ++ [event]
              /\ refers_to st1 line event)).
Proof.
  intros H [Ud Ur] [Kd Kr].
  apply parse_line_cases in H
    as [[Hskip ->] | (Hskip & token0 & kind & rest & t & Ew & Et & Hkind)].
  { repeat (split; auto using cache_extends_refl). }
  destruct Hkind as [(Hk & id & rest' & -> & Hcase)
                    | [(Hk & id & rest' & -> & Hcase) | (Hk1 & Hk2 & ->)]].
  - destruct Hcase as [(d & Hd & ->) | (Hd & location & speed & ->)].
    + split; [now split|]. split; [now split|].
      split; [apply cache_extends_append_event|].
      right. split; [exact Hskip|]. eexists. split; [reflexivity|].
      simpl. destruct (dict_index_Some _ _ Hd) as (x & Hx).
      exists id, x. rewrite Ew. split; [reflexivity|]. split; [exact Hx|].
      rewrite Forall_forall in Kd. apply (Kd (id, x)).
      eapply nth_error_In, Hx.
    + split.
      { split; simpl; [|exact Ur]. rewrite map_app. simpl.
        apply NoDup_app_one; [exact Ud|]. now apply dict_index_None. }
      split.
      { split; simpl; [|exact Kr]. apply Forall_app. split; [exact Kd|].
        constructor; [reflexivity|constructor]. }
      split.
      { split; simpl; [now eexists | exists []; now rewrite app_nil_r]. }
      right. split; [exact Hskip|]. eexists. split; [reflexivity|].
      simpl. eexists id, _. rewrite Ew. split; [reflexivity|].
      split; [apply nth_error_snoc | reflexivity].
  - destruct Hcase as [(r & Hr & ->) | (Hr & patience & origin & destination & ->)].
    + split; [now split|]. split; [now split|].
      split; [apply cache_extends_append_event|].
      right. split; [exact Hskip|]. eexists. split; [reflexivity|].
      simpl. destruct (dict_index_Some _ _ Hr) as (x & Hx).
      exists id, x. rewrite Ew. split; [reflexivity|]. split; [exact Hx|].
      rewrite Forall_forall in Kr. apply (Kr (id, x)).
      eapply nth_error_In, Hx.
    + split.
      { split; simpl; [exact Ud|]. rewrite map_app. simpl.
        apply NoDup_app_one; [exact Ur|]. now apply dict_index_None. }
      split.
      { split; simpl; [exact Kd|]. apply Forall_app. split; [exact Kr|].
        constructor; [reflexivity|constructor]. }
      split.
      { split; simpl; [exists []; now rewrite app_nil_r | now eexists]. }
      right. split; [exact Hskip|]. eexists. split; [reflexivity|].
      simpl. eexists id, _. rewrite Ew. split; [reflexivity|].
      split; [apply nth_error_snoc | reflexivity].
  - split; [now split|]. split; [now split|].
    split; [apply cache_extends_append_event|].
    right. split; [exact Hskip|]. exists None. split; [reflexivity|]. exact I.
Qed.

Lemma parse_lines_refers lines :
  forall st0 st,
    parse_lines st0 lines = Ok st ->
    unique_ids st0 -> keyed_by_id st0 ->
    unique_ids st /\ keyed_by_id st
    /\ cache_extends st0 st
    /\ exists events,
        ef_events st = ef_events st0 ++ events
        /\ Forall2 (refers_to st) (records lines) events.
Proof.
  induction lines as [|line lines IH]; intros st0 st; simpl.
  - intros H U K. injection H as <-.
    split; [exact U|]. split; [exact K|]. split; [apply cache_extends_refl|].
    exists []. rewrite app_nil_r. split; constructor.
  - intros H U K. apply rbind_ok in H as (st1 & E1 & H).
    destruct (parse_line_refers _ E1 U K) as (U1 & K1 & X1 & Hline).
    destruct (IH _ _ H U1 K1) as (U2 & K2 & X2 & events & Eev & Hall).
    split; [exact U2|]. split; [exact K2|].
    split; [eapply cache_extends_trans; eassumption|].
    unfold records in *. simpl.
    destruct Hline as [[Hskip ->] | (Hskip & event & E & Href)];
      rewrite Hskip; simpl.
    + exists events. auto.
    + exists (event :: events). rewrite Eev, E, <- app_assoc.
      split; [reflexivity|]. constructor; [|exact Hall].
      eapply refers_to_extends; eassumption.
Qed.

Lemma Forall2_nth_error {A B} (R : A -> B -> Prop) l l' :
  Forall2 R l l' ->
  forall n x y, nth_error l n = Some x -> nth_error l' n = Some y -> R x y.
Proof.
  induction 1 as [|a b l l' Hab _ IH]; intros [|n] x y; simpl; try discriminate.
  - intros [= <-] [= <-]. exact Hab.
  - apply IH.
Qed.

Lemma unique_key_position {V} (d : list (string * V)) i j k x y :
  NoDup (map fst d) ->
  nth_error d i = Some (k, x) -> nth_error d j = Some (k, y) -> i = j.
Proof.
  intros Hnd Hi Hj.
  apply (proj1 (NoDup_nth_error (map fst d)) Hnd).
  - rewrite length_map. apply nth_error_Some. congruence.
  - rewrite (map_nth_error fst _ _ Hi), (map_nth_error fst _ _ Hj). reflexivity.
Qed.

(** X26: the events read from a file share their objects by id.  When the
    file is read without error, no id is cached twice, and every
    DriverRequest (RiderRequest) entry refers to the cached driver (rider)
    whose key and id are the third field of its record.  So two
    DriverRequest entries refer to the same driver object exactly when
    their records name the same id, and likewise for riders. *)
Theorem create_event_list_shares_objects_by_id (lines : list string) (st : EventFile) :
  create_event_list lines = Ok st ->
  unique_ids st
  /\ Forall2 (refers_to st) (records lines) (ef_events st)
  /\ forall m n line_m line_n,
      nth_error (records lines) m = Some line_m ->
      nth_error (records lines) n = Some line_n ->
      (forall t_m t_n a b,
          nth_error (ef_events st) m = Some (Some (DriverRequest t_m a)) ->
          nth_error (ef_events st) n = Some (Some (DriverRequest t_n b)) ->
          (a = b <-> subscript (words (strip line_m)) 2
                     = subscript (words (strip line_n)) 2))
      /\ (forall t_m t_n a b,
             nth_error (ef_events st) m = Some (Some (RiderRequest t_m a)) ->
             nth_error (ef_events st) n = Some (Some (RiderRequest t_n b)) ->
             (a = b <-> subscript (words (strip line_m)) 2
                        = subscript (words (strip line_n)) 2)).
Proof.
  intros H. unfold create_event_list in H.
  apply parse_lines_refers in H as (U & K & _ & events & E & Hall).
  2: { split; constructor. }
  2: { split; constructor. }
  simpl in E. subst events.
  split; [exact U|]. split; [exact Hall|].
  intros m n line_m line_n Lm Ln. destruct U as [Ud Ur].
  split; intros t_m t_n a b Em En;
    pose proof (Forall2_nth_error Hall _ Lm Em) as (idm & xm & Sm & Nm & _);
    pose proof (Forall2_nth_error Hall _ Ln En) as (idn & xn & Sn & Nn & _);
    rewrite Sm, Sn; split.
  - intros <-. congruence.
  - intros [= <-]. eapply unique_key_position; [exact Ud | exact Nm | exact Nn].
  - intros <-. congruence.
  - intros [= <-]. eapply unique_key_position; [exact Ur | exact Nm | exact Nn].
Qed.

Lemma create_event_list_shares_objects_by_id_witness :
  exists st,
    create_event_list sample_file = Ok st
    /\ unique_ids st
    /\ Forall2 (refers_to st) (records sample_file) (ef_events st).
Proof.
  eexists. split; [reflexivity|].
  split; apply (create_event_list_shares_objects_by_id sample_file); reflexivity.
Defined.
